(** * BusTub page cache: extendible hash table, LRU-K replacer, buffer pool

    A shallow embedding of
      - [src/include/buffer/lru_k_replacer.h] and [lru_k_replacer.cpp],
      - [src/container/hash/extendible_hash_table.cpp],
      - [src/buffer/buffer_pool_manager_instance.cpp],
    followed by the properties of the specification, each settled against
    the embedded code.

    Conventions.
      - In the replacer and the buffer pool [size_t] values are integers in
        [Z]; the arithmetic that can wrap ([++], [--], [-]) is reduced
        modulo [2^64] by [size_t_wrap].
      - In the hash table a hash value is an [N], and depths, directory
        indices and bucket sizes are natural numbers: the table only
        increments them, masks with them and compares them.  [1 << depth]
        is read as [2 ^ depth], which is what the source's [int] shift
        gives for depths up to 30.
      - [frame_id_t] and [page_id_t] are the signed 32-bit [int] of the
        source, kept in [Z]; the code never does arithmetic on them apart
        from [next_page_id_++].
      - A call has one of four outcomes, see [res]. *)

From stdpp Require Import base tactics option list numbers strings sets relations.
From Stdlib Require Import ZArith Lia Permutation.
From Stdlib.Strings Require Import Byte.

Set Warnings "-clear-no-such-hyp".
Open Scope Z_scope.

(** ** Outcomes of a call *)

(** [Ok a]: the call returns [a].  [Throw e]: a C++ exception leaves the
    call.  [Abort]: a [BUSTUB_ASSERT] fails or the call runs into undefined
    behaviour (an index outside a vector or array).  [NoFuel]: the recursion
    budget of the model is used up; a call that is [NoFuel] for every budget
    does not return. *)
Inductive res (E A : Type) : Type :=
| Ok (a : A)
| Throw (e : E)
| Abort
| NoFuel.
Arguments Ok {E A} a.
Arguments Throw {E A} e.
Arguments Abort {E A}.
Arguments NoFuel {E A}.

Definition res_bind {E A B} (c : res E A) (k : A -> res E B) : res E B :=
  match c with
  | Ok a => k a
  | Throw e => Throw e
  | Abort => Abort
  | NoFuel => NoFuel
  end.

Notation "'do' x <- c ; k" := (res_bind c (fun x => k))
  (at level 10, x pattern, c at level 100, k at level 200).

Definition of_option {E A} (o : option A) : res E A :=
  match o with Some a => Ok a | None => Abort end.

Definition size_t_wrap (z : Z) : Z := z mod 2 ^ 64.

(** [v[i]] for a [std::vector] or array and a [size_t] or [int] index. *)
Definition vec_at {A} (v : list A) (i : Z) : option A :=
  if (0 <=? i) && (i <? Z.of_nat (length v)) then v !! Z.to_nat i else None.

(** [v[i] = x]; the caller has checked the index with [vec_at]. *)
Definition vec_set {A} (v : list A) (i : Z) (x : A) : list A :=
  <[Z.to_nat i := x]> v.

(** ** The LRU-K replacer *)

Module LRUK.

Section Replacer.

(** [BUSTUB_TIMESTAMP_MAX] is declared in [common/config.h], which is not
    among the sources; the replacer is read for any value of it. *)
Variable BUSTUB_TIMESTAMP_MAX : Z.

Record access_info_t : Type := {
  k_distance_ : Z;
  earliest_access_timestamp_ : Z
}.

Record FrameInfo : Type := {
  fi_k_ : Z;
  evictable_ : bool;
  access_timestamps_ : list Z
}.

(** [FrameInfo(k)]. *)
Definition FrameInfo_new (k : Z) : FrameInfo :=
  {| fi_k_ := k; evictable_ := false; access_timestamps_ := [] |}.

Definition IsEvictable (fi : FrameInfo) : bool := evictable_ fi.

Definition FrameInfo_SetEvictable (evictable : bool) (fi : FrameInfo) : FrameInfo :=
  {| fi_k_ := fi_k_ fi; evictable_ := evictable;
     access_timestamps_ := access_timestamps_ fi |}.

(** [FrameInfo::RecordAccess]: push the timestamp, drop the oldest one when
    more than [k_] are held. *)
Definition FrameInfo_RecordAccess (timestamp : Z) (fi : FrameInfo) : FrameInfo :=
  let ts := access_timestamps_ fi ++ [timestamp] in
  {| fi_k_ := fi_k_ fi; evictable_ := evictable_ fi;
     access_timestamps_ :=
       if fi_k_ fi <? Z.of_nat (length ts) then tail ts else ts |}.

(** [FrameInfo::GetAccessInfo].  Reading [access_timestamps_[0]] of an empty
    vector, or [access_timestamps_[k_ - 1]] past its end, is undefined. *)
Definition GetAccessInfo (fi : FrameInfo) : option access_info_t :=
  ts0 ← vec_at (access_timestamps_ fi) 0;
  if Z.of_nat (length (access_timestamps_ fi)) <? fi_k_ fi then
    Some {| k_distance_ := BUSTUB_TIMESTAMP_MAX;
            earliest_access_timestamp_ := ts0 |}
  else
    tsk ← vec_at (access_timestamps_ fi) (size_t_wrap (fi_k_ fi - 1));
    Some {| k_distance_ := size_t_wrap (tsk - ts0);
            earliest_access_timestamp_ := ts0 |}.

(** [map_] is a [std::unordered_map]: an association list with one entry per
    key, in the order in which the map is iterated (an order the C++
    standard leaves open; no result below depends on it beyond what is
    stated). *)
Record LRUKReplacer : Type := {
  current_timestamp_ : Z;
  curr_size_ : Z;
  replacer_size_ : Z;
  k_ : Z;
  map_ : list (Z * FrameInfo)
}.

(** [LRUKReplacer(num_frames, k)]. *)
Definition LRUKReplacer_new (num_frames k : Z) : LRUKReplacer :=
  {| current_timestamp_ := 0; curr_size_ := 0;
     replacer_size_ := num_frames; k_ := k; map_ := [] |}.

Definition set_map (m : list (Z * FrameInfo)) (r : LRUKReplacer) : LRUKReplacer :=
  {| current_timestamp_ := current_timestamp_ r; curr_size_ := curr_size_ r;
     replacer_size_ := replacer_size_ r; k_ := k_ r; map_ := m |}.

Definition set_curr_size (n : Z) (r : LRUKReplacer) : LRUKReplacer :=
  {| current_timestamp_ := current_timestamp_ r; curr_size_ := n;
     replacer_size_ := replacer_size_ r; k_ := k_ r; map_ := map_ r |}.

Definition set_current_timestamp (t : Z) (r : LRUKReplacer) : LRUKReplacer :=
  {| current_timestamp_ := t; curr_size_ := curr_size_ r;
     replacer_size_ := replacer_size_ r; k_ := k_ r; map_ := map_ r |}.

(** [map_.at(frame_id)] (as [option]), [map_.count(frame_id) == 0],
    [map_.erase(frame_id)] and the update of the entry that
    [map_.at(frame_id).f()] performs. *)
Fixpoint map_at (m : list (Z * FrameInfo)) (frame_id : Z) : option FrameInfo :=
  match m with
  | [] => None
  | (f, fi) :: m' => if Z.eqb f frame_id then Some fi else map_at m' frame_id
  end.

Fixpoint map_erase (m : list (Z * FrameInfo)) (frame_id : Z) : list (Z * FrameInfo) :=
  match m with
  | [] => []
  | (f, fi) :: m' =>
      if Z.eqb f frame_id then m' else (f, fi) :: map_erase m' frame_id
  end.

Fixpoint map_update (m : list (Z * FrameInfo)) (frame_id : Z)
    (g : FrameInfo -> FrameInfo) : list (Z * FrameInfo) :=
  match m with
  | [] => []
  | (f, fi) :: m' =>
      if Z.eqb f frame_id then (f, g fi) :: m'
      else (f, fi) :: map_update m' frame_id g
  end.

(** The first loop of [Evict]: the first evictable entry, else [-1]. *)
Fixpoint first_evictable (m : list (Z * FrameInfo)) : Z :=
  match m with
  | [] => -1
  | (f, fi) :: m' => if IsEvictable fi then f else first_evictable m'
  end.

(** The test under which the second loop of [Evict] keeps its target. *)
Definition keeps_target (cur tgt : access_info_t) : bool :=
  (k_distance_ cur <? k_distance_ tgt)
  || ((k_distance_ cur =? k_distance_ tgt)
      && (earliest_access_timestamp_ tgt <=? earliest_access_timestamp_ cur)).

(** The second loop of [Evict], carrying [target_frame_id] and
    [target_frame_access_info]. *)
Fixpoint evict_scan (m : list (Z * FrameInfo)) (tgt : Z * access_info_t)
    : option (Z * access_info_t) :=
  match m with
  | [] => Some tgt
  | (f, fi) :: m' =>
      if negb (IsEvictable fi) then evict_scan m' tgt
      else
        cur ← GetAccessInfo fi;
        if keeps_target cur (snd tgt) then evict_scan m' tgt
        else evict_scan m' (f, cur)
  end.

(** [LRUKReplacer::Evict]; the result is [None] for [false] and [Some f]
    for [true] with [*frame_id = f]. *)
Definition Evict (r : LRUKReplacer) : res string (option Z * LRUKReplacer) :=
  let target_frame_id := first_evictable (map_ r) in
  if target_frame_id =? -1 then Ok (None, r)
  else
    do fi <- of_option (map_at (map_ r) target_frame_id);
    do info <- of_option (GetAccessInfo fi);
    do tgt <- of_option (evict_scan (map_ r) (target_frame_id, info));
    Ok (Some (fst tgt),
        set_curr_size (size_t_wrap (curr_size_ r - 1))
          (set_map (map_erase (map_ r) (fst tgt)) r)).

(** [LRUKReplacer::CheckFrameId]: the assertion holds. *)
Definition CheckFrameId (r : LRUKReplacer) (frame_id : Z) : bool :=
  (0 <=? frame_id) && (frame_id <=? replacer_size_ r).

(** [LRUKReplacer::RecordAccess]. *)
Definition RecordAccess (frame_id : Z) (r : LRUKReplacer) : res string LRUKReplacer :=
  if negb (CheckFrameId r frame_id) then Abort
  else
    let m :=
      match map_at (map_ r) frame_id with
      | None => (frame_id, FrameInfo_new (k_ r)) :: map_ r
      | Some _ => map_ r
      end in
    Ok (set_current_timestamp (size_t_wrap (current_timestamp_ r + 1))
          (set_map (map_update m frame_id
                      (FrameInfo_RecordAccess (current_timestamp_ r))) r)).

(** [LRUKReplacer::SetEvictable]. *)
Definition SetEvictable (frame_id : Z) (set_evictable : bool) (r : LRUKReplacer)
    : res string LRUKReplacer :=
  if negb (CheckFrameId r frame_id) then Abort
  else
    match map_at (map_ r) frame_id with
    | None => Throw "Frame is not found."%string
    | Some fi =>
        if set_evictable then
          if negb (IsEvictable fi) then
            Ok (set_map (map_update (map_ r) frame_id (FrameInfo_SetEvictable true))
                  (set_curr_size (size_t_wrap (curr_size_ r + 1)) r))
          else Ok r
        else
          if IsEvictable fi then
            Ok (set_map (map_update (map_ r) frame_id (FrameInfo_SetEvictable false))
                  (set_curr_size (size_t_wrap (curr_size_ r - 1)) r))
          else Ok r
    end.

(** [LRUKReplacer::Remove]. *)
Definition Remove (frame_id : Z) (r : LRUKReplacer) : res string LRUKReplacer :=
  if negb (CheckFrameId r frame_id) then Abort
  else
    match map_at (map_ r) frame_id with
    | None => Ok r
    | Some fi =>
        if negb (IsEvictable fi) then Throw "Frame is not evictable."%string
        else Ok (set_curr_size (size_t_wrap (curr_size_ r - 1))
                   (set_map (map_erase (map_ r) frame_id) r))
    end.

(** [LRUKReplacer::Size]. *)
Definition Size (r : LRUKReplacer) : Z := curr_size_ r.

(** A frame is reported evictable when it is tracked with the flag set. *)
Definition evictable (r : LRUKReplacer) (frame_id : Z) : Prop :=
  exists fi, map_at (map_ r) frame_id = Some fi /\ IsEvictable fi = true.

End Replacer.

End LRUK.

(** ** The extendible hash table *)

Module EHT.

Local Open Scope nat_scope.

Section Table.

Context {K V : Type} `{EqDecision K} `{EqDecision V}.

(** [std::hash<K>()(key)], a [size_t]. *)
Variable hash : K -> N.

(** Depths, sizes and directory indices are natural numbers: the [int] and
    [size_t] arithmetic of the table ([1 << depth], [&], [+]) is exact as
    long as [global_depth_ <= 30], and the model reads it without a bound. *)
Record Bucket : Type := {
  size_ : nat;
  depth_ : nat;
  list_ : list (K * V)
}.

(** [Bucket(array_size, depth)]. *)
Definition Bucket_new (array_size depth : nat) : Bucket :=
  {| size_ := array_size; depth_ := depth; list_ := [] |}.

Definition GetDepth (b : Bucket) : nat := depth_ b.
Definition GetItems (b : Bucket) : list (K * V) := list_ b.

(** Modelled from the spec: [Bucket::IsFull] is defined in
    [extendible_hash_table.h], which is not among the sources; a bucket has
    room while it holds fewer items than its capacity.  On a bucket that
    holds no more items than its capacity this is the same as
    [list_.size() == size_]. *)
Definition IsFull (b : Bucket) : bool := size_ b <=? length (list_ b).

Definition set_list (l : list (K * V)) (b : Bucket) : Bucket :=
  {| size_ := size_ b; depth_ := depth_ b; list_ := l |}.

(** [Bucket::Find]: the value of the first pair with the key. *)
Fixpoint items_find (key : K) (l : list (K * V)) : option V :=
  match l with
  | [] => None
  | (k, v) :: l' => if decide (k = key) then Some v else items_find key l'
  end.

Definition Bucket_Find (key : K) (b : Bucket) : option V :=
  items_find key (list_ b).

(** [Bucket::Remove]: at the first pair [p] with the key, [list_.remove(p)]
    deletes every pair equal to [p]. *)
Fixpoint items_first (key : K) (l : list (K * V)) : option (K * V) :=
  match l with
  | [] => None
  | (k, v) :: l' => if decide (k = key) then Some (k, v) else items_first key l'
  end.

Definition items_remove (p : K * V) (l : list (K * V)) : list (K * V) :=
  filter (fun q => q <> p) l.

Definition Bucket_Remove (key : K) (b : Bucket) : bool * Bucket :=
  match items_first key (list_ b) with
  | Some p => (true, set_list (items_remove p (list_ b)) b)
  | None => (false, b)
  end.

(** [Bucket::Insert]: overwrite the first pair with the key; else fail on a
    full bucket; else append.  [None] is the [false] of the source. *)
Fixpoint items_overwrite (key : K) (value : V) (l : list (K * V))
    : option (list (K * V)) :=
  match l with
  | [] => None
  | (k, v) :: l' =>
      if decide (k = key) then Some ((k, value) :: l')
      else cons (k, v) <$> items_overwrite key value l'
  end.

Definition Bucket_Insert (key : K) (value : V) (b : Bucket) : option Bucket :=
  match items_overwrite key value (list_ b) with
  | Some l' => Some (set_list l' b)
  | None =>
      if IsFull b then None
      else Some (set_list (list_ b ++ [(key, value)]) b)
  end.

(** The table.  Buckets are shared between directory slots
    ([std::shared_ptr<Bucket>]): [heap_] holds every bucket ever made, a
    directory slot holds the position of its bucket in [heap_], and
    [std::make_shared] appends to [heap_].  A bucket that no slot references
    any more is dead. *)
Record Table : Type := {
  global_depth_ : nat;
  bucket_size_ : nat;
  num_buckets_ : nat;
  dir_ : list nat;
  heap_ : list Bucket
}.

(** [ExtendibleHashTable(bucket_size)]. *)
Definition Table_new (bucket_size : nat) : Table :=
  {| global_depth_ := 0; bucket_size_ := bucket_size; num_buckets_ := 1;
     dir_ := [0]; heap_ := [Bucket_new bucket_size 0] |}.

Definition set_heap (h : list Bucket) (t : Table) : Table :=
  {| global_depth_ := global_depth_ t; bucket_size_ := bucket_size_ t;
     num_buckets_ := num_buckets_ t; dir_ := dir_ t; heap_ := h |}.

Definition set_dir (g : nat) (d : list nat) (t : Table) : Table :=
  {| global_depth_ := g; bucket_size_ := bucket_size_ t;
     num_buckets_ := num_buckets_ t; dir_ := d; heap_ := heap_ t |}.

(** [IndexOf]: [hash(key) & ((1 << global_depth_) - 1)]. *)
Definition IndexOf (t : Table) (key : K) : nat :=
  N.to_nat (N.land (hash key) (N.shiftl 1 (N.of_nat (global_depth_ t)) - 1)).

(** [dir_[i]], dereferenced. *)
Definition bucket_at (t : Table) (i : nat) : option Bucket :=
  r ← dir_ t !! i; heap_ t !! r.

Definition GetGlobalDepth (t : Table) : nat := global_depth_ t.

Definition GetLocalDepth (t : Table) (dir_index : nat) : option nat :=
  GetDepth <$> bucket_at t dir_index.

Definition GetNumBuckets (t : Table) : nat := num_buckets_ t.

(** [Find]: [Ok None] is [false], [Ok (Some v)] is [true] with [value = v]. *)
Definition Find (key : K) (t : Table) : res Empty_set (option V) :=
  do b <- of_option (bucket_at t (IndexOf t key));
  Ok (Bucket_Find key b).

Definition Remove (key : K) (t : Table) : res Empty_set (bool * Table) :=
  do r <- of_option (dir_ t !! IndexOf t key);
  do b <- of_option (heap_ t !! r);
  let '(removed, b') := Bucket_Remove key b in
  Ok (removed, set_heap (<[r := b']> (heap_ t)) t).

(** The loop of the [else] branch of [InsertInternal]:
    [for (i = start; i < dir_.size(); i += mask)], with [n] bounding the
    number of rounds. *)
Fixpoint reassign (n : nat) (i mask bucket0 bucket1 : nat) (dir : list nat)
    : list nat :=
  match n with
  | O => dir
  | S n' =>
      if i <? length dir then
        reassign n' (i + mask) mask bucket0 bucket1
          (<[i := if Nat.land i mask =? 0 then bucket0 else bucket1]> dir)
      else dir
  end.

(** [RedistributeBucket], over the recursive call it makes. *)
Fixpoint redistribute (insert : K -> V -> Table -> res Empty_set Table)
    (items : list (K * V)) (t : Table) : res Empty_set Table :=
  match items with
  | [] => Ok t
  | (k, v) :: items' => do t' <- insert k v t; redistribute insert items' t'
  end.

(** The directory and heap after the split of [InsertInternal], before the
    items of the original bucket are redistributed. *)
Definition split_dir (t : Table) (original_dir_index original_local_depth : nat)
    : Table :=
  let bucket0 := length (heap_ t) in
  let bucket1 := S (length (heap_ t)) in
  let heap' :=
    heap_ t ++ [Bucket_new (bucket_size_ t) (original_local_depth + 1);
                Bucket_new (bucket_size_ t) (original_local_depth + 1)] in
  if global_depth_ t <? original_local_depth + 1 then
    let original_dir_size := length (dir_ t) in
    set_heap heap'
      (set_dir (S (global_depth_ t))
         (<[original_dir_index + original_dir_size := bucket1]>
            (<[original_dir_index := bucket0]> (dir_ t ++ dir_ t))) t)
  else
    let original_local_depth_bit_mask := Nat.shiftl 1 original_local_depth in
    set_heap heap'
      (set_dir (global_depth_ t)
         (reassign (length (dir_ t))
            (Nat.land original_dir_index (original_local_depth_bit_mask - 1))
            original_local_depth_bit_mask bucket0 bucket1 (dir_ t)) t).

(** [InsertInternal]; [fuel] bounds the depth of the recursion. *)
Fixpoint InsertInternal (fuel : nat) (key : K) (value : V) (t : Table)
    : res Empty_set Table :=
  match fuel with
  | O => NoFuel
  | S fuel' =>
      let original_dir_index := IndexOf t key in
      do r <- of_option (dir_ t !! original_dir_index);
      do original_bucket <- of_option (heap_ t !! r);
      match Bucket_Insert key value original_bucket with
      | Some b' => Ok (set_heap (<[r := b']> (heap_ t)) t)
      | None =>
          let t1 := split_dir t original_dir_index (GetDepth original_bucket) in
          do t2 <- redistribute (InsertInternal fuel') (GetItems original_bucket) t1;
          InsertInternal fuel' key value t2
      end
  end.

Definition RedistributeBucket (fuel : nat) (bucket : Bucket) (t : Table)
    : res Empty_set Table :=
  redistribute (InsertInternal fuel) (GetItems bucket) t.

Definition Insert (fuel : nat) (key : K) (value : V) (t : Table)
    : res Empty_set Table :=
  InsertInternal fuel key value t.

(** The public operations, and the tables that sequences of them reach
    from a fresh table. *)
Inductive op : Type :=
| insert (key : K) (value : V)
| remove (key : K)
| find (key : K).

Definition op_key (o : op) : K :=
  match o with insert k _ => k | remove k => k | find k => k end.

Definition run (fuel : nat) (o : op) (t : Table) : res Empty_set Table :=
  match o with
  | insert k v => Insert fuel k v t
  | remove k => do x <- Remove k t; Ok (snd x)
  | find k => do _ <- Find k t; Ok t
  end.

Inductive reachable (bucket_size : nat) : Table -> Prop :=
| reachable_new : reachable bucket_size (Table_new bucket_size)
| reachable_step t t' fuel o :
    reachable bucket_size t -> run fuel o t = Ok t' -> reachable bucket_size t'.

End Table.

Arguments Bucket : clear implicits.
Arguments Table : clear implicits.

End EHT.

(** ** The buffer pool manager *)

Module BPM.

Import LRUK.

Section Pool.

(** Constants of [common/config.h] and of the class declaration
    ([buffer_pool_manager_instance.h]), neither among the sources: the
    sentinel page id, the page size in bytes, the bucket size of the page
    table and the replacer's [BUSTUB_TIMESTAMP_MAX]; [hash] is
    [std::hash<page_id_t>]. *)
Variable INVALID_PAGE_ID : Z.
Variable BUSTUB_PAGE_SIZE : nat.
Variable bucket_size_ : nat.
Variable BUSTUB_TIMESTAMP_MAX : Z.
Variable hash : Z -> N.

(** Modelled from the spec: the [Page] class ([storage/page/page.h]) is not
    among the sources; a frame is a fixed-size byte buffer plus the metadata
    [page_id], [pin_count] and [dirty]. *)
Record Page : Type := {
  data_ : list byte;
  page_id_ : Z;
  pin_count_ : Z;
  is_dirty_ : bool
}.

Definition zeroed : list byte := replicate BUSTUB_PAGE_SIZE x00.

(** [Page()]: an empty frame. *)
Definition Page_new : Page :=
  {| data_ := zeroed; page_id_ := INVALID_PAGE_ID; pin_count_ := 0;
     is_dirty_ := false |}.

Definition GetPageId (p : Page) : Z := page_id_ p.
Definition GetPinCount (p : Page) : Z := pin_count_ p.
Definition IsDirty (p : Page) : bool := is_dirty_ p.
Definition GetData (p : Page) : list byte := data_ p.

(** [ResetMemory]: [memset(data_, 0, BUSTUB_PAGE_SIZE)]. *)
Definition ResetMemory (p : Page) : Page :=
  {| data_ := zeroed; page_id_ := page_id_ p; pin_count_ := pin_count_ p;
     is_dirty_ := is_dirty_ p |}.

Definition set_data (d : list byte) (p : Page) : Page :=
  {| data_ := d; page_id_ := page_id_ p; pin_count_ := pin_count_ p;
     is_dirty_ := is_dirty_ p |}.

Definition set_page_id (i : Z) (p : Page) : Page :=
  {| data_ := data_ p; page_id_ := i; pin_count_ := pin_count_ p;
     is_dirty_ := is_dirty_ p |}.

Definition set_pin_count (n : Z) (p : Page) : Page :=
  {| data_ := data_ p; page_id_ := page_id_ p; pin_count_ := n;
     is_dirty_ := is_dirty_ p |}.

Definition set_is_dirty (d : bool) (p : Page) : Page :=
  {| data_ := data_ p; page_id_ := page_id_ p; pin_count_ := pin_count_ p;
     is_dirty_ := d |}.

(** Modelled from the spec: the disk manager is an external collaborator
    with [read_page] and [write_page]; its state is the sequence of
    [WritePage] calls, newest first, and a page reads as it was last
    written, or as zeros. *)
Definition Disk : Type := list (Z * list byte).

Definition WritePage (page_id : Z) (data : list byte) (d : Disk) : Disk :=
  (page_id, data) :: d.

Fixpoint ReadPage (page_id : Z) (d : Disk) : list byte :=
  match d with
  | [] => zeroed
  | (p, data) :: d' => if Z.eqb p page_id then data else ReadPage page_id d'
  end.

Record BufferPoolManagerInstance : Type := {
  pool_size_ : Z;
  pages_ : list Page;
  page_table_ : EHT.Table Z Z;
  replacer_ : LRUKReplacer;
  free_list_ : list Z;
  next_page_id_ : Z;
  disk_manager_ : Disk
}.

Definition set_pages (x : list Page) (s : BufferPoolManagerInstance) :=
  {| pool_size_ := pool_size_ s; pages_ := x; page_table_ := page_table_ s;
     replacer_ := replacer_ s; free_list_ := free_list_ s;
     next_page_id_ := next_page_id_ s; disk_manager_ := disk_manager_ s |}.

Definition set_page_table (x : EHT.Table Z Z) (s : BufferPoolManagerInstance) :=
  {| pool_size_ := pool_size_ s; pages_ := pages_ s; page_table_ := x;
     replacer_ := replacer_ s; free_list_ := free_list_ s;
     next_page_id_ := next_page_id_ s; disk_manager_ := disk_manager_ s |}.

Definition set_replacer (x : LRUKReplacer) (s : BufferPoolManagerInstance) :=
  {| pool_size_ := pool_size_ s; pages_ := pages_ s; page_table_ := page_table_ s;
     replacer_ := x; free_list_ := free_list_ s;
     next_page_id_ := next_page_id_ s; disk_manager_ := disk_manager_ s |}.

Definition set_free_list (x : list Z) (s : BufferPoolManagerInstance) :=
  {| pool_size_ := pool_size_ s; pages_ := pages_ s; page_table_ := page_table_ s;
     replacer_ := replacer_ s; free_list_ := x;
     next_page_id_ := next_page_id_ s; disk_manager_ := disk_manager_ s |}.

Definition set_next_page_id (x : Z) (s : BufferPoolManagerInstance) :=
  {| pool_size_ := pool_size_ s; pages_ := pages_ s; page_table_ := page_table_ s;
     replacer_ := replacer_ s; free_list_ := free_list_ s;
     next_page_id_ := x; disk_manager_ := disk_manager_ s |}.

Definition set_disk (x : Disk) (s : BufferPoolManagerInstance) :=
  {| pool_size_ := pool_size_ s; pages_ := pages_ s; page_table_ := page_table_ s;
     replacer_ := replacer_ s; free_list_ := free_list_ s;
     next_page_id_ := next_page_id_ s; disk_manager_ := x |}.

(** [BufferPoolManagerInstance(pool_size, disk_manager, replacer_k)]; the
    counter [next_page_id_] starts at [0]. *)
Definition BufferPoolManagerInstance_new (pool_size : nat) (disk_manager : Disk)
    (replacer_k : Z) : BufferPoolManagerInstance :=
  {| pool_size_ := Z.of_nat pool_size;
     pages_ := replicate pool_size Page_new;
     page_table_ := EHT.Table_new bucket_size_;
     replacer_ := LRUKReplacer_new (Z.of_nat pool_size) replacer_k;
     free_list_ := Z.of_nat <$> seq 0 pool_size;
     next_page_id_ := 0;
     disk_manager_ := disk_manager |}.

(** An outcome of a pool operation carries, when an exception leaves it, the
    state of the pool at the [throw]. *)
Definition M (A : Type) : Type := res BufferPoolManagerInstance A.

Definition lift_table {A} (c : res Empty_set A) : M A :=
  match c with
  | Ok a => Ok a
  | Throw e => match e with end
  | Abort => Abort
  | NoFuel => NoFuel
  end.

(** A replacer call from state [s]; the replacer throws before it changes
    anything. *)
Definition lift_replacer {A} (s : BufferPoolManagerInstance) (c : res string A) : M A :=
  match c with
  | Ok a => Ok a
  | Throw _ => Throw s
  | Abort => Abort
  | NoFuel => NoFuel
  end.

(** [pages_[frame_id].f()] for a member update [f]. *)
Definition upd_page (frame_id : Z) (f : Page -> Page) (s : BufferPoolManagerInstance)
    : M BufferPoolManagerInstance :=
  do pg <- of_option (vec_at (pages_ s) frame_id);
  Ok (set_pages (vec_set (pages_ s) frame_id (f pg)) s).

(** [AllocatePage]: [next_page_id_++] on a 32-bit counter. *)
Definition AllocatePage (s : BufferPoolManagerInstance) : Z * BufferPoolManagerInstance :=
  (next_page_id_ s,
   set_next_page_id ((next_page_id_ s + 1 + 2 ^ 31) mod 2 ^ 32 - 2 ^ 31) s).

(** The frame that [NewPgImp] and [FetchPgImp] take: the front of the free
    list, else the replacer's victim, else none. *)
Definition take_frame (s : BufferPoolManagerInstance)
    : M (option Z * BufferPoolManagerInstance) :=
  match free_list_ s with
  | target_frame_id :: rest => Ok (Some target_frame_id, set_free_list rest s)
  | [] =>
      do (victim, r) <- lift_replacer s (Evict BUSTUB_TIMESTAMP_MAX (replacer_ s));
      Ok (victim, set_replacer r s)
  end.

(** The write-back of [NewPgImp] and [FetchPgImp]:
    [if (pages_[f].IsDirty()) disk_manager_->WritePage(...)]. *)
Definition write_back (target_frame_id : Z) (s : BufferPoolManagerInstance)
    : M BufferPoolManagerInstance :=
  do pg <- of_option (vec_at (pages_ s) target_frame_id);
  Ok (if IsDirty pg
      then set_disk (WritePage (GetPageId pg) (GetData pg) (disk_manager_ s)) s
      else s).

Definition table_remove (page_id : Z) (s : BufferPoolManagerInstance)
    : M BufferPoolManagerInstance :=
  do (_, pt) <- lift_table (EHT.Remove hash page_id (page_table_ s));
  Ok (set_page_table pt s).

Definition table_insert (fuel : nat) (page_id frame_id : Z)
    (s : BufferPoolManagerInstance) : M BufferPoolManagerInstance :=
  do pt <- lift_table (EHT.Insert hash fuel page_id frame_id (page_table_ s));
  Ok (set_page_table pt s).

Definition replacer_call (c : LRUKReplacer -> res string LRUKReplacer)
    (s : BufferPoolManagerInstance) : M BufferPoolManagerInstance :=
  do r <- lift_replacer s (c (replacer_ s));
  Ok (set_replacer r s).

(** [NewPgImp]: [None] is [nullptr]; [Some (page_id, f)] is the new page id
    and the frame [&pages_[f]].  [fuel] is the budget of the page table's
    [Insert]. *)
Definition NewPgImp (fuel : nat) (s : BufferPoolManagerInstance)
    : M (option (Z * Z) * BufferPoolManagerInstance) :=
  do (target, s) <- take_frame s;
  match target with
  | None => Ok (None, s)
  | Some target_frame_id =>
      do s <- write_back target_frame_id s;
      do pg <- of_option (vec_at (pages_ s) target_frame_id);
      do s <- table_remove (GetPageId pg) s;
      do s <- upd_page target_frame_id ResetMemory s;
      let '(new_id, s) := AllocatePage s in
      do s <- upd_page target_frame_id (set_page_id new_id) s;
      do s <- upd_page target_frame_id (set_pin_count 1) s;
      do s <- replacer_call (RecordAccess target_frame_id) s;
      do s <- replacer_call (SetEvictable target_frame_id false) s;
      do pg <- of_option (vec_at (pages_ s) target_frame_id);
      do s <- table_insert fuel (page_id_ pg) target_frame_id s;
      do pg <- of_option (vec_at (pages_ s) target_frame_id);
      Ok (Some (GetPageId pg, target_frame_id), s)
  end.

(** [FetchPgImp]: [None] is [nullptr], [Some f] is [&pages_[f]]. *)
Definition FetchPgImp (fuel : nat) (page_id : Z) (s : BufferPoolManagerInstance)
    : M (option Z * BufferPoolManagerInstance) :=
  do found <- lift_table (EHT.Find hash page_id (page_table_ s));
  match found with
  | Some target_frame_id =>
      do s <- replacer_call (RecordAccess target_frame_id) s;
      Ok (Some target_frame_id, s)
  | None =>
      do (target, s) <- take_frame s;
      match target with
      | None => Ok (None, s)
      | Some target_frame_id =>
          do s <- write_back target_frame_id s;
          do pg <- of_option (vec_at (pages_ s) target_frame_id);
          do s <- table_remove (GetPageId pg) s;
          do s <- upd_page target_frame_id ResetMemory s;
          do s <- upd_page target_frame_id (set_page_id page_id) s;
          do s <- upd_page target_frame_id (set_pin_count 1) s;
          do pg <- of_option (vec_at (pages_ s) target_frame_id);
          do s <- table_insert fuel (page_id_ pg) target_frame_id s;
          do s <- upd_page target_frame_id
                    (set_data (ReadPage (page_id_ pg) (disk_manager_ s))) s;
          do s <- replacer_call (RecordAccess target_frame_id) s;
          do s <- replacer_call (SetEvictable target_frame_id false) s;
          Ok (Some target_frame_id, s)
      end
  end.

(** [UnpinPgImp]. *)
Definition UnpinPgImp (page_id : Z) (is_dirty : bool) (s : BufferPoolManagerInstance)
    : M (bool * BufferPoolManagerInstance) :=
  do found <- lift_table (EHT.Find hash page_id (page_table_ s));
  match found with
  | None => Ok (false, s)
  | Some target_frame_id =>
      do pg <- of_option (vec_at (pages_ s) target_frame_id);
      if GetPinCount pg =? 0 then Ok (false, s)
      else
        do s <- upd_page target_frame_id (set_pin_count (pin_count_ pg - 1)) s;
        do pg <- of_option (vec_at (pages_ s) target_frame_id);
        do s <- (if GetPinCount pg =? 0
                 then replacer_call (SetEvictable target_frame_id true) s
                 else Ok s);
        do s <- upd_page target_frame_id (set_is_dirty is_dirty) s;
        Ok (true, s)
  end.

(** [FlushPgImp]. *)
Definition FlushPgImp (page_id : Z) (s : BufferPoolManagerInstance)
    : M (bool * BufferPoolManagerInstance) :=
  do found <- lift_table (EHT.Find hash page_id (page_table_ s));
  match found with
  | None => Ok (false, s)
  | Some target_frame_id =>
      do pg <- of_option (vec_at (pages_ s) target_frame_id);
      let s := set_disk (WritePage page_id (GetData pg) (disk_manager_ s)) s in
      do s <- upd_page target_frame_id (set_is_dirty false) s;
      do s <- replacer_call (RecordAccess target_frame_id) s;
      Ok (true, s)
  end.

(** [FlushAllPgsImp]: [for (i = 0; i < pool_size_; ++i)], [n] rounds left. *)
Fixpoint flush_from (n : nat) (i : Z) (s : BufferPoolManagerInstance)
    : M BufferPoolManagerInstance :=
  match n with
  | O => Ok s
  | S n' =>
      do pg <- of_option (vec_at (pages_ s) i);
      do (_, s) <- FlushPgImp (GetPageId pg) s;
      flush_from n' (i + 1) s
  end.

Definition FlushAllPgsImp (s : BufferPoolManagerInstance) : M BufferPoolManagerInstance :=
  flush_from (Z.to_nat (pool_size_ s)) 0 s.

(** [DeletePgImp]; [DeallocatePage] does nothing to the pool. *)
Definition DeletePgImp (page_id : Z) (s : BufferPoolManagerInstance)
    : M (bool * BufferPoolManagerInstance) :=
  do found <- lift_table (EHT.Find hash page_id (page_table_ s));
  match found with
  | None => Ok (true, s)
  | Some target_frame_id =>
      do pg <- of_option (vec_at (pages_ s) target_frame_id);
      if 0 <? GetPinCount pg then Ok (false, s)
      else
        do s <- table_remove page_id s;
        do s <- replacer_call (Remove target_frame_id) s;
        do s <- upd_page target_frame_id ResetMemory s;
        do s <- upd_page target_frame_id (set_page_id INVALID_PAGE_ID) s;
        do s <- upd_page target_frame_id (set_pin_count 0) s;
        do s <- upd_page target_frame_id (set_is_dirty false) s;
        Ok (true, set_free_list (free_list_ s ++ [target_frame_id]) s)
  end.

(** The public operations, and one step of a client: the call returns, or an
    exception leaves it and the client goes on with the pool as it is. *)
Inductive op : Type :=
| new_page
| fetch_page (page_id : Z)
| unpin_page (page_id : Z) (is_dirty : bool)
| flush_page (page_id : Z)
| flush_all
| delete_page (page_id : Z).

Definition run (fuel : nat) (o : op) (s : BufferPoolManagerInstance)
    : M BufferPoolManagerInstance :=
  match o with
  | new_page => do (_, s) <- NewPgImp fuel s; Ok s
  | fetch_page p => do (_, s) <- FetchPgImp fuel p s; Ok s
  | unpin_page p d => do (_, s) <- UnpinPgImp p d s; Ok s
  | flush_page p => do (_, s) <- FlushPgImp p s; Ok s
  | flush_all => FlushAllPgsImp s
  | delete_page p => do (_, s) <- DeletePgImp p s; Ok s
  end.

Inductive step (s s' : BufferPoolManagerInstance) : Prop :=
| step_returns fuel o : run fuel o s = Ok s' -> step s s'
| step_throws fuel o : run fuel o s = Throw s' -> step s s'.

Inductive reachable (pool_size : nat) (replacer_k : Z)
    : BufferPoolManagerInstance -> Prop :=
| reachable_new disk :
    reachable pool_size replacer_k
      (BufferPoolManagerInstance_new pool_size disk replacer_k)
| reachable_step s s' :
    reachable pool_size replacer_k s -> step s s' ->
    reachable pool_size replacer_k s'.

End Pool.

End BPM.

(** ** Concrete runs used below *)

Module Runs.

Import LRUK.

(** The spec's backward k-distance of a frame at time [now]: [None] is
    [+infinity] (fewer than [k] recorded accesses), else [now] minus the
    timestamp of the k-th most recent access. *)
Definition spec_backward_k_distance (now : Z) (fi : FrameInfo) : option Z :=
  let ts := access_timestamps_ fi in
  if Z.of_nat (length ts) <? fi_k_ fi then None
  else
    kth ← vec_at ts (Z.of_nat (length ts) - fi_k_ fi);
    Some (now - kth).

Fixpoint record_accesses (frames : list Z) (r : LRUKReplacer)
    : res string LRUKReplacer :=
  match frames with
  | [] => Ok r
  | f :: frames' => do r' <- RecordAccess f r; record_accesses frames' r'
  end.

(** A replacer for three frames with [k = 2]: frame 0 is accessed at times 0
    and 1, frame 1 at times 2 and 4, frame 2 at time 3; frames 0 and 1 are
    then made evictable. *)
Definition lruk_run : res string LRUKReplacer :=
  do r <- record_accesses [0; 0; 1; 2; 1] (LRUKReplacer_new 3 2);
  do r <- SetEvictable 0 true r;
  SetEvictable 1 true r.

Definition lruk_frame0 : FrameInfo :=
  {| fi_k_ := 2; evictable_ := true; access_timestamps_ := [0; 1] |}.
Definition lruk_frame1 : FrameInfo :=
  {| fi_k_ := 2; evictable_ := true; access_timestamps_ := [2; 4] |}.
Definition lruk_frame2 : FrameInfo :=
  {| fi_k_ := 2; evictable_ := false; access_timestamps_ := [3] |}.

Definition lruk_state (m : list (Z * FrameInfo)) : LRUKReplacer :=
  {| current_timestamp_ := 5; curr_size_ := 2; replacer_size_ := 3; k_ := 2;
     map_ := m |}.

Definition lruk_entries : list (Z * FrameInfo) :=
  [(2, lruk_frame2); (1, lruk_frame1); (0, lruk_frame0)].

(** A pool of one frame.  [std::hash<page_id_t>] converts the [int] to
    [size_t]; the page table has buckets of four entries and the replacer
    has [k = 2]. *)
Definition page_hash (p : Z) : N := Z.to_N (p mod 2 ^ 64).

Definition pool1 : BPM.BufferPoolManagerInstance :=
  BPM.BufferPoolManagerInstance_new (-1) 4096 4 1 [] 2.

Definition pool_run (o : BPM.op) (s : BPM.BufferPoolManagerInstance)
    : BPM.M BPM.BufferPoolManagerInstance :=
  BPM.run (-1) 4096 (2 ^ 64 - 1) page_hash 64 o s.

Fixpoint pool_runs (ops : list BPM.op) (s : BPM.BufferPoolManagerInstance)
    : BPM.M BPM.BufferPoolManagerInstance :=
  match ops with
  | [] => Ok s
  | o :: ops' => do s' <- pool_run o s; pool_runs ops' s'
  end.

(** Tables with [int] keys and values.  [table3] holds the keys 0, 1, 2 in
    buckets of two entries. *)
Definition table_inserts (kvs : list (Z * Z)) (t : EHT.Table Z Z)
    : res Empty_set (EHT.Table Z Z) :=
  EHT.redistribute (EHT.Insert page_hash 64) kvs t.

Definition table2 : EHT.Table Z Z :=
  {| EHT.global_depth_ := 0; EHT.bucket_size_ := 2; EHT.num_buckets_ := 1;
     EHT.dir_ := [0%nat];
     EHT.heap_ := [{| EHT.size_ := 2; EHT.depth_ := 0;
                      EHT.list_ := [(0, 10); (1, 11)] |}] |}.



End Runs.

(** ** Clients of the replacer *)

Module LRUK_Client.

Import LRUK.

Section Client.

Variable BUSTUB_TIMESTAMP_MAX : Z.

(** The public operations of the replacer.  A call that throws does so
    before it changes the replacer, so only the calls that return move the
    replacer to a new state. *)
Inductive op : Type :=
| record_access (frame_id : Z)
| set_evictable (frame_id : Z) (evictable : bool)
| remove (frame_id : Z)
| evict.

Definition run (o : op) (r : LRUKReplacer) : res string LRUKReplacer :=
  match o with
  | record_access f => RecordAccess f r
  | set_evictable f b => SetEvictable f b r
  | remove f => Remove f r
  | evict => do x <- Evict BUSTUB_TIMESTAMP_MAX r; Ok (snd x)
  end.

Fixpoint runs (ops : list op) (r : LRUKReplacer) : res string LRUKReplacer :=
  match ops with
  | [] => Ok r
  | o :: ops' => do r' <- run o r; runs ops' r'
  end.

Inductive reachable (num_frames k : Z) : LRUKReplacer -> Prop :=
| reachable_new : reachable num_frames k (LRUKReplacer_new num_frames k)
| reachable_step r r' o :
    reachable num_frames k r -> run o r = Ok r' -> reachable num_frames k r'.

End Client.

End LRUK_Client.

(** ** Further concrete runs *)

Module Runs_More.

Import Runs.

(** A full bucket of size two, and the empty table with such buckets. *)
Definition bucket2 : EHT.Bucket Z Z :=
  {| EHT.size_ := 2; EHT.depth_ := 0; EHT.list_ := [(0, 10); (1, 11)] |}.

Definition table_empty : EHT.Table Z Z := EHT.Table_new 2.

(** The pool of one frame after a sequence of operations. *)
Definition pool_after (ops : list BPM.op) : BPM.BufferPoolManagerInstance :=
  match pool_runs ops pool1 with Ok s => s | _ => pool1 end.

(** A pool of two frames over a disk that holds bytes for page 0, and the
    pool after a sequence of operations. *)
Definition pool2 : BPM.BufferPoolManagerInstance :=
  BPM.BufferPoolManagerInstance_new (-1) 4096 4 2 [(0, replicate 4096 Byte.x2a)] 2.

Definition pool2_after (ops : list BPM.op) : BPM.BufferPoolManagerInstance :=
  match pool_runs ops pool2 with Ok s => s | _ => pool2 end.

End Runs_More.

(** * Properties *)

(** ** Outcomes *)

Module Outcome_Facts.

Lemma bind_Ok {E A B} (c : res E A) (k : A -> res E B) b :
  res_bind c k = Ok b <-> exists a, c = Ok a /\ k a = Ok b.
Proof.
  destruct c; simpl; naive_solver.
Qed.

Lemma bind_Throw {E A B} (c : res E A) (k : A -> res E B) e :
  res_bind c k = Throw e <-> c = Throw e \/ exists a, c = Ok a /\ k a = Throw e.
Proof.
  destruct c; simpl; naive_solver.
Qed.

Lemma of_option_Ok {E A} (o : option A) a : of_option (E:=E) o = Ok a <-> o = Some a.
Proof. destruct o; simpl; split; intros; by simplify_eq. Qed.

Lemma of_option_Throw {E A} (o : option A) e : of_option (E:=E) o <> Throw e.
Proof. by destruct o. Qed.

End Outcome_Facts.

(** ** LRU-K replacer *)

Module LRUK_Facts.

Import LRUK Runs Outcome_Facts.

(** *** The map of the replacer *)

Lemma map_at_elem m f fi : map_at m f = Some fi -> (f, fi) ∈ m.
Proof.
  induction m as [|[f' fi'] m IH]; simpl; [done|].
  destruct (Z.eqb_spec f' f) as [->|]; intros; simplify_eq; [left|right; auto].
Qed.

Lemma map_at_None m f : map_at m f = None <-> f ∉ m.*1.
Proof.
  induction m as [|[f' fi'] m IH]; simpl.
  - split; [intros _; apply not_elem_of_nil|done].
  - rewrite not_elem_of_cons. destruct (Z.eqb_spec f' f) as [->|]; [|naive_solver].
    split; [done|naive_solver].
Qed.

Lemma elem_map_at m f fi : NoDup m.*1 -> (f, fi) ∈ m -> map_at m f = Some fi.
Proof.
  induction m as [|[f' fi'] m IH]; simpl; [by rewrite elem_of_nil|].
  rewrite NoDup_cons, elem_of_cons. intros [Hnin Hnd] [Heq|Hin].
  - simplify_eq. by rewrite Z.eqb_refl.
  - destruct (Z.eqb_spec f' f) as [->|]; [|auto].
    destruct Hnin. apply (list_elem_of_fmap_2 fst) in Hin. done.
Qed.

Lemma map_update_keys m f g : (map_update m f g).*1 = m.*1.
Proof.
  induction m as [|[f' fi'] m IH]; simpl; [done|].
  destruct (Z.eqb_spec f' f); csimpl; congruence.
Qed.

Lemma map_at_update m f g f' :
  map_at (map_update m f g) f' =
  if decide (f = f') then g <$> map_at m f' else map_at m f'.
Proof.
  induction m as [|[f0 fi0] m IH]; simpl; [by case_decide|].
  destruct (Z.eqb_spec f0 f) as [->|]; simpl.
  - destruct (Z.eqb_spec f f') as [->|]; by case_decide.
  - rewrite IH. destruct (Z.eqb_spec f0 f') as [->|]; [|done].
    case_decide; [congruence|done].
Qed.

Lemma map_erase_keys_sub m f : (map_erase m f).*1 ⊆ m.*1.
Proof.
  induction m as [|[f' fi'] m IH]; simpl; [done|].
  destruct (Z.eqb_spec f' f); simpl; set_solver.
Qed.

Lemma map_erase_NoDup m f : NoDup m.*1 -> NoDup (map_erase m f).*1.
Proof.
  induction m as [|[f' fi'] m IH]; simpl; [done|].
  rewrite NoDup_cons. intros [Hnin Hnd].
  destruct (Z.eqb_spec f' f); simpl; [done|].
  rewrite NoDup_cons. split; [|auto].
  intros Hin. by apply map_erase_keys_sub in Hin.
Qed.

Lemma map_at_erase_ne m f f' : f <> f' -> map_at (map_erase m f) f' = map_at m f'.
Proof.
  intros Hne. induction m as [|[f0 fi0] m IH]; simpl; [done|].
  destruct (Z.eqb_spec f0 f) as [->|]; simpl.
  - destruct (Z.eqb_spec f f'); [done|done].
  - by rewrite IH.
Qed.

Lemma map_at_erase_eq m f : NoDup m.*1 -> map_at (map_erase m f) f = None.
Proof.
  induction m as [|[f0 fi0] m IH]; simpl; [done|].
  rewrite NoDup_cons. intros [Hnin Hnd].
  destruct (Z.eqb_spec f0 f) as [->|]; simpl.
  - by apply map_at_None.
  - destruct (Z.eqb_spec f0 f); [done|auto].
Qed.

(** *** What [Evict] returns *)

Lemma first_evictable_elem m :
  first_evictable m <> -1 ->
  exists fi, (first_evictable m, fi) ∈ m /\ IsEvictable fi = true.
Proof.
  induction m as [|[f fi] m IH]; simpl; [done|].
  destruct (IsEvictable fi) eqn:He.
  - intros _. exists fi. split; [left|done].
  - intros Hne. destruct (IH Hne) as (fi' & Hin & He'). exists fi'.
    split; [by right|done].
Qed.

Section Scan.

Variable tmax : Z.

Lemma evict_scan_elem m tgt tgt' :
  evict_scan tmax m tgt = Some tgt' ->
  tgt' = tgt \/ exists fi, (tgt'.1, fi) ∈ m /\ IsEvictable fi = true.
Proof.
  revert tgt. induction m as [|[f fi] m IH]; simpl; intros tgt Hs.
  - left. by simplify_eq.
  - destruct (IsEvictable fi) eqn:He; simpl in Hs.
    + destruct (GetAccessInfo tmax fi) as [cur|]; simpl in Hs; [|done].
      destruct (keeps_target cur tgt.2).
      * destruct (IH _ Hs) as [->|(fi' & Hin & He')]; [by left|].
        right. exists fi'. split; [by right|done].
      * destruct (IH _ Hs) as [->|(fi' & Hin & He')].
        -- right. exists fi. split; [left|done].
        -- right. exists fi'. split; [by right|done].
    + destruct (IH _ Hs) as [->|(fi' & Hin & He')]; [by left|].
      right. exists fi'. split; [by right|done].
Qed.

(** [Evict] returns a frame that the map holds with its flag set, erases
    that frame's entry and leaves the other entries alone; with nothing to
    evict the replacer is unchanged. *)
Lemma Evict_Some r f r' :
  NoDup (map_ r).*1 ->
  Evict tmax r = Ok (Some f, r') ->
  evictable r f /\ NoDup (map_ r').*1 /\ map_at (map_ r') f = None /\
  (forall f', f' <> f -> map_at (map_ r') f' = map_at (map_ r) f') /\
  curr_size_ r' = size_t_wrap (curr_size_ r - 1).
Proof.
  intros Hnd. unfold Evict.
  destruct (Z.eqb_spec (first_evictable (map_ r)) (-1)) as [|Hne]; [done|].
  intros He. apply bind_Ok in He as (fi & _ & He).
  apply bind_Ok in He as (info & _ & He).
  apply bind_Ok in He as (tgt & Hs%of_option_Ok & He). simplify_eq. simpl.
  split; [|split; [by apply map_erase_NoDup|split; [by apply map_at_erase_eq|
    split; [intros; by apply map_at_erase_ne|done]]]].
  apply evict_scan_elem in Hs as [->|(fi' & Hin & He')]; simpl.
  - destruct (first_evictable_elem _ Hne) as (fi' & Hin & He').
    exists fi'. split; [by apply elem_map_at|done].
  - exists fi'. split; [by apply elem_map_at|done].
Qed.

Lemma Evict_None r r' : Evict tmax r = Ok (None, r') -> r' = r.
Proof.
  unfold Evict. destruct (Z.eqb_spec (first_evictable (map_ r)) (-1)); [by intros; simplify_eq|].
  intros He. apply bind_Ok in He as (fi & _ & He).
  apply bind_Ok in He as (info & _ & He).
  apply bind_Ok in He as (tgt & _ & He). done.
Qed.

Lemma Evict_no_Throw r e : Evict tmax r <> Throw e.
Proof.
  unfold Evict. destruct (_ =? _); [done|].
  intros [He|(? & _ & He)]%bind_Throw; [by apply of_option_Throw in He|].
  apply bind_Throw in He as [He|(? & _ & He)]; [by apply of_option_Throw in He|].
  apply bind_Throw in He as [He|(? & _ & He)]; [by apply of_option_Throw in He|done].
Qed.

End Scan.

(** *** [RecordAccess], [SetEvictable], [Remove] *)

Lemma RecordAccess_Ok f r r' :
  RecordAccess f r = Ok r' ->
  NoDup (map_ r).*1 ->
  NoDup (map_ r').*1 /\
  (forall f', f' <> f -> map_at (map_ r') f' = map_at (map_ r) f') /\
  (exists fi', map_at (map_ r') f = Some fi' /\
     IsEvictable fi' = match map_at (map_ r) f with
                       | Some fi => IsEvictable fi | None => false end) /\
  current_timestamp_ r' = size_t_wrap (current_timestamp_ r + 1) /\
  curr_size_ r' = curr_size_ r /\ replacer_size_ r' = replacer_size_ r /\
  k_ r' = k_ r.
Proof.
  unfold RecordAccess. destruct (negb _); [done|]. intros Hr Hnd. simplify_eq. simpl.
  rewrite map_update_keys.
  split; [|split; [|split; [|done]]].
  - destruct (map_at (map_ r) f) eqn:Hat; [done|].
    simpl. apply NoDup_cons. split; [by apply map_at_None|done].
  - intros f' Hne. rewrite map_at_update. case_decide; [congruence|].
    destruct (map_at (map_ r) f); [done|]. simpl.
    destruct (Z.eqb_spec f f'); [congruence|done].
  - rewrite map_at_update. case_decide; [|done].
    destruct (map_at (map_ r) f) as [fi|] eqn:Hat.
    + rewrite Hat. simpl. eauto.
    + simpl. rewrite Z.eqb_refl. simpl. eauto.
Qed.

Lemma RecordAccess_no_Throw f r e : RecordAccess f r <> Throw e.
Proof. unfold RecordAccess. by destruct (negb _). Qed.

Lemma SetEvictable_Ok f b r r' :
  SetEvictable f b r = Ok r' ->
  NoDup (map_ r).*1 ->
  NoDup (map_ r').*1 /\
  (forall f', f' <> f -> map_at (map_ r') f' = map_at (map_ r) f') /\
  (exists fi', map_at (map_ r') f = Some fi' /\ IsEvictable fi' = b) /\
  current_timestamp_ r' = current_timestamp_ r.
Proof.
  unfold SetEvictable. destruct (negb _); [done|].
  destruct (map_at (map_ r) f) as [fi|] eqn:Hat; [|done].
  intros Hr Hnd.
  destruct b, (IsEvictable fi) eqn:He; simpl in Hr; simplify_eq; simpl;
    rewrite ?map_update_keys; (split; [done|]);
    (split; [intros f' Hne; rewrite ?map_at_update; try case_decide; congruence|]);
    (split; [|done]); rewrite ?map_at_update, ?decide_True, ?Hat by done; simpl; eauto.
Qed.

Lemma SetEvictable_Throw f b r e :
  SetEvictable f b r = Throw e -> map_at (map_ r) f = None.
Proof.
  unfold SetEvictable. destruct (negb _); [done|].
  destruct (map_at (map_ r) f) as [fi|]; [|done].
  by destruct b, (IsEvictable fi).
Qed.

Lemma Remove_Ok f r r' :
  Remove f r = Ok r' ->
  NoDup (map_ r).*1 ->
  NoDup (map_ r').*1 /\
  (forall f', f' <> f -> map_at (map_ r') f' = map_at (map_ r) f') /\
  map_at (map_ r') f = None.
Proof.
  unfold Remove. destruct (negb _); [done|].
  destruct (map_at (map_ r) f) as [fi|] eqn:Hat.
  - destruct (negb (IsEvictable fi)); [done|]. intros Hr Hnd. simplify_eq. simpl.
    split; [by apply map_erase_NoDup|]. split; [intros; by apply map_at_erase_ne|].
    by apply map_at_erase_eq.
  - intros Hr Hnd. by simplify_eq.
Qed.

Lemma lruk_run_state : lruk_run = Ok (lruk_state lruk_entries).
Proof. reflexivity. Qed.

(** Every iteration order of a three-entry map. *)
Lemma perm3 {A} (a b c : A) (m : list A) :
  m ≡ₚ [a; b; c] ->
  m = [a; b; c] \/ m = [a; c; b] \/ m = [b; a; c] \/
  m = [b; c; a] \/ m = [c; a; b] \/ m = [c; b; a].
Proof.
  intros Hp.
  destruct m as [|x m]; [by apply Permutation_nil_l in Hp|].
  assert (Hx : x ∈ [a; b; c]) by (rewrite <- Hp; left).
  rewrite !elem_of_cons, elem_of_nil in Hx.
  destruct Hx as [->|[->|[->|[]]]].
  - apply Permutation_cons_inv in Hp. symmetry in Hp.
    apply Permutation_length_2_inv in Hp as [->| ->]; auto.
  - assert (Hp' : [a; c] ≡ₚ m).
    { apply (Permutation_cons_inv (a:=b)). rewrite Hp. apply perm_swap. }
    apply Permutation_length_2_inv in Hp' as [->| ->]; auto 10.
  - assert (Hp' : [a; b] ≡ₚ m).
    { apply (Permutation_cons_inv (a:=c)). rewrite Hp.
      change [a; b; c] with ([a; b] ++ [c]). by rewrite (Permutation_app_comm [a; b]). }
    apply Permutation_length_2_inv in Hp' as [->| ->]; auto 10.
Qed.

(** C1.  The replacer reached by the accesses 0,0,1,2,1 (k = 2, frames 0 and
    1 evictable) holds frame 0 with accesses at 0 and 1 and frame 1 with
    accesses at 2 and 4.  At time 5 the backward 2-distance of frame 0 is 5
    and that of frame 1 is 3, so frame 0 has the largest backward k-distance
    (the smallest k-th most recent timestamp) — yet [Evict] returns frame 1,
    whatever the order in which the map is iterated, because
    [GetAccessInfo] measures the k-distance from the frame's newest access
    ([timestamps[k-1] - timestamps[0]]) instead of from the current time. *)
Theorem Evict_not_largest_backward_k_distance (tmax : Z) :
  lruk_run = Ok (lruk_state lruk_entries) /\
  spec_backward_k_distance 5 lruk_frame0 = Some 5 /\
  spec_backward_k_distance 5 lruk_frame1 = Some 3 /\
  forall m, m ≡ₚ lruk_entries ->
    map_at m 0 = Some lruk_frame0 /\ map_at m 1 = Some lruk_frame1 /\
    exists r', Evict tmax (lruk_state m) = Ok (Some 1, r') /\
               map_at (map_ r') 1 = None /\ curr_size_ r' = 1.
Proof.
  split; [reflexivity|]. split; [reflexivity|]. split; [reflexivity|].
  intros m Hm. apply perm3 in Hm.
  destruct Hm as [->|[->|[->|[->|[->| ->]]]]];
    (split; [reflexivity|]; split; [reflexivity|];
     eexists; split; [reflexivity|]; split; reflexivity).
Qed.

End LRUK_Facts.

(** ** Extendible hash table *)

Module EHT_Facts.

Import EHT Outcome_Facts.

Local Open Scope nat_scope.

(** *** Low bits *)

Lemma pow2_pos n : 0 < 2 ^ n.
Proof. induction n; simpl; lia. Qed.

Lemma pow2_le d g : d <= g -> 2 ^ g = 2 ^ d * 2 ^ (g - d).
Proof. intros. rewrite <- Nat.pow_add_r. f_equal. lia. Qed.

Lemma mod_pow2_mod d g x : d <= g -> (x mod 2 ^ g) mod 2 ^ d = x mod 2 ^ d.
Proof.
  intros Hle. rewrite (pow2_le d g Hle), Nat.Div0.mod_mul_r.
  rewrite (Nat.mul_comm (2 ^ d)), Nat.Div0.mod_add. apply Nat.Div0.mod_mod.
Qed.

Lemma mod_pow2_S d x :
  x mod 2 ^ S d = x mod 2 ^ d + (if Nat.testbit x d then 2 ^ d else 0).
Proof.
  rewrite Nat.pow_succ_r', (Nat.mul_comm 2), Nat.Div0.mod_mul_r.
  f_equal. rewrite <- Nat.testbit_spec'. destruct (Nat.testbit x d); simpl; lia.
Qed.

Lemma land_pow2 x d : Nat.land x (2 ^ d) = if Nat.testbit x d then 2 ^ d else 0.
Proof.
  apply Nat.bits_inj. intros m. rewrite Nat.land_spec, Nat.pow2_bits_eqb.
  destruct (Nat.eqb_spec d m) as [->|Hne].
  - destruct (Nat.testbit x m); [by rewrite Nat.pow2_bits_true|by rewrite Nat.bits_0].
  - rewrite andb_false_r. destruct (Nat.testbit x d); [|by rewrite Nat.bits_0].
    rewrite Nat.pow2_bits_eqb. by destruct (Nat.eqb_spec d m).
Qed.

Lemma land_mask x d : Nat.land x (Nat.shiftl 1 d - 1) = x mod 2 ^ d.
Proof.
  rewrite Nat.shiftl_1_l, Nat.sub_1_r, <- Nat.ones_equiv. apply Nat.land_ones.
Qed.

Lemma mod_small_eq a b n : a < n -> b < n -> a mod n = b mod n <-> a = b.
Proof. intros. by rewrite !Nat.mod_small. Qed.

(** *** The reassignment loop *)

Lemma reassign_length n i mask b0 b1 dir :
  length (reassign n i mask b0 b1 dir) = length dir.
Proof.
  revert i dir. induction n as [|n IH]; intros i dir; simpl; [done|].
  destruct (i <? length dir); [|done]. by rewrite IH, length_insert.
Qed.

Lemma reassign_hit n i mask b0 b1 dir j c :
  0 < mask -> length dir <= i + n * mask -> j = i + c * mask -> j < length dir ->
  reassign n i mask b0 b1 dir !! j =
    Some (if Nat.land j mask =? 0 then b0 else b1).
Proof.
  intros Hmask. revert i dir c. induction n as [|n IH]; intros i dir c Hlen -> Hj; simpl.
  - nia.
  - destruct (Nat.ltb_spec i (length dir)) as [Hi|Hi]; [|nia].
    destruct c as [|c].
    + replace (i + 0 * mask) with i by lia.
      assert (Hmiss : forall m i' d, i < i' -> d !! i = Some (if Nat.land i mask =? 0 then b0 else b1) ->
                reassign m i' mask b0 b1 d !! i = Some (if Nat.land i mask =? 0 then b0 else b1)).
      { clear. induction m as [|m IHm]; intros i' d Hlt Hd; simpl; [done|].
        destruct (i' <? length d); [|done]. apply IHm; [lia|].
        rewrite list_lookup_insert_ne by lia. done. }
      apply Hmiss; [lia|]. by apply list_lookup_insert_eq.
    + apply (IH (i + mask) _ c); rewrite ?length_insert; [nia|nia|done].
Qed.

Lemma reassign_miss n i mask b0 b1 dir j :
  0 < mask -> (forall c, j <> i + c * mask) ->
  reassign n i mask b0 b1 dir !! j = dir !! j.
Proof.
  intros Hmask. revert i dir. induction n as [|n IH]; intros i dir Hj; simpl; [done|].
  destruct (i <? length dir); [|done].
  rewrite IH.
  - apply list_lookup_insert_ne. specialize (Hj 0). lia.
  - intros c. specialize (Hj (S c)). lia.
Qed.

Lemma mod_eq_iff_offset j i m : 0 < m -> i < m -> j mod m = i <-> exists c, j = i + c * m.
Proof.
  intros Hm Hi. split.
  - intros <-. exists (j / m). rewrite (Nat.div_mod_eq j m) at 1. lia.
  - intros [c ->]. rewrite Nat.Div0.mod_add. by apply Nat.mod_small.
Qed.

(** The directory after the loop, for the start and mask that
    [InsertInternal] passes. *)
Lemma reassign_lookup dir idx d b0 b1 j :
  j < length dir ->
  reassign (length dir) (Nat.land idx (Nat.shiftl 1 d - 1)) (Nat.shiftl 1 d) b0 b1 dir !! j =
    if decide (j mod 2 ^ d = idx mod 2 ^ d)
    then Some (if Nat.testbit j d then b1 else b0)
    else dir !! j.
Proof.
  intros Hj. rewrite land_mask, Nat.shiftl_1_l.
  pose proof (pow2_pos d) as Hpos.
  assert (idx mod 2 ^ d < 2 ^ d) as Hlt by (apply Nat.mod_upper_bound; lia).
  case_decide as Hc.
  - apply mod_eq_iff_offset in Hc as [c Hc]; [|done..].
    rewrite (reassign_hit _ _ _ _ _ _ _ c); [|done|nia|done|done].
    rewrite land_pow2. destruct (Nat.testbit j d); [|done].
    destruct (Nat.eqb_spec (2 ^ d) 0); [lia|done].
  - apply reassign_miss; [done|]. intros c Hc'. apply Hc.
    apply mod_eq_iff_offset; eauto.
Qed.

Lemma testbit_low j g : j < 2 ^ g -> Nat.testbit j g = false.
Proof.
  intros Hj. pose proof (mod_pow2_S g j) as H.
  rewrite (Nat.mod_small j (2 ^ g)) in H by done.
  rewrite Nat.mod_small in H by (rewrite Nat.pow_succ_r'; lia).
  pose proof (pow2_pos g). destruct (Nat.testbit j g); [lia|done].
Qed.

Lemma testbit_high j g : j < 2 ^ g -> Nat.testbit (j + 2 ^ g) g = true.
Proof.
  intros Hj. pose proof (mod_pow2_S g (j + 2 ^ g)) as H.
  assert ((j + 2 ^ g) mod 2 ^ g = j) as Hm.
  { replace (j + 2 ^ g) with (j + 1 * 2 ^ g) by lia.
    rewrite Nat.Div0.mod_add. by apply Nat.mod_small. }
  rewrite Hm in H.
  rewrite Nat.mod_small in H by (rewrite Nat.pow_succ_r'; lia).
  pose proof (pow2_pos g). destruct (Nat.testbit (j + 2 ^ g) g); [done|lia].
Qed.

Lemma mod_pow2_S_eq d x y :
  x mod 2 ^ S d = y mod 2 ^ S d <->
  x mod 2 ^ d = y mod 2 ^ d /\ Nat.testbit x d = Nat.testbit y d.
Proof.
  rewrite !mod_pow2_S. pose proof (pow2_pos d).
  assert (x mod 2 ^ d < 2 ^ d) by (apply Nat.mod_upper_bound; lia).
  assert (y mod 2 ^ d < 2 ^ d) by (apply Nat.mod_upper_bound; lia).
  destruct (Nat.testbit x d), (Nat.testbit y d); split; intros; try lia;
    try (split; [lia|done]); destruct_and?; try done; lia.
Qed.

Section Facts.

Context {K V : Type} `{EqDecision K} `{EqDecision V}.
Variable hash : K -> N.

Abbreviation Bucket := (EHT.Bucket K V).
Abbreviation Table := (EHT.Table K V).
Abbreviation IndexOf := (EHT.IndexOf hash).
Abbreviation InsertInternal := (EHT.InsertInternal hash).
Abbreviation Insert := (EHT.Insert hash).
Abbreviation Find := (EHT.Find hash).
Abbreviation Remove := (EHT.Remove hash).

(** The hash of a key as a natural number. *)
Definition nhash (k : K) : nat := N.to_nat (hash k).

Lemma IndexOf_mod (t : Table) key : IndexOf t key = nhash key mod 2 ^ global_depth_ t.
Proof.
  unfold EHT.IndexOf, nhash.
  rewrite N.shiftl_1_l, N.sub_1_r, <- N.ones_equiv, N.land_ones.
  rewrite N2Nat.inj_mod, N2Nat.inj_pow, Nat2N.id. done.
Qed.

Lemma IndexOf_lt (t : Table) key : IndexOf t key < 2 ^ global_depth_ t.
Proof. rewrite IndexOf_mod. apply Nat.mod_upper_bound. pose proof (pow2_pos (global_depth_ t)). lia. Qed.

(** *** Items of a bucket *)

Lemma items_find_elem key (l : list (K * V)) v : items_find key l = Some v -> (key, v) ∈ l.
Proof.
  induction l as [|[k v'] l IH]; simpl; [done|].
  case_decide; intros; simplify_eq; [left|right; auto].
Qed.

Lemma items_find_None key (l : list (K * V)) : items_find key l = None <-> key ∉ l.*1.
Proof.
  induction l as [|[k v'] l IH]; csimpl.
  - split; [intros _; apply not_elem_of_nil|done].
  - rewrite not_elem_of_cons. case_decide; naive_solver.
Qed.

Lemma elem_items_find key v (l : list (K * V)) :
  NoDup l.*1 -> (key, v) ∈ l -> items_find key l = Some v.
Proof.
  induction l as [|[k v'] l IH]; csimpl; [by rewrite elem_of_nil|].
  rewrite NoDup_cons, elem_of_cons. intros [Hnin Hnd] [Heq|Hin].
  - simplify_eq. by rewrite decide_True.
  - case_decide as Hk; [|auto]. subst. destruct Hnin.
    by apply (list_elem_of_fmap_2 fst) in Hin.
Qed.

Lemma items_find_is_Some key (l : list (K * V)) : is_Some (items_find key l) <-> key ∈ l.*1.
Proof.
  destruct (items_find key l) eqn:Hf.
  - split; [|eauto]. intros _. apply items_find_elem in Hf.
    by apply (list_elem_of_fmap_2 fst) in Hf.
  - apply items_find_None in Hf. split; [by intros []|done].
Qed.

Lemma items_overwrite_None key value (l : list (K * V)) :
  items_overwrite key value l = None <-> key ∉ l.*1.
Proof.
  induction l as [|[k v'] l IH]; csimpl.
  - split; [intros _; apply not_elem_of_nil|done].
  - rewrite not_elem_of_cons. case_decide; [naive_solver|].
    destruct (items_overwrite key value l); naive_solver.
Qed.

Lemma items_overwrite_Some key value (l l' : list (K * V)) :
  items_overwrite key value l = Some l' ->
  l'.*1 = l.*1 /\ length l' = length l /\ items_find key l' = Some value /\
  (forall k', k' <> key -> items_find k' l' = items_find k' l).
Proof.
  revert l'. induction l as [|[k v'] l IH]; intros l'; csimpl; [done|].
  case_decide as Hk.
  - intros ?; simplify_eq. csimpl. rewrite decide_True by done.
    split; [done|]. split; [done|]. split; [done|].
    intros k' Hne. case_decide; [congruence|done].
  - destruct (items_overwrite key value l) as [l0|]; [|done]. csimpl.
    intros ?; simplify_eq. destruct (IH _ eq_refl) as (Hk1 & Hl & Hf & Ho).
    csimpl. rewrite Hk1, Hl, decide_False by done.
    split; [done|]. split; [done|]. split; [done|].
    intros k' Hne. case_decide; auto.
Qed.

Lemma items_find_app key (l1 l2 : list (K * V)) :
  items_find key (l1 ++ l2) =
  match items_find key l1 with Some v => Some v | None => items_find key l2 end.
Proof.
  induction l1 as [|[k v'] l1 IH]; simpl; [done|]. by case_decide.
Qed.

Lemma items_first_find key (l : list (K * V)) :
  items_first key l = (fun v => (key, v)) <$> items_find key l.
Proof.
  induction l as [|[k v'] l IH]; simpl; [done|]. case_decide; [by subst|done].
Qed.

Lemma items_find_Some key v (l : list (K * V)) :
  NoDup l.*1 -> items_find key l = Some v <-> (key, v) ∈ l.
Proof.
  intros Hnd. split; [apply items_find_elem|by apply elem_items_find].
Qed.

Lemma NoDup_keys_eq key v v' (l : list (K * V)) :
  NoDup l.*1 -> (key, v) ∈ l -> (key, v') ∈ l -> v = v'.
Proof.
  intros Hnd H1 H2. apply elem_items_find in H1, H2; [|done..]. congruence.
Qed.

Lemma items_remove_elem p q (l : list (K * V)) : q ∈ items_remove p l <-> q ∈ l /\ q <> p.
Proof. unfold items_remove. rewrite list_elem_of_filter. naive_solver. Qed.

Lemma items_remove_sub p (l : list (K * V)) : items_remove p l ⊆ l.
Proof. intros x. rewrite items_remove_elem. naive_solver. Qed.

Lemma items_remove_keys p (l : list (K * V)) : (items_remove p l).*1 `sublist_of` l.*1.
Proof. unfold items_remove. apply fmap_sublist, sublist_filter. Qed.

Lemma items_remove_NoDup p (l : list (K * V)) : NoDup l.*1 -> NoDup (items_remove p l).*1.
Proof. intros Hnd. eapply sublist_NoDup; [done|apply items_remove_keys]. Qed.

Lemma items_remove_length p (l : list (K * V)) : length (items_remove p l) <= length l.
Proof. unfold items_remove. apply length_filter. Qed.

Lemma items_remove_find key v (l : list (K * V)) k' :
  NoDup l.*1 -> (key, v) ∈ l ->
  items_find k' (items_remove (key, v) l) =
  if decide (k' = key) then None else items_find k' l.
Proof.
  intros Hnd Hin. apply option_eq. intros v'.
  rewrite items_find_Some, items_remove_elem by by apply items_remove_NoDup.
  case_decide as Hk.
  - subst. split; [|done]. intros [Hin' Hne]. destruct Hne. f_equal.
    by eapply NoDup_keys_eq.
  - rewrite items_find_Some by done. naive_solver.
Qed.

(** *** [Bucket::Insert] and [Bucket::Remove] *)

Lemma Bucket_Insert_None key value (b : Bucket) :
  Bucket_Insert key value b = None <->
  (key ∉ (list_ b).*1) /\ size_ b <= length (list_ b).
Proof.
  unfold Bucket_Insert, IsFull.
  destruct (items_overwrite key value (list_ b)) as [l'|] eqn:Ho.
  - split; [done|]. intros [Hnin _].
    apply (items_overwrite_None key value) in Hnin. congruence.
  - apply items_overwrite_None in Ho.
    destruct (Nat.leb_spec (size_ b) (length (list_ b))); [done|]. split; [done|]. lia.
Qed.

Lemma Bucket_Insert_Some key value (b b' : Bucket) :
  Bucket_Insert key value b = Some b' ->
  NoDup (list_ b).*1 -> length (list_ b) <= size_ b ->
  depth_ b' = depth_ b /\ size_ b' = size_ b /\
  NoDup (list_ b').*1 /\ length (list_ b') <= size_ b' /\
  items_find key (list_ b') = Some value /\
  (forall k', k' <> key -> items_find k' (list_ b') = items_find k' (list_ b)) /\
  (forall k', k' ∈ (list_ b').*1 <-> k' = key \/ k' ∈ (list_ b).*1).
Proof.
  unfold Bucket_Insert, IsFull. intros Hb Hnd Hlen.
  destruct (items_overwrite key value (list_ b)) as [l'|] eqn:Ho.
  - simplify_eq. simpl. apply items_overwrite_Some in Ho as (Hk & Hl & Hf & Hoth).
    rewrite Hk, Hl. do 5 (split; [done|]). split; [done|].
    intros k'. split; [auto|]. intros [->|]; [|done].
    rewrite <- Hk. apply items_find_is_Some. eauto.
  - destruct (Nat.leb_spec (size_ b) (length (list_ b))); [done|]. simplify_eq. simpl.
    apply items_overwrite_None in Ho.
    rewrite fmap_app, length_app. simpl.
    split; [done|]. split; [done|]. split.
    { apply NoDup_app. split; [done|]. split; [|apply NoDup_singleton].
      intros k' Hk' ->%list_elem_of_singleton. done. }
    split; [lia|]. split.
    { rewrite items_find_app. apply items_find_None in Ho. rewrite Ho. simpl.
      by rewrite decide_True. }
    split.
    { intros k' Hne. rewrite items_find_app. destruct (items_find k' (list_ b)); [done|].
      simpl. by rewrite decide_False. }
    intros k'. rewrite elem_of_app, list_elem_of_singleton. naive_solver.
Qed.

Lemma Bucket_Remove_spec key (b : Bucket) :
  NoDup (list_ b).*1 ->
  let '(removed, b') := Bucket_Remove key b in
  removed = bool_decide (is_Some (items_find key (list_ b))) /\
  depth_ b' = depth_ b /\ size_ b' = size_ b /\
  NoDup (list_ b').*1 /\ length (list_ b') <= length (list_ b) /\
  list_ b' ⊆ list_ b /\
  (forall k', items_find k' (list_ b') =
              if decide (k' = key) then None else items_find k' (list_ b)).
Proof.
  intros Hnd. unfold Bucket_Remove. rewrite items_first_find.
  destruct (items_find key (list_ b)) as [v|] eqn:Hf; simpl.
  - split; [done|]. split; [done|]. split; [done|].
    split; [by apply items_remove_NoDup|]. split; [apply items_remove_length|].
    split; [apply items_remove_sub|]. intros k'.
    apply items_remove_find; [done|]. by apply items_find_elem.
  - split; [done|]. split; [done|]. split; [done|]. split; [done|]. split; [done|].
    split; [done|]. intros k'. case_decide; [by subst|done].
Qed.

(** *** Well-formed tables *)

(** Slot [i] holds reference [r] to bucket [b]: the slots that hold [r] are
    those that agree with [i] on the low [depth_ b] bits, and every key of
    [b] hashes to these bits. *)
Definition bucket_ok (t : Table) (i r : nat) (b : Bucket) : Prop :=
  depth_ b <= global_depth_ t /\
  size_ b = bucket_size_ t /\
  length (list_ b) <= size_ b /\
  NoDup (list_ b).*1 /\
  (forall j, j < length (dir_ t) ->
     dir_ t !! j = Some r <-> j mod 2 ^ depth_ b = i mod 2 ^ depth_ b) /\
  (forall k, k ∈ (list_ b).*1 -> nhash k mod 2 ^ depth_ b = i mod 2 ^ depth_ b).

Record wf (t : Table) : Prop := {
  wf_length : length (dir_ t) = 2 ^ global_depth_ t;
  wf_slot : forall i r, dir_ t !! i = Some r ->
            exists b, heap_ t !! r = Some b /\ bucket_ok t i r b
}.

(** The value that the table holds for a key. *)
Definition lookup (t : Table) (k : K) : option V :=
  b ← bucket_at t (IndexOf t k); Bucket_Find k b.

Lemma wf_new bucket_size : wf (Table_new bucket_size).
Proof.
  split; [done|]. intros [|i] r Hi; [|done]. simpl in Hi. simplify_eq.
  eexists. split; [done|]. unfold bucket_ok. simpl.
  split; [done|]. split; [done|]. split; [lia|]. split; [constructor|].
  split; [|by intros k ?%elem_of_nil].
  intros j Hj. assert (j = 0) as -> by lia. done.
Qed.

Lemma wf_index t key :
  wf t -> exists r b, dir_ t !! IndexOf t key = Some r /\ heap_ t !! r = Some b /\
                      bucket_ok t (IndexOf t key) r b.
Proof.
  intros Hwf. pose proof (IndexOf_lt t key) as Hlt.
  rewrite <- (wf_length _ Hwf) in Hlt.
  apply lookup_lt_is_Some in Hlt as [r Hr].
  destruct (wf_slot _ Hwf _ _ Hr) as (b & Hb & Hok). eauto.
Qed.

Lemma Find_lookup t key : wf t -> Find key t = Ok (lookup t key).
Proof.
  intros Hwf. destruct (wf_index t key Hwf) as (r & b & Hr & Hb & _).
  unfold EHT.Find, lookup, bucket_at. rewrite Hr. simpl. rewrite Hb. done.
Qed.

Lemma lookup_bucket t key r b :
  dir_ t !! IndexOf t key = Some r -> heap_ t !! r = Some b ->
  lookup t key = items_find key (list_ b).
Proof. intros Hr Hb. unfold lookup, bucket_at. rewrite Hr. simpl. by rewrite Hb. Qed.

(** A key of a bucket is routed to that bucket. *)
Lemma wf_routed t i r b k :
  wf t -> dir_ t !! i = Some r -> heap_ t !! r = Some b -> k ∈ (list_ b).*1 ->
  dir_ t !! IndexOf t k = Some r.
Proof.
  intros Hwf Hi Hb Hk. destruct (wf_slot _ Hwf _ _ Hi) as (b' & Hb' & Hok).
  simplify_eq. destruct Hok as (Hd & _ & _ & _ & Hdir & Hitems).
  apply Hdir.
  - rewrite (wf_length _ Hwf). apply IndexOf_lt.
  - rewrite IndexOf_mod, mod_pow2_mod by done. by apply Hitems.
Qed.

(** Replacing the items of a bucket by items with the same low bits. *)
Lemma wf_update t i0 r b b' :
  wf t -> dir_ t !! i0 = Some r -> heap_ t !! r = Some b ->
  depth_ b' = depth_ b -> size_ b' = size_ b ->
  length (list_ b') <= size_ b' -> NoDup (list_ b').*1 ->
  (forall k, k ∈ (list_ b').*1 -> nhash k mod 2 ^ depth_ b = i0 mod 2 ^ depth_ b) ->
  wf (set_heap (<[r := b']> (heap_ t)) t).
Proof.
  intros Hwf Hi0 Hb Hd Hs Hlen Hnd Hitems.
  split; [apply (wf_length _ Hwf)|]. simpl. intros i r1 Hi.
  destruct (wf_slot _ Hwf _ _ Hi) as (b1 & Hb1 & Hok).
  destruct (decide (r1 = r)) as [->|Hne].
  - simplify_eq. exists b'. split.
    { apply list_lookup_insert_eq. by eapply lookup_lt_Some. }
    destruct Hok as (Hd1 & Hs1 & _ & _ & Hdir & _).
    unfold bucket_ok. simpl. rewrite Hd, Hs.
    split; [done|]. split; [done|]. split; [by rewrite <- Hs|]. split; [done|].
    split; [done|]. intros k Hk. rewrite (Hitems k Hk).
    apply (proj1 (Hdir i0 (lookup_lt_Some _ _ _ Hi0)) Hi0).
  - exists b1. split; [by rewrite list_lookup_insert_ne|]. done.
Qed.

Lemma lookup_update t r b' k :
  r < length (heap_ t) ->
  lookup (set_heap (<[r := b']> (heap_ t)) t) k =
  if decide (dir_ t !! IndexOf t k = Some r) then items_find k (list_ b')
  else lookup t k.
Proof.
  intros Hr. unfold lookup, bucket_at.
  change (EHT.IndexOf hash (set_heap (<[r:=b']> (heap_ t)) t) k) with (IndexOf t k).
  change (dir_ (set_heap (<[r:=b']> (heap_ t)) t)) with (dir_ t).
  change (heap_ (set_heap (<[r:=b']> (heap_ t)) t)) with (<[r:=b']> (heap_ t)).
  case_decide as Hc.
  - rewrite Hc. simpl. by rewrite list_lookup_insert_eq.
  - destruct (dir_ t !! IndexOf t k) as [r1|]; simpl; [|done].
    rewrite list_lookup_insert_ne; [done|congruence].
Qed.

(** *** [Remove] *)

Lemma Remove_spec t key :
  wf t ->
  exists t', Remove key t = Ok (bool_decide (is_Some (lookup t key)), t') /\
    wf t' /\ dir_ t' = dir_ t /\ global_depth_ t' = global_depth_ t /\
    num_buckets_ t' = num_buckets_ t /\ bucket_size_ t' = bucket_size_ t /\
    forall k', lookup t' k' = if decide (k' = key) then None else lookup t k'.
Proof.
  intros Hwf. destruct (wf_index t key Hwf) as (r & b & Hr & Hb & Hok).
  unfold EHT.Remove. rewrite Hr. simpl. rewrite Hb. simpl.
  destruct Hok as (Hd & Hs & Hlen & Hnd & Hdir & Hitems).
  pose proof (Bucket_Remove_spec key b Hnd) as Hrem.
  destruct (Bucket_Remove key b) as [removed b'].
  destruct Hrem as (-> & Hd' & Hs' & Hnd' & Hlen' & Hsub & Hfind).
  eexists. split.
  { rewrite (lookup_bucket t key r b) by done. done. }
  split.
  { eapply wf_update; eauto; [lia|].
    intros k Hk. apply Hitems.
    apply list_elem_of_fmap in Hk as ([k0 v0] & -> & Hin). apply Hsub in Hin.
    by apply (list_elem_of_fmap_2 fst) in Hin. }
  do 4 (split; [done|]). intros k'.
  rewrite lookup_update by by eapply lookup_lt_Some.
  case_decide as Hc.
  - rewrite Hfind. case_decide; [done|]. symmetry. by eapply lookup_bucket.
  - case_decide; [|done]. subst. congruence.
Qed.

(** *** [InsertInternal] without a split *)

Lemma InsertInternal_direct fuel t key value r b b' :
  wf t -> dir_ t !! IndexOf t key = Some r -> heap_ t !! r = Some b ->
  Bucket_Insert key value b = Some b' ->
  let t' := set_heap (<[r := b']> (heap_ t)) t in
  InsertInternal (S fuel) key value t = Ok t' /\ wf t' /\
  lookup t' key = Some value /\
  forall k', k' <> key -> lookup t' k' = lookup t k'.
Proof.
  intros Hwf Hr Hb Hins. simpl. rewrite Hr. simpl. rewrite Hb. simpl. rewrite Hins.
  split; [done|].
  destruct (wf_slot _ Hwf _ _ Hr) as (b0 & Hb0 & Hok). simplify_eq.
  destruct Hok as (Hd & Hs & Hlen & Hnd & Hdir & Hitems).
  apply Bucket_Insert_Some in Hins as (Hd' & Hs' & Hnd' & Hlen' & Hf & Hoth & Hkeys);
    [|done..].
  split.
  { eapply wf_update; eauto.
    intros k [->|Hk]%Hkeys; [|by apply Hitems].
    rewrite <- (mod_pow2_mod _ _ (nhash key) Hd), <- IndexOf_mod. done. }
  split.
  - rewrite lookup_update by by eapply lookup_lt_Some. by rewrite decide_True.
  - intros k' Hne. rewrite lookup_update by by eapply lookup_lt_Some.
    case_decide as Hc; [|done]. rewrite Hoth by done. symmetry.
    by eapply lookup_bucket.
Qed.

(** *** The split of [InsertInternal] *)

Section Split.

Variables (t : Table) (idx r : nat) (b : Bucket).
Hypothesis Hwf : wf t.
Hypothesis Hidx : dir_ t !! idx = Some r.
Hypothesis Hb : heap_ t !! r = Some b.

Let t1 := split_dir t idx (depth_ b).
Let n := length (heap_ t).

Lemma split_heap :
  heap_ t1 = heap_ t ++ [Bucket_new (bucket_size_ t) (depth_ b + 1);
                          Bucket_new (bucket_size_ t) (depth_ b + 1)].
Proof. unfold t1, split_dir. by destruct (_ <? _). Qed.

Lemma split_fields :
  bucket_size_ t1 = bucket_size_ t /\ num_buckets_ t1 = num_buckets_ t /\
  global_depth_ t1 = global_depth_ t `max` (depth_ b + 1).
Proof.
  destruct (wf_slot _ Hwf _ _ Hidx) as (b0 & Hb0 & Hok). simplify_eq.
  destruct Hok as (Hd & _).
  unfold t1, split_dir. destruct (Nat.ltb_spec (global_depth_ t) (depth_ b + 1)); simpl;
    (split; [done|]; split; [done|]); lia.
Qed.

Lemma split_length : length (dir_ t1) = 2 ^ global_depth_ t1.
Proof.
  unfold t1, split_dir. destruct (_ <? _); simpl.
  - rewrite !length_insert, length_app, (wf_length _ Hwf). lia.
  - rewrite reassign_length. apply (wf_length _ Hwf).
Qed.

Lemma split_depth_le : global_depth_ t <= global_depth_ t1.
Proof. destruct split_fields as (_ & _ & ->). lia. Qed.

(** The slot [j] of the new directory, from the slot that [j] came from. *)
Lemma split_slot j :
  j < 2 ^ global_depth_ t1 ->
  dir_ t1 !! j =
    if decide (dir_ t !! (j mod 2 ^ global_depth_ t) = Some r)
    then Some (if Nat.testbit j (depth_ b) then S n else n)
    else dir_ t !! (j mod 2 ^ global_depth_ t).
Proof.
  destruct (wf_slot _ Hwf _ _ Hidx) as (b0 & Hb0 & Hok). simplify_eq.
  destruct Hok as (Hd & _ & _ & _ & Hdir & _).
  pose proof (wf_length _ Hwf) as Hlen.
  pose proof (lookup_lt_Some _ _ _ Hidx) as Hidx_lt. rewrite Hlen in Hidx_lt.
  pose proof (pow2_pos (global_depth_ t)) as Hpos.
  unfold t1, split_dir.
  destruct (Nat.ltb_spec (global_depth_ t) (depth_ b + 1)) as [Hg|Hg]; simpl; intros Hj.
  - assert (depth_ b = global_depth_ t) as Hdg by lia. rewrite Hdg in *.
    assert (j < 2 * 2 ^ global_depth_ t) as Hj2 by (simpl in Hj; lia). clear Hj.
    assert (forall m, m < 2 ^ global_depth_ t -> dir_ t !! m = Some r <-> m = idx) as Hr.
    { intros m Hm. rewrite Hdir by lia. by rewrite !Nat.mod_small. }
    destruct (Nat.ltb_spec j (2 ^ global_depth_ t)) as [Hlow|Hhigh].
    + rewrite (Nat.mod_small j) by done. rewrite testbit_low by done.
      destruct (decide (j = idx)) as [->|Hne].
      * rewrite decide_True by done.
        rewrite list_lookup_insert_ne by lia.
        apply list_lookup_insert_eq. rewrite length_app. lia.
      * rewrite decide_False by (rewrite Hr; done).
        rewrite !list_lookup_insert_ne by lia. apply lookup_app_l. lia.
    + assert (exists m, j = m + 2 ^ global_depth_ t /\ m < 2 ^ global_depth_ t) as (m & -> & Hm).
      { exists (j - 2 ^ global_depth_ t). lia. }
      assert ((m + 2 ^ global_depth_ t) mod 2 ^ global_depth_ t = m) as ->.
      { replace (m + 2 ^ global_depth_ t) with (m + 1 * 2 ^ global_depth_ t) by lia.
        rewrite Nat.Div0.mod_add. by apply Nat.mod_small. }
      rewrite testbit_high by done.
      destruct (decide (m = idx)) as [->|Hne].
      * rewrite decide_True by done. rewrite Hlen.
        apply list_lookup_insert_eq. rewrite length_insert, length_app. lia.
      * rewrite decide_False by (rewrite Hr; done).
        rewrite !list_lookup_insert_ne by lia.
        rewrite lookup_app_r by lia. f_equal. lia.
  - rewrite (Nat.mod_small j) by done.
    rewrite reassign_lookup by lia.
    case_decide as Hc; case_decide as Hc'; try done.
    + destruct Hc'. apply Hdir; [lia|done].
    + destruct Hc. apply Hdir; [lia|done].
Qed.

(** Where a hash value is routed after the split. *)
Lemma split_route h :
  dir_ t1 !! (h mod 2 ^ global_depth_ t1) =
    if decide (dir_ t !! (h mod 2 ^ global_depth_ t) = Some r)
    then Some (if Nat.testbit h (depth_ b) then S n else n)
    else dir_ t !! (h mod 2 ^ global_depth_ t).
Proof.
  pose proof (pow2_pos (global_depth_ t1)).
  rewrite split_slot by (apply Nat.mod_upper_bound; lia).
  rewrite mod_pow2_mod by apply split_depth_le.
  case_decide; [|done]. f_equal.
  assert (depth_ b < global_depth_ t1) as Hlt.
  { destruct split_fields as (_ & _ & ->). lia. }
  assert (Nat.testbit (h mod 2 ^ global_depth_ t1) (depth_ b) = Nat.testbit h (depth_ b)) as ->; [|done].
  by apply Nat.mod_pow2_bits_low.
Qed.

Lemma split_wf : wf t1.
Proof.
  split; [apply split_length|]. intros j r1 Hj.
  pose proof (lookup_lt_Some _ _ _ Hj) as Hj_lt. rewrite split_length in Hj_lt.
  pose proof (split_depth_le) as Hgle.
  pose proof split_fields as (Hbs & _ & Hg1).
  pose proof (pow2_pos (global_depth_ t)) as Hpos.
  assert (j mod 2 ^ global_depth_ t < length (dir_ t)) as Hjm.
  { rewrite (wf_length _ Hwf). apply Nat.mod_upper_bound. lia. }
  destruct (wf_slot _ Hwf _ _ Hidx) as (b0 & Hb0 & Hok). simplify_eq.
  destruct Hok as (Hd & Hs & _ & _ & Hdir & _).
  assert (Hfresh : forall m r', dir_ t !! m = Some r' -> r' < n).
  { intros m r' Hm. destruct (wf_slot _ Hwf _ _ Hm) as (? & ? & _).
    by eapply lookup_lt_Some. }
  rewrite split_slot in Hj by done. rewrite split_heap.
  case_decide as Hc.
  - (* a slot of the split bucket *)
    exists (Bucket_new (bucket_size_ t) (depth_ b + 1)). split.
    { simplify_eq. rewrite lookup_app_r by (destruct (Nat.testbit j (depth_ b)); unfold n; lia).
      destruct (Nat.testbit j (depth_ b)); [replace (S n - length (heap_ t)) with 1 by (unfold n; lia)|
        replace (n - length (heap_ t)) with 0 by (unfold n; lia)]; done. }
    unfold bucket_ok. simpl. rewrite Hbs, Hg1.
    split; [lia|]. split; [done|]. split; [lia|]. split; [constructor|].
    split; [|by intros k ?%elem_of_nil].
    intros j' Hj'. rewrite split_length in Hj'. rewrite split_slot by done.
    replace (depth_ b + 1) with (S (depth_ b)) by lia. rewrite mod_pow2_S_eq.
    assert (j' mod 2 ^ global_depth_ t < length (dir_ t)) as Hjm'.
    { rewrite (wf_length _ Hwf). apply Nat.mod_upper_bound. lia. }
    apply (Hdir _ Hjm) in Hc. rewrite mod_pow2_mod in Hc by done.
    case_decide as Hc'.
    + apply (Hdir _ Hjm') in Hc'. rewrite mod_pow2_mod in Hc' by done.
      simplify_eq. rewrite Hc, Hc'.
      destruct (Nat.testbit j (depth_ b)), (Nat.testbit j' (depth_ b));
        naive_solver lia.
    + split.
      * intros Hm. apply Hfresh in Hm. simplify_eq.
        destruct (Nat.testbit j (depth_ b)); lia.
      * intros [Hm _]. destruct Hc'. apply Hdir; [done|].
        rewrite mod_pow2_mod by done. congruence.
  - (* a slot of another bucket *)
    destruct (wf_slot _ Hwf _ _ Hj) as (b1 & Hb1 & Hok1).
    exists b1. split; [by apply lookup_app_l_Some|].
    destruct Hok1 as (Hd1 & Hs1 & Hlen1 & Hnd1 & Hdir1 & Hitems1).
    unfold bucket_ok. rewrite Hbs.
    split; [lia|]. split; [done|]. split; [done|]. split; [done|].
    rewrite mod_pow2_mod in Hitems1 by done. split; [|done].
    intros j' Hj'. rewrite split_length in Hj'. rewrite split_slot by done.
    assert (j' mod 2 ^ global_depth_ t < length (dir_ t)) as Hjm'.
    { rewrite (wf_length _ Hwf). apply Nat.mod_upper_bound. lia. }
    rewrite <- (mod_pow2_mod (depth_ b1) (global_depth_ t) j') by done.
    rewrite <- (mod_pow2_mod (depth_ b1) (global_depth_ t) j) by done.
    rewrite <- (Hdir1 _ Hjm').
    case_decide as Hc'; [|done].
    split; [|congruence]. intros Hm. apply Hfresh in Hj. simplify_eq.
    destruct (Nat.testbit j' (depth_ b)); lia.
Qed.

(** The keys that were routed to the split bucket find nothing after the
    split; the other keys find what they found. *)
Lemma split_lookup k :
  lookup t1 k = if decide (dir_ t !! IndexOf t k = Some r) then None else lookup t k.
Proof.
  unfold lookup at 1, bucket_at. rewrite IndexOf_mod, split_route, <- IndexOf_mod.
  rewrite split_heap. case_decide as Hc.
  - simpl. destruct (Nat.testbit (nhash k) (depth_ b)).
    + rewrite lookup_app_r by (unfold n; lia).
      replace (S n - length (heap_ t)) with 1 by (unfold n; lia). done.
    + rewrite lookup_app_r by (unfold n; lia).
      replace (n - length (heap_ t)) with 0 by (unfold n; lia). done.
  - unfold lookup, bucket_at. destruct (dir_ t !! IndexOf t k) as [r'|] eqn:Hr'; [|done].
    simpl. destruct (wf_slot _ Hwf _ _ Hr') as (b' & Hb' & _).
    rewrite (lookup_app_l_Some _ _ _ _ Hb'), Hb'. done.
Qed.

End Split.

(** *** [InsertInternal] in general *)

(** What a returning insert of [key] does to a well-formed table. *)
Definition insert_post (key : K) (value : V) (t t' : Table) : Prop :=
  wf t' /\ lookup t' key = Some value /\
  (forall k', k' <> key -> lookup t' k' = lookup t k') /\
  num_buckets_ t' = num_buckets_ t /\ bucket_size_ t' = bucket_size_ t /\
  global_depth_ t <= global_depth_ t' /\ length (heap_ t) <= length (heap_ t').

Lemma redistribute_post (ins : K -> V -> Table -> res Empty_set Table) :
  (forall k v t t', wf t -> ins k v t = Ok t' -> insert_post k v t t') ->
  forall items t t', NoDup items.*1 -> wf t -> redistribute ins items t = Ok t' ->
    wf t' /\
    (forall k, lookup t' k =
       match items_find k items with Some v => Some v | None => lookup t k end) /\
    num_buckets_ t' = num_buckets_ t /\ bucket_size_ t' = bucket_size_ t /\
    global_depth_ t <= global_depth_ t' /\ length (heap_ t) <= length (heap_ t').
Proof.
  intros Hins items. induction items as [|[k v] items IH]; intros t t' Hnd Hwf Hred.
  - simpl in Hred. simplify_eq. done.
  - simpl in Hred. apply bind_Ok in Hred as (t0 & Hi & Hred).
    apply Hins in Hi as (Hwf0 & Hk & Hoth & Hnb & Hbs & Hg & Hh); [|done].
    csimpl in Hnd. apply NoDup_cons in Hnd as [Hnin Hnd].
    destruct (IH _ _ Hnd Hwf0 Hred) as (Hwf' & Hl & Hnb' & Hbs' & Hg' & Hh').
    split; [done|]. split; [|repeat split; congruence || lia].
    intros k'. rewrite Hl. simpl. case_decide as Hc.
    + subst. apply items_find_None in Hnin. by rewrite Hnin.
    + destruct (items_find k' items); [done|]. apply Hoth. congruence.
Qed.

Lemma InsertInternal_post fuel key value t t' :
  wf t -> InsertInternal fuel key value t = Ok t' -> insert_post key value t t'.
Proof.
  revert key value t t'. induction fuel as [|fuel IH]; intros key value t t' Hwf Hi; [done|].
  destruct (wf_index t key Hwf) as (r & b & Hr & Hb & Hok).
  destruct (Bucket_Insert key value b) as [b'|] eqn:Hins.
  - destruct (InsertInternal_direct fuel t key value r b b' Hwf Hr Hb Hins)
      as (Heq & Hwf' & Hk & Hoth).
    rewrite Heq in Hi. simplify_eq.
    unfold insert_post. simpl. rewrite length_insert.
    split; [done|]. split; [done|]. split; [done|]. repeat split; lia.
  - simpl in Hi. rewrite Hr in Hi. simpl in Hi. rewrite Hb in Hi. simpl in Hi.
    rewrite Hins in Hi.
    apply bind_Ok in Hi as (t2 & Hred & Hi).
    destruct Hok as (Hd & Hs & Hlen & Hnd & Hdir & Hitems).
    pose proof (split_wf t _ r b Hwf Hr Hb) as Hwf1.
    pose proof (split_fields t _ r b Hwf Hr Hb) as (Hbs1 & Hnb1 & Hg1).
    pose proof (split_heap t (EHT.IndexOf hash t key) b) as Hh1.
    apply (redistribute_post _ IH) in Hred
      as (Hwf2 & Hl2 & Hnb2 & Hbs2 & Hg2 & Hh2); [|done..].
    apply IH in Hi as (Hwf' & Hk & Hoth & Hnb' & Hbs' & Hg' & Hh'); [|done].
    unfold GetDepth in *. rewrite Hh1, length_app in Hh2. simpl in Hh2.
    split; [done|]. split; [done|].
    split; [|repeat split; congruence || lia].
    intros k' Hne. rewrite (Hoth _ Hne), Hl2, (split_lookup _ _ _ _ Hwf Hr Hb).
    unfold GetItems. case_decide as Hc.
    + rewrite (lookup_bucket t k' r b) by done.
      by destruct (items_find k' (list_ b)).
    + destruct (items_find k' (list_ b)) as [v'|] eqn:Hf; [|done].
      destruct Hc. eapply wf_routed; eauto.
      apply items_find_is_Some. eauto.
Qed.



(** On a well-formed table [InsertInternal] returns or runs out of fuel. *)
Lemma redistribute_no_Abort (ins : K -> V -> Table -> res Empty_set Table) :
  (forall k v t t', wf t -> ins k v t = Ok t' -> wf t') ->
  (forall k v t, wf t -> ins k v t <> Abort) ->
  forall items t, wf t -> redistribute ins items t <> Abort.
Proof.
  intros Hwf Hab items. induction items as [|[k v] items IH]; intros t Ht; [done|].
  simpl. destruct (ins k v t) as [t0| | |] eqn:Hi; simpl; try done.
  - apply IH. by eapply Hwf.
  - by apply Hab in Hi.
Qed.

Lemma InsertInternal_no_Abort fuel key value (t : Table) :
  wf t -> InsertInternal fuel key value t <> Abort.
Proof.
  revert key value t. induction fuel as [|fuel IH]; intros key value t Hwf; [done|].
  destruct (wf_index t key Hwf) as (r & b & Hr & Hb & Hok).
  simpl. rewrite Hr. simpl. rewrite Hb. simpl.
  destruct (Bucket_Insert key value b) as [b'|] eqn:Hins; [done|].
  pose proof (split_wf t _ r b Hwf Hr Hb) as Hwf1.
  destruct (redistribute _ _ _) as [t2| | |] eqn:Hred; simpl; try done.
  - apply IH. eapply (redistribute_post (InsertInternal fuel)) in Hred as (? & _);
      [done| |by destruct Hok as (_ & _ & _ & ? & _)|done].
    intros. by eapply InsertInternal_post.
  - eapply redistribute_no_Abort in Hred; [done| |by auto|done].
    intros k v t0 t0' Ht0 Hi. by apply InsertInternal_post in Hi as (? & _).
Qed.

(** The split followed by the redistribution is invisible to [lookup]. *)
Lemma split_redistribute fuel t key r b t2 :
  wf t -> dir_ t !! IndexOf t key = Some r -> heap_ t !! r = Some b ->
  redistribute (InsertInternal fuel) (list_ b)
    (split_dir t (IndexOf t key) (depth_ b)) = Ok t2 ->
  wf t2 /\ (forall k, lookup t2 k = lookup t k) /\
  bucket_size_ t2 = bucket_size_ t.
Proof.
  intros Hwf Hr Hb Hred.
  destruct (wf_slot _ Hwf _ _ Hr) as (b0 & Hb0 & Hok). simplify_eq.
  destruct Hok as (Hd & Hs & Hlen & Hnd & Hdir & Hitems).
  pose proof (split_wf t _ r b Hwf Hr Hb) as Hwf1.
  pose proof (split_fields t _ r b Hwf Hr Hb) as (Hbs1 & _).
  apply (redistribute_post (InsertInternal fuel)) in Hred
    as (Hwf2 & Hl2 & _ & Hbs2 & _); [|by intros; eapply InsertInternal_post|done..].
  split; [done|]. split; [|congruence].
  intros k. rewrite Hl2, (split_lookup _ _ _ _ Hwf Hr Hb).
  case_decide as Hc.
  - rewrite (lookup_bucket t k r b) by done. by destruct (items_find k (list_ b)).
  - destruct (items_find k (list_ b)) as [v'|] eqn:Hf; [|done].
    destruct Hc. eapply wf_routed; eauto. apply items_find_is_Some. eauto.
Qed.

(** *** Inserts that do not return *)

Lemma keys_length_le (l1 l2 : list K) :
  NoDup l1 -> (forall k, k ∈ l1 -> k ∈ l2) -> length l1 <= length l2.
Proof. intros Hnd Hsub. by apply submseteq_length, NoDup_submseteq. Qed.

Lemma keys_same (l1 l2 : list K) k :
  NoDup l1 -> (forall k, k ∈ l1 -> k ∈ l2) -> length l2 <= length l1 ->
  k ∈ l2 -> k ∈ l1.
Proof.
  intros Hnd Hsub Hlen Hk.
  assert (l1 ≡ₚ l2) as Hp
    by by apply submseteq_length_Permutation; [apply NoDup_submseteq|].
  by rewrite Hp.
Qed.

(** A full bucket whose keys all have the hash of a new key: every split
    sends them to one bucket again. *)
Lemma InsertInternal_diverges fuel key value (t : Table) r b :
  wf t -> dir_ t !! IndexOf t key = Some r -> heap_ t !! r = Some b ->
  key ∉ (list_ b).*1 -> size_ b <= length (list_ b) ->
  (forall k, k ∈ (list_ b).*1 -> hash k = hash key) ->
  InsertInternal fuel key value t = NoFuel.
Proof.
  revert t r b. induction fuel as [|fuel IH]; intros t r b Hwf Hr Hb Hnin Hfull Hsame;
    [done|].
  simpl. rewrite Hr. simpl. rewrite Hb. simpl.
  rewrite (proj2 (Bucket_Insert_None key value b)) by done.
  destruct (redistribute _ _ _) as [t2| | |] eqn:Hred; simpl; [|done| |done].
  2:{ eapply redistribute_no_Abort in Hred; [done| | |by eapply split_wf].
      - intros k v t0 t0' Ht0 Hi. by apply InsertInternal_post in Hi as (? & _).
      - intros. by apply InsertInternal_no_Abort. }
  apply (split_redistribute _ _ _ r b) in Hred as (Hwf2 & Hl2 & Hbs2); [|done..].
  destruct (wf_slot _ Hwf _ _ Hr) as (b0 & Hb0 & Hok). simplify_eq.
  destruct Hok as (Hd & Hs & Hlen & Hnd & Hdir & Hitems).
  destruct (wf_index t2 key Hwf2) as (r2 & b2 & Hr2 & Hb2 & Hok2).
  destruct Hok2 as (Hd2 & Hs2 & Hlen2 & Hnd2 & Hdir2 & Hitems2).
  assert (forall k, k ∈ (list_ b).*1 -> k ∈ (list_ b2).*1) as Hsub.
  { intros k Hk. apply items_find_is_Some.
    rewrite <- (lookup_bucket t2 k r2 b2); [|rewrite <- Hr2; f_equal|done].
    - rewrite Hl2, (lookup_bucket t k r b); [by apply items_find_is_Some| |done].
      by eapply wf_routed.
    - rewrite !IndexOf_mod. unfold nhash. by rewrite (Hsame k Hk). }
  pose proof (keys_length_le _ _ Hnd Hsub) as Hle. rewrite !length_fmap in Hle.
  eapply (IH t2 r2 b2); try done.
  - apply items_find_None. rewrite <- (lookup_bucket t2 key r2 b2) by done.
    rewrite Hl2, (lookup_bucket t key r b) by done. by apply items_find_None.
  - lia.
  - intros k Hk. apply Hsame. eapply keys_same; [done|done| |done].
    rewrite !length_fmap. lia.
Qed.

(** *** Inserts that return *)


Section Redistribute.

Variables (t : Table) (idx r : nat) (b : Bucket).
Hypothesis Hwf : wf t.
Hypothesis Hidx : dir_ t !! idx = Some r.
Hypothesis Hb : heap_ t !! r = Some b.

Let t1 := split_dir t idx (depth_ b).
Let n := length (heap_ t).






End Redistribute.



(** *** Reachable tables *)

Lemma run_wf fuel o (t t' : Table) : wf t -> run hash fuel o t = Ok t' -> wf t'.
Proof.
  intros Hwf. destruct o as [k v|k|k]; simpl.
  - intros Hi. by apply InsertInternal_post in Hi as (? & _).
  - destruct (Remove_spec t k Hwf) as (t0 & -> & Hwf0 & _). simpl. by intros; simplify_eq.
  - rewrite Find_lookup by done. simpl. by intros; simplify_eq.
Qed.

Lemma reachable_wf bucket_size (t : Table) : reachable hash bucket_size t -> wf t.
Proof. induction 1; [apply wf_new|by eapply run_wf]. Qed.

(** *** Counting the slots of a bucket *)

Lemma filter_ext_in {A} (P Q : A -> Prop) `{!forall x, Decision (P x)}
    `{!forall x, Decision (Q x)} (l : list A) :
  (forall x, x ∈ l -> P x <-> Q x) -> filter P l = filter Q l.
Proof.
  induction l as [|x l IH]; intros HPQ; [done|].
  rewrite !filter_cons. rewrite IH by (intros; apply HPQ; by right).
  destruct (decide (P x)) as [HP|HP], (decide (Q x)) as [HQ|HQ]; try done;
    apply HPQ in HP || apply HPQ in HQ; done || left.
Qed.

Lemma filter_fmap_length {A B} (f : A -> B) (P : B -> Prop)
    `{!forall x, Decision (P x)} (l : list A) :
  length (filter P (f <$> l)) = length (filter (fun x => P (f x)) l).
Proof.
  induction l as [|x l IH]; [done|]. csimpl. rewrite !filter_cons.
  destruct (decide (P (f x))); simpl; by rewrite IH.
Qed.

Lemma count_residue_block a d n :
  d < a -> n <= a ->
  length (filter (fun j => j mod a = d) (seq 0 n)) = if decide (d < n) then 1 else 0.
Proof.
  intros Hd. induction n as [|n IH]; intros Hn; [by case_decide; [lia|]|].
  rewrite seq_S, filter_app, length_app, IH by lia. simpl.
  rewrite filter_cons, filter_nil. rewrite (Nat.mod_small n a) by lia.
  repeat case_decide; simpl; lia.
Qed.

Lemma count_residue a c d :
  d < a -> length (filter (fun j => j mod a = d) (seq 0 (a * c))) = c.
Proof.
  intros Hd. induction c as [|c IH].
  - by rewrite Nat.mul_0_r.
  - replace (a * S c) with (a * c + a) by lia.
    rewrite seq_app, filter_app, length_app, IH. simpl.
    replace (seq (a * c) a) with (Nat.add (a * c) <$> seq 0 a)
      by (rewrite fmap_add_seq; f_equal; lia).
    rewrite filter_fmap_length.
    rewrite (list_filter_iff _ (fun j => j mod a = d)).
    + rewrite count_residue_block by lia. rewrite decide_True by done. lia.
    + intros j. simpl. by rewrite Nat.add_comm, Nat.mul_comm, Nat.Div0.mod_add.
Qed.

(** [j & ((1 << l) - 1)], the low [l] bits of a directory index. *)
Definition low_mask (l j : nat) : nat := Nat.land j (Nat.shiftl 1 l - 1).

(** C6.  In every table reached from a fresh one by inserts, removes and
    finds, the directory has [2^global_depth] slots, every slot references a
    bucket, and for a bucket [b] of local depth [l] referenced by slot [i]
    the slots that reference [b] are exactly those whose low [l] bits equal
    those of [i] (the discriminant of [b]); there are [2^(global_depth - l)]
    of them. *)
Theorem directory_consistency bucket_size (t : Table) :
  reachable hash bucket_size t ->
  length (dir_ t) = 2 ^ global_depth_ t /\
  forall i, i < length (dir_ t) ->
    exists r b, dir_ t !! i = Some r /\ heap_ t !! r = Some b /\
      depth_ b <= global_depth_ t /\
      (forall j, j < length (dir_ t) ->
         dir_ t !! j = Some r <-> low_mask (depth_ b) j = low_mask (depth_ b) i) /\
      length (filter (fun j => dir_ t !! j = Some r) (seq 0 (length (dir_ t))))
        = 2 ^ (global_depth_ t - depth_ b).
Proof.
  intros Hwf%reachable_wf. split; [apply (wf_length _ Hwf)|].
  intros i Hi. apply lookup_lt_is_Some in Hi as [r Hr].
  destruct (wf_slot _ Hwf _ _ Hr) as (b & Hb & Hd & _ & _ & _ & Hdir & _).
  exists r, b. do 3 (split; [done|]). split.
  - intros j Hj. unfold low_mask. rewrite !land_mask. by apply Hdir.
  - rewrite (filter_ext_in _ (fun j => j mod 2 ^ depth_ b = i mod 2 ^ depth_ b)).
    + rewrite (wf_length _ Hwf), (pow2_le _ _ Hd). apply count_residue.
      apply Nat.mod_upper_bound. pose proof (pow2_pos (depth_ b)). lia.
    + intros j Hj%elem_of_seq. apply Hdir. lia.
Qed.

(** *** Find after insert and remove *)

(** A step by a public operation that does not involve [k]. *)
Definition step_other (k : K) (t t' : Table) : Prop :=
  exists fuel o, op_key o <> k /\ run hash fuel o t = Ok t'.

Lemma step_other_lookup k (t t' : Table) :
  wf t -> step_other k t t' -> wf t' /\ lookup t' k = lookup t k.
Proof.
  intros Hwf (fuel & o & Hne & Hrun). split; [by eapply run_wf|].
  destruct o as [k' v'|k'|k']; simpl in *.
  - apply InsertInternal_post in Hrun as (_ & _ & Hoth & _); [|done].
    apply Hoth. congruence.
  - destruct (Remove_spec t k' Hwf) as (t0 & Heq & _ & _ & _ & _ & _ & Hl).
    rewrite Heq in Hrun. simpl in Hrun. simplify_eq.
    rewrite Hl. case_decide; [congruence|done].
  - rewrite Find_lookup in Hrun by done. simpl in Hrun. by simplify_eq.
Qed.

Lemma steps_other_lookup k (t t' : Table) :
  wf t -> rtc (step_other k) t t' -> wf t' /\ lookup t' k = lookup t k.
Proof.
  intros Hwf Hrtc. induction Hrtc as [|t t0 t' Hstep _ IH]; [done|].
  destruct (step_other_lookup k t t0 Hwf Hstep) as [Hwf0 <-]. by apply IH.
Qed.

(** C7.  In a reachable table: a value inserted for [k] is what [Find]
    returns after any number of operations on other keys; an insert for a
    key that is present returns without a split (the directory and the set
    of buckets are unchanged), whether or not the bucket is full; after
    [Remove] the key is not found, and [Remove] returns [true] exactly when
    the key was present. *)
Theorem find_insert_remove bucket_size (t : Table) k :
  reachable hash bucket_size t ->
  (forall fuel v t1 t2,
     Insert fuel k v t = Ok t1 -> rtc (step_other k) t1 t2 ->
     Find k t2 = Ok (Some v)) /\
  (forall v0 v fuel,
     Find k t = Ok (Some v0) ->
     exists t1, Insert (S fuel) k v t = Ok t1 /\ Find k t1 = Ok (Some v) /\
       dir_ t1 = dir_ t /\ global_depth_ t1 = global_depth_ t /\
       length (heap_ t1) = length (heap_ t)) /\
  (exists removed t',
     Remove k t = Ok (removed, t') /\ Find k t' = Ok None /\
     (removed = true <-> exists v, Find k t = Ok (Some v))).
Proof.
  intros Hwf%reachable_wf. split; [|split].
  - intros fuel v t1 t2 Hi Hsteps.
    apply InsertInternal_post in Hi as (Hwf1 & Hk & _); [|done].
    destruct (steps_other_lookup k t1 t2 Hwf1 Hsteps) as [Hwf2 Hl].
    rewrite Find_lookup by done. congruence.
  - intros v0 v fuel Hf. rewrite Find_lookup in Hf by done. injection Hf as Hf.
    destruct (wf_index t k Hwf) as (r & b & Hr & Hb & Hok).
    rewrite (lookup_bucket t k r b Hr Hb) in Hf.
    destruct (Bucket_Insert k v b) as [b'|] eqn:Hins.
    + destruct (InsertInternal_direct fuel t k v r b b' Hwf Hr Hb Hins)
        as (Heq & Hwf' & Hk & _).
      eexists. split; [exact Heq|]. rewrite Find_lookup by done.
      split; [congruence|]. simpl. by rewrite length_insert.
    + apply Bucket_Insert_None in Hins as [Hnin _].
      apply items_find_None in Hnin. congruence.
  - destruct (Remove_spec t k Hwf) as (t' & Heq & Hwf' & _ & _ & _ & _ & Hl).
    do 2 eexists. split; [exact Heq|]. rewrite !Find_lookup by done.
    rewrite Hl, decide_True by done. split; [done|].
    rewrite bool_decide_eq_true. split.
    + intros [v Hv]. exists v. congruence.
    + intros [v Hv]. simplify_eq. eauto.
Qed.

(** *** The bucket count *)

Lemma GetNumBuckets_reachable bucket_size (t : Table) :
  reachable hash bucket_size t -> GetNumBuckets t = 1.
Proof.
  induction 1 as [|t t' fuel o Hreach IH Hrun]; [done|].
  pose proof (reachable_wf _ _ Hreach) as Hwf.
  unfold GetNumBuckets in *. destruct o as [k v|k|k]; simpl in Hrun.
  - apply InsertInternal_post in Hrun as (_ & _ & _ & Hnb & _); [|done]. congruence.
  - destruct (Remove_spec t k Hwf) as (t0 & Heq & _ & _ & _ & Hnb & _).
    rewrite Heq in Hrun. simpl in Hrun. simplify_eq. congruence.
  - rewrite Find_lookup in Hrun by done. simpl in Hrun. by simplify_eq.
Qed.

(** *** Termination of [Insert] *)




End Facts.

Import Runs.

(** C9.  A table with buckets of two entries holds the keys 0 and 1 in its
    one bucket.  The insert of key 2 splits that bucket: two buckets are
    allocated, the directory grows to two slots that reference them — and
    [GetNumBuckets] returns 1 as before, because no code path changes
    [num_buckets_]. *)
Theorem GetNumBuckets_ignores_split :
  table_inserts [(0, 10); (1, 11)]%Z (Table_new 2) = Ok table2 /\
  GetNumBuckets table2 = 1 /\
  exists t3,
    Insert page_hash 64 2%Z 12%Z table2 = Ok t3 /\
    length (heap_ t3) = length (heap_ table2) + 2 /\
    global_depth_ t3 = 1 /\ dir_ t3 = [1; 2] /\
    GetNumBuckets t3 = 1.
Proof.
  split; [reflexivity|]. split; [reflexivity|].
  eexists. split; [vm_compute; reflexivity|]. by vm_compute.
Qed.

Lemma table2_reachable : reachable page_hash 2 table2.
Proof.
  pose proof (reachable_new page_hash (V:=Z) 2) as H.
  eapply reachable_step with (fuel := 64) (o := insert 0%Z 10%Z) in H;
    [|vm_compute; reflexivity].
  eapply reachable_step with (fuel := 64) (o := insert 1%Z 11%Z) in H;
    [|vm_compute; reflexivity].
  exact H.
Qed.



(** The table [table2] (keys 0 and 1 in one full bucket) exercises C6, C7
    and C8. *)
Lemma directory_consistency_witness :
  reachable page_hash 2 table2 /\
  length (dir_ table2) = 2 ^ global_depth_ table2 /\
  forall i, i < length (dir_ table2) ->
    exists r b, dir_ table2 !! i = Some r /\ heap_ table2 !! r = Some b /\
      depth_ b <= global_depth_ table2 /\
      (forall j, j < length (dir_ table2) ->
         dir_ table2 !! j = Some r <-> low_mask (depth_ b) j = low_mask (depth_ b) i) /\
      length (filter (fun j => dir_ table2 !! j = Some r)
                (seq 0 (length (dir_ table2))))
        = 2 ^ (global_depth_ table2 - depth_ b).
Proof.
  split; [exact table2_reachable|].
  exact (directory_consistency page_hash 2 table2 table2_reachable).
Defined.

Lemma find_insert_remove_witness :
  reachable page_hash 2 table2 /\
  (exists t1, Insert page_hash 64 2%Z 12%Z table2 = Ok t1 /\
              Find page_hash 2%Z t1 = Ok (Some 12%Z)) /\
  (exists t1, Insert page_hash 1 1%Z 21%Z table2 = Ok t1 /\
              Find page_hash 1%Z t1 = Ok (Some 21%Z) /\ dir_ t1 = dir_ table2) /\
  (exists removed t', Remove page_hash 1%Z table2 = Ok (removed, t') /\
     Find page_hash 1%Z t' = Ok None /\
     (removed = true <-> exists v, Find page_hash 1%Z table2 = Ok (Some v))).
Proof.
  split; [exact table2_reachable|].
  destruct (find_insert_remove page_hash 2 table2 2%Z table2_reachable) as (H1 & _ & _).
  destruct (find_insert_remove page_hash 2 table2 1%Z table2_reachable) as (_ & H2 & H3).
  split; [|split; [|exact H3]].
  - eexists. split; [vm_compute; reflexivity|].
    eapply (H1 64); [vm_compute; reflexivity|apply rtc_refl].
  - assert (Find page_hash 1%Z table2 = Ok (Some 11%Z)) as Hf0 by (vm_compute; reflexivity).
    destruct (H2 11%Z 21%Z 0 Hf0) as (t1 & Hi & Hf & Hd & _). eauto.
Defined.



End EHT_Facts.

(** ** Buffer pool manager *)

Module BPM_Facts.

Import LRUK BPM Runs Outcome_Facts LRUK_Facts EHT_Facts.

(** [vec_at] after [vec_set]. *)
Lemma vec_at_set_eq {A} (v : list A) i x y :
  vec_at v i = Some y -> vec_at (vec_set v i x) i = Some x.
Proof.
  unfold vec_at, vec_set. rewrite length_insert.
  destruct (_ && _) eqn:Hr; [|done]. intros _.
  apply list_lookup_insert_eq. lia.
Qed.

Lemma vec_at_set_ne {A} (v : list A) i j x y :
  vec_at v i = Some y -> i <> j -> vec_at (vec_set v i x) j = vec_at v j.
Proof.
  unfold vec_at, vec_set. rewrite length_insert.
  destruct ((0 <=? i) && _) eqn:Hr; [|done]. intros _ Hne.
  destruct ((0 <=? j) && _) eqn:Hr'; [|done].
  apply list_lookup_insert_ne. lia.
Qed.

Lemma vec_at_set_length {A} (v : list A) i x : length (vec_set v i x) = length v.
Proof. apply length_insert. Qed.

Section Pool.

Variable INVALID_PAGE_ID : Z.
Variable BUSTUB_PAGE_SIZE : nat.
Variable bucket_size_ : nat.
Variable BUSTUB_TIMESTAMP_MAX : Z.
Variable hash : Z -> N.

Abbreviation State := BufferPoolManagerInstance.
Abbreviation NewPgImp := (NewPgImp BUSTUB_PAGE_SIZE BUSTUB_TIMESTAMP_MAX hash).
Abbreviation FetchPgImp := (FetchPgImp BUSTUB_PAGE_SIZE BUSTUB_TIMESTAMP_MAX hash).
Abbreviation UnpinPgImp := (UnpinPgImp hash).
Abbreviation FlushPgImp := (FlushPgImp hash).
Abbreviation FlushAllPgsImp := (FlushAllPgsImp hash).
Abbreviation DeletePgImp := (DeletePgImp INVALID_PAGE_ID BUSTUB_PAGE_SIZE hash).
Abbreviation take_frame := (take_frame BUSTUB_TIMESTAMP_MAX).
Abbreviation run := (run INVALID_PAGE_ID BUSTUB_PAGE_SIZE BUSTUB_TIMESTAMP_MAX hash).
Abbreviation reachable :=
  (reachable INVALID_PAGE_ID BUSTUB_PAGE_SIZE bucket_size_ BUSTUB_TIMESTAMP_MAX hash).

(** *** A weakest precondition for pool operations

    [wp c Q QE]: if [c] returns [a] then [Q a]; if an exception leaves [c]
    with the pool in state [s] then [QE s]. *)
Definition wp {A} (c : M A) (Q : A -> Prop) (QE : State -> Prop) : Prop :=
  match c with
  | Ok a => Q a
  | Throw s => QE s
  | Abort | NoFuel => True
  end.

Lemma wp_bind {A B} (c : M A) (k : A -> M B) Q QE :
  wp c (fun a => wp (k a) Q QE) QE -> wp (res_bind c k) Q QE.
Proof. by destruct c. Qed.

Lemma wp_wand {A} (c : M A) (Q Q' : A -> Prop) (QE QE' : State -> Prop) :
  wp c Q QE -> (forall a, Q a -> Q' a) -> (forall s, QE s -> QE' s) -> wp c Q' QE'.
Proof. destruct c; simpl; auto. Qed.

Lemma wp_of_option {A} (o : option A) Q QE :
  (forall a, o = Some a -> Q a) -> wp (of_option o) Q QE.
Proof. destruct o; simpl; auto. Qed.

Lemma wp_lift_table {A} (c : res Empty_set A) Q QE :
  (forall a, c = Ok a -> Q a) -> wp (lift_table c) Q QE.
Proof. destruct c as [| []| |]; simpl; auto. Qed.

Lemma wp_lift_replacer {A} s (c : res string A) Q (QE : State -> Prop) :
  (forall a, c = Ok a -> Q a) -> (forall e, c = Throw e -> QE s) ->
  wp (lift_replacer s c) Q QE.
Proof. destruct c; simpl; eauto. Qed.

(** The steps that touch neither the frames nor the replacer. *)
Lemma wp_write_back t s Q QE :
  (forall s', pages_ s' = pages_ s -> replacer_ s' = replacer_ s -> Q s') ->
  wp (write_back t s) Q QE.
Proof.
  intros HQ. unfold write_back. apply wp_bind, wp_of_option. intros pg _. simpl.
  destruct (IsDirty pg); by apply HQ.
Qed.

Lemma wp_table_remove p s Q QE :
  (forall s', pages_ s' = pages_ s -> replacer_ s' = replacer_ s -> Q s') ->
  wp (table_remove hash p s) Q QE.
Proof.
  intros HQ. unfold table_remove. apply wp_bind, wp_lift_table. intros [b pt] _.
  simpl. by apply HQ.
Qed.

Lemma wp_table_insert fuel p f s Q QE :
  (forall s', pages_ s' = pages_ s -> replacer_ s' = replacer_ s -> Q s') ->
  wp (table_insert hash fuel p f s) Q QE.
Proof.
  intros HQ. unfold table_insert. apply wp_bind, wp_lift_table. intros pt _.
  simpl. by apply HQ.
Qed.

Lemma wp_upd_page t g s Q QE :
  (forall pg, vec_at (pages_ s) t = Some pg ->
     Q (set_pages (vec_set (pages_ s) t (g pg)) s)) ->
  wp (upd_page t g s) Q QE.
Proof.
  intros HQ. unfold upd_page. apply wp_bind, wp_of_option. intros pg Hpg.
  simpl. by apply HQ.
Qed.

Lemma wp_replacer_call c s Q (QE : State -> Prop) :
  (forall r, c (replacer_ s) = Ok r -> Q (set_replacer r s)) ->
  (forall e, c (replacer_ s) = Throw e -> QE s) ->
  wp (replacer_call c s) Q QE.
Proof.
  intros HQ HE. unfold replacer_call. apply wp_bind, wp_lift_replacer; [|done].
  intros r Hr. simpl. by apply HQ.
Qed.

(** *** Pin safety as an invariant *)

(** Frame [f] is safe when the replacer does not report it evictable while
    its pin count is not zero. *)
Definition safe_at (pages : list Page) (r : LRUKReplacer) (f : Z) : Prop :=
  forall fi pg, map_at (map_ r) f = Some fi -> IsEvictable fi = true ->
                vec_at pages f = Some pg -> pin_count_ pg = 0.

Definition pin_safe (s : State) : Prop :=
  NoDup (map_ (replacer_ s)).*1 /\
  forall f, safe_at (pages_ s) (replacer_ s) f.

(** Safety of every frame but [t], which is being reassigned. *)
Definition pin_safe_but (t : Z) (pages : list Page) (r : LRUKReplacer) : Prop :=
  NoDup (map_ r).*1 /\ forall f, f <> t -> safe_at pages r f.

Lemma pin_safe_weaken t s : pin_safe s -> pin_safe_but t (pages_ s) (replacer_ s).
Proof. intros [? Hs]. split; [done|]. intros f _. apply Hs. Qed.

Lemma pin_safe_but_set t pages r pg0 pg :
  pin_safe_but t pages r -> vec_at pages t = Some pg0 ->
  pin_safe_but t (vec_set pages t pg) r.
Proof.
  intros [Hnd Hs] Hat. split; [done|]. intros f Hne fi pg' Hm He Hv.
  rewrite (vec_at_set_ne _ _ _ _ _ Hat) in Hv by done. by eapply Hs.
Qed.

Lemma pin_safe_set_same_pin t s pg0 pg :
  pin_safe s -> vec_at (pages_ s) t = Some pg0 -> pin_count_ pg = pin_count_ pg0 ->
  pin_safe (set_pages (vec_set (pages_ s) t pg) s).
Proof.
  intros [Hnd Hs] Hat Hpin. split; [done|]. intros f fi pg' Hm He Hv. simpl in *.
  destruct (decide (t = f)) as [->|Hne].
  - rewrite (vec_at_set_eq _ _ _ _ Hat) in Hv. simplify_eq. rewrite Hpin.
    by eapply Hs.
  - rewrite (vec_at_set_ne _ _ _ _ _ Hat) in Hv by done. by eapply Hs.
Qed.

Lemma pin_safe_but_close t pages r :
  pin_safe_but t pages r ->
  (forall fi, map_at (map_ r) t = Some fi -> IsEvictable fi = false) ->
  NoDup (map_ r).*1 /\ forall f, safe_at pages r f.
Proof.
  intros [Hnd Hs] Ht. split; [done|]. intros f.
  destruct (decide (f = t)) as [->|Hne]; [|by apply Hs].
  intros fi pg Hm He _. rewrite (Ht _ Hm) in He. done.
Qed.

(** [but t s]: every frame of [s] other than [t] is safe. *)
Definition but (t : Z) (s : State) : Prop :=
  pin_safe_but t (pages_ s) (replacer_ s).

Lemma wp_take_frame s Q QE :
  pin_safe s ->
  (forall s', pin_safe s' -> Q (None, s')) ->
  (forall t s', but t s' -> Q (Some t, s')) ->
  wp (take_frame s) Q QE.
Proof.
  intros Hs HN HS. unfold BPM.take_frame.
  destruct (free_list_ s) as [|t rest].
  - apply wp_bind, wp_lift_replacer.
    + intros [[t|] r] He; simpl.
      * apply HS. destruct Hs as [Hnd Hs].
        apply Evict_Some in He as (_ & Hnd' & _ & Hoth & _); [|done].
        split; [done|]. intros f Hne fi pg Hm. simpl in *.
        rewrite Hoth in Hm by done. by apply Hs.
      * apply Evict_None in He as ->. apply HN. by destruct s.
    + intros e He. by apply Evict_no_Throw in He.
  - simpl. apply HS. by apply pin_safe_weaken.
Qed.

Ltac frame_step H :=
  first [apply wp_write_back | apply wp_table_remove | apply wp_table_insert];
  let s' := fresh "s" in
  let Hp := fresh in
  let Hr := fresh in
  intros s' Hp Hr; unfold but, pin_safe in H; rewrite <- Hp, <- Hr in H; clear Hp Hr.

Lemma wp_upd_page_but t g s Q QE :
  but t s -> (forall s', but t s' -> Q s') -> wp (upd_page t g s) Q QE.
Proof.
  intros Hs HQ. apply wp_upd_page. intros pg Hpg. apply HQ.
  unfold but. simpl. by eapply pin_safe_but_set.
Qed.

Lemma wp_upd_page_same_pin t g s Q QE :
  (forall pg, pin_count_ (g pg) = pin_count_ pg) ->
  pin_safe s -> (forall s', pin_safe s' -> Q s') -> wp (upd_page t g s) Q QE.
Proof.
  intros Hg Hs HQ. apply wp_upd_page. intros pg Hpg. apply HQ.
  by eapply pin_safe_set_same_pin.
Qed.

(** Recording an access and clearing the flag ends a reassignment. *)
Lemma wp_pin_frame {A} t s (k : State -> M A) Q QE :
  but t s -> (forall s', pin_safe s' -> wp (k s') Q QE) ->
  wp (do s <- replacer_call (RecordAccess t) s;
      do s <- replacer_call (SetEvictable t false) s; k s) Q QE.
Proof.
  intros [Hnd Hs] HQ. apply wp_bind, wp_replacer_call.
  - intros r1 Hr1. apply RecordAccess_Ok in Hr1 as (Hnd1 & Hoth1 & (fi1 & Hat1 & _) & _); [|done].
    apply wp_bind, wp_replacer_call; simpl.
    + intros r2 Hr2. apply SetEvictable_Ok in Hr2 as (Hnd2 & Hoth2 & (fi2 & Hat2 & He2) & _); [|done].
      apply HQ. apply pin_safe_but_close with t; simpl.
      * split; [done|]. intros f Hne fi pg Hm. rewrite Hoth2, Hoth1 in Hm by done.
        by apply Hs.
      * intros fi Hm. congruence.
    + intros e He. apply SetEvictable_Throw in He. congruence.
  - intros e He. by apply RecordAccess_no_Throw in He.
Qed.

(** Recording an access alone keeps every frame safe. *)
Lemma wp_record_access t s Q QE :
  pin_safe s -> (forall s', pin_safe s' -> Q s') ->
  wp (replacer_call (RecordAccess t) s) Q QE.
Proof.
  intros [Hnd Hs] HQ. apply wp_replacer_call.
  - intros r1 Hr1. apply HQ.
    apply RecordAccess_Ok in Hr1 as (Hnd1 & Hoth1 & (fi1 & Hat1 & He1) & _); [|done].
    split; [done|]. intros f fi pg Hm He Hv. simpl in *.
    destruct (decide (f = t)) as [->|Hne].
    + rewrite Hat1 in Hm. simplify_eq. rewrite He in He1.
      destruct (map_at (map_ (replacer_ s)) t) as [fi0|] eqn:Hm0; [|done].
      by eapply Hs.
    + rewrite Hoth1 in Hm by done. by eapply Hs.
  - intros e He. by apply RecordAccess_no_Throw in He.
Qed.

Lemma NewPgImp_pin_safe fuel s :
  pin_safe s -> wp (NewPgImp fuel s) (fun x => pin_safe x.2) pin_safe.
Proof.
  intros Hs. unfold BPM.NewPgImp.
  apply wp_bind, wp_take_frame; [done|..].
  - intros s' Hs'. done.
  - intros t s1 H1.
    apply wp_bind. frame_step H1.
    apply wp_bind, wp_of_option. intros pg _.
    apply wp_bind. frame_step H1.
    apply wp_bind, wp_upd_page_but; [done|]. clear H1. intros s4 H1.
    unfold AllocatePage.
    apply wp_bind, wp_upd_page_but; [done|]. clear H1. intros s5 H1.
    apply wp_bind, wp_upd_page_but; [done|]. clear H1. intros s6 H1.
    apply wp_pin_frame; [done|]. clear H1. intros s7 H1.
    apply wp_bind, wp_of_option. intros pg' _.
    apply wp_bind. frame_step H1.
    apply wp_bind, wp_of_option. intros pg'' _. done.
Qed.

Lemma FetchPgImp_pin_safe fuel p s :
  pin_safe s -> wp (FetchPgImp fuel p s) (fun x => pin_safe x.2) pin_safe.
Proof.
  intros Hs. unfold BPM.FetchPgImp.
  apply wp_bind, wp_lift_table. intros [t|] _.
  - apply wp_bind, wp_record_access; [done|]. by intros s' Hs'.
  - apply wp_bind, wp_take_frame; [done|..].
    + intros s' Hs'. done.
    + intros t s1 H1.
      apply wp_bind. frame_step H1.
      apply wp_bind, wp_of_option. intros pg _.
      apply wp_bind. frame_step H1.
      apply wp_bind, wp_upd_page_but; [done|]. clear H1. intros s4 H1.
      apply wp_bind, wp_upd_page_but; [done|]. clear H1. intros s5 H1.
      apply wp_bind, wp_upd_page_but; [done|]. clear H1. intros s6 H1.
      apply wp_bind, wp_of_option. intros pg' _.
      apply wp_bind. frame_step H1.
      apply wp_bind, wp_upd_page_but; [done|]. clear H1. intros s8 H1.
      apply wp_pin_frame; [done|]. clear H1. intros s9 H1. done.
Qed.

Lemma UnpinPgImp_pin_safe p d s :
  pin_safe s -> wp (UnpinPgImp p d s) (fun x => pin_safe x.2) pin_safe.
Proof.
  intros Hs. unfold BPM.UnpinPgImp.
  apply wp_bind, wp_lift_table. intros [t|] _; [|done].
  apply wp_bind, wp_of_option. intros pg Hpg.
  unfold GetPinCount. destruct (Z.eqb_spec (pin_count_ pg) 0) as [|Hpin]; [done|].
  apply wp_bind, wp_upd_page. intros pg0 Hpg0. simplify_eq.
  apply wp_bind, wp_of_option. intros pg1. simpl.
  rewrite (vec_at_set_eq _ _ _ _ Hpg). intros ?; simplify_eq. simpl.
  set (s1 := set_pages _ s).
  assert (pin_safe s1) as Hs1.
  { destruct Hs as [Hnd Hs]. split; [done|]. intros f fi pg' Hm He Hv. simpl in *.
    destruct (decide (t = f)) as [->|Hne].
    - specialize (Hs f fi pg Hm He Hpg). done.
    - rewrite (vec_at_set_ne _ _ _ _ _ Hpg) in Hv by done. by eapply Hs. }
  apply wp_bind.
  apply wp_wand with (Q := pin_safe) (QE := pin_safe).
  - destruct (Z.eqb_spec (pin_count_ pg - 1) 0) as [Hz|]; [|done].
    apply wp_replacer_call; [|done].
    intros r Hr. destruct Hs1 as [Hnd1 Hs1].
    apply SetEvictable_Ok in Hr as (Hnd2 & Hoth2 & _ & _); [|done].
    split; [done|]. intros f fi pg' Hm He Hv. simpl in *.
    destruct (decide (t = f)) as [->|Hne].
    + rewrite (vec_at_set_eq _ _ _ _ Hpg) in Hv. by simplify_eq.
    + rewrite Hoth2 in Hm by done. by eapply (Hs1 f).
  - intros s2 Hs2. apply wp_bind, wp_upd_page_same_pin; [done|done|].
    by intros s3 Hs3.
  - done.
Qed.

Lemma FlushPgImp_pin_safe p s :
  pin_safe s -> wp (FlushPgImp p s) (fun x => pin_safe x.2) pin_safe.
Proof.
  intros Hs. unfold BPM.FlushPgImp.
  apply wp_bind, wp_lift_table. intros [t|] _; [|done].
  apply wp_bind, wp_of_option. intros pg Hpg.
  apply wp_bind, wp_upd_page_same_pin; [done|done|]. intros s1 Hs1.
  apply wp_bind, wp_record_access; [done|]. by intros s2 Hs2.
Qed.

Lemma flush_from_pin_safe n i s :
  pin_safe s -> wp (flush_from hash n i s) pin_safe pin_safe.
Proof.
  revert i s. induction n as [|n IH]; intros i s Hs; simpl; [done|].
  apply wp_bind, wp_of_option. intros pg _.
  apply wp_bind. eapply wp_wand; [by apply FlushPgImp_pin_safe| |done].
  intros [b s'] Hs'. by apply IH.
Qed.

Lemma DeletePgImp_pin_safe p s :
  pin_safe s -> wp (DeletePgImp p s) (fun x => pin_safe x.2) pin_safe.
Proof.
  intros Hs. unfold BPM.DeletePgImp.
  apply wp_bind, wp_lift_table. intros [t|] _; [|done].
  apply wp_bind, wp_of_option. intros pg Hpg.
  destruct (0 <? GetPinCount pg); [done|].
  apply wp_bind.
  apply wp_table_remove. intros s1 Hp1 Hr1.
  assert (pin_safe s1) as Hs1 by (unfold pin_safe; by rewrite Hp1, Hr1).
  clear Hp1 Hr1.
  apply wp_bind, wp_replacer_call; [|done].
  intros r Hr. destruct (Hs1) as [Hnd1 Hsafe1].
  apply Remove_Ok in Hr as (Hnd2 & Hoth2 & Hat2); [|done].
  assert (but t (set_replacer r s1)) as H1.
  { split; [done|]. intros f Hne fi pg' Hm. simpl in *.
    rewrite Hoth2 in Hm by done. by apply Hsafe1. }
  apply wp_bind, wp_upd_page_but; [done|]. clear H1. intros s4 H1.
  apply wp_bind, wp_upd_page_but; [done|]. clear H1. intros s5 H1.
  apply wp_bind, wp_upd_page. intros pg5 Hpg5.
  apply wp_bind, wp_upd_page. intros pg6 Hpg6. simpl in *.
  rewrite (vec_at_set_eq _ _ _ _ Hpg5) in Hpg6. simplify_eq.
  destruct H1 as [Hnd5 H5]. split; [done|]. intros f fi pg' Hm He Hv. simpl in *.
  destruct (decide (t = f)) as [->|Hne].
  - erewrite vec_at_set_eq in Hv; [by simplify_eq|].
    by erewrite vec_at_set_eq.
  - erewrite !vec_at_set_ne in Hv; [by eapply H5|done..|by erewrite vec_at_set_eq|done].
Qed.

Lemma run_pin_safe fuel o s : pin_safe s -> wp (run fuel o s) pin_safe pin_safe.
Proof.
  intros Hs. destruct o; simpl.
  - apply wp_bind. eapply wp_wand; [by apply NewPgImp_pin_safe|by intros []|done].
  - apply wp_bind. eapply wp_wand; [by apply FetchPgImp_pin_safe|by intros []|done].
  - apply wp_bind. eapply wp_wand; [by apply UnpinPgImp_pin_safe|by intros []|done].
  - apply wp_bind. eapply wp_wand; [by apply FlushPgImp_pin_safe|by intros []|done].
  - by apply flush_from_pin_safe.
  - apply wp_bind. eapply wp_wand; [by apply DeletePgImp_pin_safe|by intros []|done].
Qed.

Lemma reachable_pin_safe pool_size replacer_k s :
  reachable pool_size replacer_k s -> pin_safe s.
Proof.
  induction 1 as [disk|s s' _ IH Hstep].
  - split; simpl; [constructor|]. by intros f fi pg Hm.
  - destruct Hstep as [fuel o Hrun|fuel o Hrun];
      pose proof (run_pin_safe fuel o s IH) as Hwp; by rewrite Hrun in Hwp.
Qed.

(** *** Well-formed pools *)

(** Frame ids are indices of the frame array. *)
Definition valid (n : nat) (f : Z) : Prop := 0 <= f < Z.of_nat n.

(** The pool has [n] frames; the page table is a well-formed hash table and
    maps a page id to a frame that holds this page; the page table, the free
    list and the replacer hold frame ids; the replacer's clock is a
    [size_t]. *)
Record pool_wf (n : nat) (s : State) : Prop := {
  pw_size : pool_size_ s = Z.of_nat n;
  pw_pages : length (pages_ s) = n;
  pw_replacer : replacer_size_ (replacer_ s) = Z.of_nat n;
  pw_table : wf hash (page_table_ s);
  pw_values : forall p f, lookup hash (page_table_ s) p = Some f -> valid n f;
  pw_frames : forall p f, lookup hash (page_table_ s) p = Some f ->
              page_id_ <$> vec_at (pages_ s) f = Some p;
  pw_free : forall f, f ∈ free_list_ s -> valid n f;
  pw_tracked : forall f fi, map_at (map_ (replacer_ s)) f = Some fi -> valid n f;
  pw_nodup : NoDup (map_ (replacer_ s)).*1;
  pw_clock : size_t_wrap (current_timestamp_ (replacer_ s))
             = current_timestamp_ (replacer_ s)
}.

(** No page is mapped to frame [t]. *)
Definition unmapped (t : Z) (s : State) : Prop :=
  forall p f, lookup hash (page_table_ s) p = Some f -> f <> t.

Lemma valid_vec_at n s f : pool_wf n s -> valid n f -> is_Some (vec_at (pages_ s) f).
Proof.
  intros Hw Hf. unfold vec_at, valid in *. rewrite (pw_pages _ _ Hw).
  destruct (Z.leb_spec 0 f); [|lia]. destruct (Z.ltb_spec f (Z.of_nat n)); [|lia].
  simpl. apply lookup_lt_is_Some. rewrite (pw_pages _ _ Hw). lia.
Qed.

Lemma valid_CheckFrameId n s f :
  pool_wf n s -> valid n f -> CheckFrameId (replacer_ s) f = true.
Proof.
  intros Hw Hf. unfold CheckFrameId, valid in *. rewrite (pw_replacer _ _ Hw).
  destruct (Z.leb_spec 0 f); [|lia]. destruct (Z.leb_spec f (Z.of_nat n)); [done|lia].
Qed.

Lemma pool_wf_Find n s p :
  pool_wf n s ->
  EHT.Find hash p (page_table_ s) = Ok (lookup hash (page_table_ s) p).
Proof. intros Hw. apply Find_lookup, (pw_table _ _ Hw). Qed.

Section Steps.

Context (n : nat) (Q : State -> Prop) (QE : State -> Prop).

Lemma pw_write_back t s :
  pool_wf n s ->
  (forall s', pool_wf n s' -> pages_ s' = pages_ s -> Q s') ->
  wp (write_back t s) Q QE.
Proof.
  intros Hw HQ. unfold write_back. apply wp_bind, wp_of_option. intros pg _. simpl.
  apply HQ; [|by destruct (IsDirty pg)]. destruct (IsDirty pg); [|done]. by destruct Hw.
Qed.

(** Removing the page of frame [t] from the page table unmaps the frame. *)
Lemma pw_table_remove t pg s :
  pool_wf n s -> vec_at (pages_ s) t = Some pg ->
  (forall s', pool_wf n s' -> unmapped t s' -> pages_ s' = pages_ s -> Q s') ->
  wp (table_remove hash (page_id_ pg) s) Q QE.
Proof.
  intros Hw Hpg HQ. unfold table_remove. apply wp_bind, wp_lift_table. intros [b pt] Hr.
  simpl.
  destruct (Remove_spec hash (page_table_ s) (page_id_ pg) (pw_table _ _ Hw))
    as (t' & Heq & Hwf' & _ & _ & _ & _ & Hl).
  rewrite Heq in Hr. simplify_eq. apply HQ; [| |done].
  - destruct Hw. split; simpl; try done.
    + intros p' f. rewrite Hl. case_decide; [done|]. eauto.
    + intros p' f. rewrite Hl. case_decide; [done|]. eauto.
  - intros p' f. simpl. rewrite Hl. case_decide; [done|]. intros Hp' ->.
    apply (pw_frames _ _ Hw) in Hp'. rewrite Hpg in Hp'. simpl in Hp'. congruence.
Qed.

Lemma pw_table_insert fuel p f s :
  pool_wf n s -> valid n f -> page_id_ <$> vec_at (pages_ s) f = Some p ->
  (forall s', pool_wf n s' -> Q s') ->
  wp (table_insert hash fuel p f s) Q QE.
Proof.
  intros Hw Hf Hp HQ. unfold table_insert. apply wp_bind, wp_lift_table. intros pt Hi.
  simpl. apply HQ.
  apply InsertInternal_post in Hi as (Hwf' & Hk & Hoth & _); [|apply (pw_table _ _ Hw)].
  destruct Hw. split; simpl; try done.
  - intros p' f'. destruct (decide (p' = p)) as [->|Hne].
    + rewrite Hk. by intros; simplify_eq.
    + rewrite Hoth by done. eauto.
  - intros p' f'. destruct (decide (p' = p)) as [->|Hne].
    + rewrite Hk. by intros; simplify_eq.
    + rewrite Hoth by done. eauto.
Qed.

(** An update of a frame that no page is mapped to. *)
Lemma pw_upd_page_unmapped t g s :
  pool_wf n s -> unmapped t s ->
  (forall s', pool_wf n s' -> unmapped t s' -> Q s') -> wp (upd_page t g s) Q QE.
Proof.
  intros Hw Hun HQ. apply wp_upd_page. intros pg Hpg. apply HQ; [|done].
  destruct Hw. split; simpl; try done; [by rewrite vec_at_set_length|].
  intros p f Hl. rewrite (vec_at_set_ne _ _ _ _ _ Hpg); [eauto|].
  intros ->. by eapply Hun.
Qed.

(** An update that keeps the page id. *)
Lemma pw_upd_page_same_id t g s :
  (forall pg, page_id_ (g pg) = page_id_ pg) ->
  pool_wf n s -> (forall s', pool_wf n s' -> Q s') -> wp (upd_page t g s) Q QE.
Proof.
  intros Hg Hw HQ. apply wp_upd_page. intros pg Hpg. apply HQ.
  destruct Hw. split; simpl; try done; [by rewrite vec_at_set_length|].
  intros p f Hl. destruct (decide (t = f)) as [->|Hne].
  - rewrite (vec_at_set_eq _ _ _ _ Hpg). simpl. rewrite Hg.
    apply pw_frames0 in Hl. rewrite Hpg in Hl. done.
  - rewrite (vec_at_set_ne _ _ _ _ _ Hpg); eauto.
Qed.

Lemma pw_record_access t s :
  pool_wf n s -> valid n t ->
  (forall s', pool_wf n s' -> page_table_ s' = page_table_ s ->
              pages_ s' = pages_ s -> Q s') ->
  wp (replacer_call (RecordAccess t) s) Q QE.
Proof.
  intros Hw Ht HQ. apply wp_replacer_call.
  - intros r Hr.
    apply RecordAccess_Ok in Hr as (Hnd' & Hoth & (fi' & Hat & _) & Hclk & _ & Hrs & _);
      [|apply (pw_nodup _ _ Hw)].
    apply HQ; [|done|done].
    destruct Hw. split; simpl; try done; [congruence| |].
    + intros f fi Hm. destruct (decide (f = t)) as [->|Hne]; [done|].
      rewrite Hoth in Hm by done. eauto.
    + rewrite Hclk. unfold size_t_wrap. by rewrite Z.mod_mod.
  - intros e He. by apply RecordAccess_no_Throw in He.
Qed.

Lemma SetEvictable_size f b r r' :
  SetEvictable f b r = Ok r' -> replacer_size_ r' = replacer_size_ r.
Proof.
  unfold SetEvictable. destruct (negb _); [done|].
  destruct (map_at (map_ r) f) as [fi|]; [|done].
  destruct b, (IsEvictable fi); simpl; intros; by simplify_eq.
Qed.

Lemma pw_set_evictable t b s :
  pool_wf n s -> valid n t ->
  (forall s', pool_wf n s' -> page_table_ s' = page_table_ s ->
              pages_ s' = pages_ s -> Q s') ->
  (forall s', pool_wf n s' -> QE s') ->
  wp (replacer_call (SetEvictable t b) s) Q QE.
Proof.
  intros Hw Ht HQ HE. apply wp_replacer_call; [|by intros; apply HE].
  intros r Hr. pose proof (SetEvictable_size _ _ _ _ Hr) as Hrs.
  apply SetEvictable_Ok in Hr as (Hnd' & Hoth & _ & Hclk); [|apply (pw_nodup _ _ Hw)].
  apply HQ; [|done..].
  destruct Hw. split; simpl; try done; [congruence| |congruence].
  intros f fi Hm. destruct (decide (f = t)) as [->|Hne]; [done|].
  rewrite Hoth in Hm by done. eauto.
Qed.

Lemma Remove_size f r r' :
  Remove f r = Ok r' ->
  replacer_size_ r' = replacer_size_ r /\ current_timestamp_ r' = current_timestamp_ r.
Proof.
  unfold Remove. destruct (negb _); [done|].
  destruct (map_at (map_ r) f) as [fi|]; [|by intros; simplify_eq].
  destruct (negb (IsEvictable fi)); simpl; intros; by simplify_eq.
Qed.

Lemma pw_remove t s :
  pool_wf n s ->
  (forall s', pool_wf n s' -> page_table_ s' = page_table_ s ->
              pages_ s' = pages_ s -> Q s') ->
  (forall s', pool_wf n s' -> QE s') ->
  wp (replacer_call (Remove t) s) Q QE.
Proof.
  intros Hw HQ HE. apply wp_replacer_call; [|by intros; apply HE].
  intros r Hr. pose proof (Remove_size _ _ _ Hr) as [Hrs Hclk].
  apply Remove_Ok in Hr as (Hnd' & Hoth & Hnone); [|apply (pw_nodup _ _ Hw)].
  apply HQ; [|done..].
  destruct Hw. split; simpl; try done; [congruence| |congruence].
  intros f fi Hm. destruct (decide (f = t)) as [->|Hne]; [congruence|].
  rewrite Hoth in Hm by done. eauto.
Qed.

End Steps.

Lemma Evict_size r o r' :
  Evict BUSTUB_TIMESTAMP_MAX r = Ok (o, r') ->
  replacer_size_ r' = replacer_size_ r /\ current_timestamp_ r' = current_timestamp_ r.
Proof.
  unfold Evict. destruct (_ =? _); [by intros; simplify_eq|].
  intros He. apply bind_Ok in He as (fi & _ & He).
  apply bind_Ok in He as (info & _ & He).
  apply bind_Ok in He as (tgt & _ & He). by simplify_eq.
Qed.

Lemma pw_take_frame n s (Q : option Z * State -> Prop) QE :
  pool_wf n s ->
  (forall s', pool_wf n s' -> Q (None, s')) ->
  (forall t s', pool_wf n s' -> valid n t -> Q (Some t, s')) ->
  wp (take_frame s) Q QE.
Proof.
  intros Hw HN HS. unfold BPM.take_frame.
  destruct (free_list_ s) as [|t rest] eqn:Hfl.
  - apply wp_bind, wp_lift_replacer.
    + intros [[t|] r] He; simpl.
      * pose proof (Evict_size _ _ _ He) as [Hrs Hclk].
        apply Evict_Some in He as ((fi & Hm & _) & Hnd' & Hnone & Hoth & _);
          [|apply (pw_nodup _ _ Hw)].
        apply HS; [|by eapply (pw_tracked _ _ Hw)].
        destruct Hw. split; simpl; try done; [congruence| |congruence].
        intros f fi' Hm'. destruct (decide (f = t)) as [->|Hne]; [congruence|].
        rewrite Hoth in Hm' by done. eauto.
      * apply Evict_None in He as ->. apply HN. by destruct s.
    + intros e He. by apply Evict_no_Throw in He.
  - simpl. apply HS.
    + destruct Hw. split; simpl; try done. intros f Hf. apply pw_free0.
      rewrite Hfl. by right.
    + apply (pw_free _ _ Hw). rewrite Hfl. left.
Qed.

Lemma NewPgImp_pool_wf n fuel s :
  pool_wf n s -> wp (NewPgImp fuel s) (fun x => pool_wf n x.2) (pool_wf n).
Proof.
  intros Hs. unfold BPM.NewPgImp.
  apply wp_bind, pw_take_frame with n; [done|done|].
  intros t s1 H1 Ht.
  apply wp_bind, pw_write_back with n; [done|]. clear H1. intros s2 H2 _.
  apply wp_bind, wp_of_option. intros pg Hpg.
  apply wp_bind, pw_table_remove with n t; [done|done|]. intros s3 H3 Hun3 _.
  apply wp_bind, pw_upd_page_unmapped with n; [done|done|]. intros s4 H4 Hun4.
  unfold AllocatePage.
  apply wp_bind, pw_upd_page_unmapped with n; [by destruct H4|done|]. intros s5 H5 Hun5.
  apply wp_bind, pw_upd_page_unmapped with n; [done|done|]. intros s6 H6 Hun6.
  apply wp_bind, pw_record_access with n; [done|done|]. intros s7 H7 _ Hp7.
  apply wp_bind, pw_set_evictable with n; [done|done| |done]. intros s8 H8 _ Hp8.
  apply wp_bind, wp_of_option. intros pg' Hpg'.
  apply wp_bind, pw_table_insert with n; [done|done|by rewrite Hpg'|]. intros s9 H9.
  apply wp_bind, wp_of_option. intros pg'' _. done.
Qed.

Lemma FetchPgImp_pool_wf n fuel p s :
  pool_wf n s -> wp (FetchPgImp fuel p s) (fun x => pool_wf n x.2) (pool_wf n).
Proof.
  intros Hs. unfold BPM.FetchPgImp. rewrite (pool_wf_Find n) by done. simpl.
  destruct (lookup hash (page_table_ s) p) as [t|] eqn:Hl.
  - apply wp_bind, pw_record_access with n; [done|by eapply (pw_values _ _ Hs)|].
    by intros s' Hs'.
  - apply wp_bind, pw_take_frame with n; [done|done|].
    intros t s1 H1 Ht.
    apply wp_bind, pw_write_back with n; [done|]. clear H1. intros s2 H2 _.
    apply wp_bind, wp_of_option. intros pg Hpg.
    apply wp_bind, pw_table_remove with n t; [done|done|]. intros s3 H3 Hun3 _.
    apply wp_bind, pw_upd_page_unmapped with n; [done|done|]. intros s4 H4 Hun4.
    apply wp_bind, pw_upd_page_unmapped with n; [done|done|]. intros s5 H5 Hun5.
    apply wp_bind, pw_upd_page_unmapped with n; [done|done|]. intros s6 H6 Hun6.
    apply wp_bind, wp_of_option. intros pg' Hpg'.
    apply wp_bind, pw_table_insert with n; [done|done|by rewrite Hpg'|]. intros s7 H7.
    apply wp_bind, pw_upd_page_same_id with n; [done|done|]. intros s8 H8.
    apply wp_bind, pw_record_access with n; [done|done|]. intros s9 H9 _ _.
    apply wp_bind, pw_set_evictable with n; [done|done| |done]. intros s10 H10 _ _.
    done.
Qed.

Lemma UnpinPgImp_pool_wf n p d s :
  pool_wf n s -> wp (UnpinPgImp p d s) (fun x => pool_wf n x.2) (pool_wf n).
Proof.
  intros Hs. unfold BPM.UnpinPgImp. rewrite (pool_wf_Find n) by done. simpl.
  destruct (lookup hash (page_table_ s) p) as [t|] eqn:Hl; [|done].
  pose proof (pw_values _ _ Hs _ _ Hl) as Ht.
  apply wp_bind, wp_of_option. intros pg Hpg.
  destruct (GetPinCount pg =? 0); [done|].
  apply wp_bind, pw_upd_page_same_id with n; [done|done|]. intros s1 H1.
  apply wp_bind, wp_of_option. intros pg1 _.
  apply wp_bind. apply wp_wand with (Q := pool_wf n) (QE := pool_wf n); [| |done].
  - destruct (GetPinCount pg1 =? 0); [|done].
    apply pw_set_evictable with n; auto.
  - intros s2 H2. apply wp_bind, pw_upd_page_same_id with n; [done|done|].
    by intros s3 H3.
Qed.

Lemma FlushPgImp_pool_wf n p s :
  pool_wf n s -> wp (FlushPgImp p s) (fun x => pool_wf n x.2) (pool_wf n).
Proof.
  intros Hs. unfold BPM.FlushPgImp. rewrite (pool_wf_Find n) by done. simpl.
  destruct (lookup hash (page_table_ s) p) as [t|] eqn:Hl; [|done].
  pose proof (pw_values _ _ Hs _ _ Hl) as Ht.
  apply wp_bind, wp_of_option. intros pg Hpg.
  apply wp_bind, pw_upd_page_same_id with n; [done|by destruct Hs|]. intros s1 H1.
  apply wp_bind, pw_record_access with n; [done|done|]. by intros s2 H2.
Qed.

Lemma flush_from_pool_wf n m i s :
  pool_wf n s -> wp (flush_from hash m i s) (pool_wf n) (pool_wf n).
Proof.
  revert i s. induction m as [|m IH]; intros i s Hs; simpl; [done|].
  apply wp_bind, wp_of_option. intros pg _.
  apply wp_bind. eapply wp_wand; [by apply FlushPgImp_pool_wf| |done].
  intros [b s'] Hs'. by apply IH.
Qed.

Lemma DeletePgImp_pool_wf n p s :
  pool_wf n s -> wp (DeletePgImp p s) (fun x => pool_wf n x.2) (pool_wf n).
Proof.
  intros Hs. unfold BPM.DeletePgImp. rewrite (pool_wf_Find n) by done. simpl.
  destruct (lookup hash (page_table_ s) p) as [t|] eqn:Hl; [|done].
  pose proof (pw_values _ _ Hs _ _ Hl) as Ht.
  pose proof (pw_frames _ _ Hs _ _ Hl) as Hid.
  apply wp_bind, wp_of_option. intros pg Hpg.
  rewrite Hpg in Hid. simpl in Hid. injection Hid as <-.
  destruct (0 <? GetPinCount pg); [done|].
  apply wp_bind, pw_table_remove with n t; [done|done|]. intros s1 H1 Hun1 _.
  apply wp_bind, pw_remove with n; [done| |done]. intros s2 H2 Hpt2 _.
  assert (unmapped t s2) as Hun2 by (unfold unmapped; by rewrite Hpt2).
  apply wp_bind, pw_upd_page_unmapped with n; [done|done|]. intros s3 H3 Hun3.
  apply wp_bind, pw_upd_page_unmapped with n; [done|done|]. intros s4 H4 Hun4.
  apply wp_bind, pw_upd_page_unmapped with n; [done|done|]. intros s5 H5 Hun5.
  apply wp_bind, pw_upd_page_unmapped with n; [done|done|]. intros s6 H6 Hun6.
  simpl. destruct H6. split; simpl; try done.
  intros f [Hf| ->%list_elem_of_singleton]%elem_of_app; auto.
Qed.

Lemma run_pool_wf n fuel o s :
  pool_wf n s -> wp (run fuel o s) (pool_wf n) (pool_wf n).
Proof.
  intros Hs. destruct o; simpl.
  - apply wp_bind. eapply wp_wand; [by apply NewPgImp_pool_wf|by intros []|done].
  - apply wp_bind. eapply wp_wand; [by apply FetchPgImp_pool_wf|by intros []|done].
  - apply wp_bind. eapply wp_wand; [by apply UnpinPgImp_pool_wf|by intros []|done].
  - apply wp_bind. eapply wp_wand; [by apply FlushPgImp_pool_wf|by intros []|done].
  - by apply flush_from_pool_wf.
  - apply wp_bind. eapply wp_wand; [by apply DeletePgImp_pool_wf|by intros []|done].
Qed.

Lemma lookup_new p : lookup hash (EHT.Table_new (V:=Z) bucket_size_) p = None.
Proof.
  unfold lookup, EHT.bucket_at. simpl.
  destruct (EHT.IndexOf hash (EHT.Table_new (V:=Z) bucket_size_) p) as [|i] eqn:Hi;
    [done|].
  pose proof (IndexOf_lt hash (EHT.Table_new (V:=Z) bucket_size_) p) as Hlt.
  rewrite Hi in Hlt. simpl in Hlt. lia.
Qed.

Lemma pool_wf_new pool_size disk replacer_k :
  pool_wf pool_size
    (BufferPoolManagerInstance_new INVALID_PAGE_ID BUSTUB_PAGE_SIZE bucket_size_
       pool_size disk replacer_k).
Proof.
  split; simpl; try done.
  - apply length_replicate.
  - apply wf_new.
  - intros p f. by rewrite lookup_new.
  - intros p f. by rewrite lookup_new.
  - intros f (i & -> & Hi%elem_of_seq)%list_elem_of_fmap. unfold valid. lia.
  - constructor.
Qed.

Lemma reachable_pool_wf pool_size replacer_k s :
  reachable pool_size replacer_k s -> pool_wf pool_size s.
Proof.
  induction 1 as [disk|s s' _ IH Hstep]; [apply pool_wf_new|].
  destruct Hstep as [fuel o Hrun|fuel o Hrun];
    pose proof (run_pool_wf pool_size fuel o s IH) as Hwp; by rewrite Hrun in Hwp.
Qed.

(** *** Flushing *)

Lemma vec_at_lookup {A} (v : list A) i x : vec_at v i = Some x -> v !! Z.to_nat i = Some x.
Proof. unfold vec_at. by destruct (_ && _). Qed.


Lemma vec_set_fmap_same {A B} (g : A -> B) (v : list A) i x y :
  vec_at v i = Some y -> g x = g y -> g <$> vec_set v i x = g <$> v.
Proof.
  intros Hy%vec_at_lookup Hg. unfold vec_set.
  rewrite list_fmap_insert, Hg. apply list_insert_id.
  by rewrite list_lookup_fmap, Hy.
Qed.

(** Frame [f] is clean, is tracked by the replacer. *)
Definition clean (s : State) (f : Z) : Prop :=
  exists pg, vec_at (pages_ s) f = Some pg /\ is_dirty_ pg = false.

Definition tracked (s : State) (f : Z) : Prop :=
  is_Some (map_at (map_ (replacer_ s)) f).

(** What flushing leaves alone, and what it never undoes. *)
Definition flush_rel (s s' : State) : Prop :=
  page_table_ s' = page_table_ s /\
  page_id_ <$> pages_ s' = page_id_ <$> pages_ s /\
  data_ <$> pages_ s' = data_ <$> pages_ s /\
  (forall f, clean s f -> clean s' f) /\
  (forall f, tracked s f -> tracked s' f) /\
  (forall w, w ∈ disk_manager_ s -> w ∈ disk_manager_ s').



(** The entry of frame [f] after an access at the current time. *)
Definition accessed (r : LRUKReplacer) (f : Z) : FrameInfo :=
  FrameInfo_RecordAccess (current_timestamp_ r)
    (default (FrameInfo_new (k_ r)) (map_at (map_ r) f)).

Lemma RecordAccess_total r f :
  CheckFrameId r f = true ->
  exists r', RecordAccess f r = Ok r' /\
    current_timestamp_ r' = size_t_wrap (current_timestamp_ r + 1) /\
    map_at (map_ r') f = Some (accessed r f) /\
    (forall f', is_Some (map_at (map_ r) f') -> is_Some (map_at (map_ r') f')).
Proof.
  intros Hc. unfold RecordAccess. rewrite Hc. simpl. eexists. split; [done|].
  simpl. split; [done|]. unfold accessed. split.
  - rewrite map_at_update, decide_True by done.
    destruct (map_at (map_ r) f) as [fi|] eqn:Hm; simpl; [by rewrite Hm|].
    by rewrite Z.eqb_refl.
  - intros f' Hf'. rewrite map_at_update.
    assert (is_Some (map_at (match map_at (map_ r) f with
                             | Some _ => map_ r
                             | None => (f, FrameInfo_new (k_ r)) :: map_ r
                             end) f')) as Hs.
    { destruct (map_at (map_ r) f); [done|]. simpl. by destruct (f =? f')%Z. }
    case_decide; [by apply fmap_is_Some|done].
Qed.

(** [FlushPgImp] on a resident page of a well-formed pool. *)
Lemma FlushPgImp_resident n s p f :
  pool_wf n s -> EHT.Find hash p (page_table_ s) = Ok (Some f) ->
  exists pg r' s',
    vec_at (pages_ s) f = Some pg /\
    RecordAccess f (replacer_ s) = Ok r' /\
    FlushPgImp p s = Ok (true, s') /\
    s' = set_replacer r'
           (set_pages (vec_set (pages_ s) f (set_is_dirty false pg))
              (set_disk (WritePage p (data_ pg) (disk_manager_ s)) s)) /\
    current_timestamp_ r' = size_t_wrap (current_timestamp_ (replacer_ s) + 1) /\
    map_at (map_ r') f = Some (accessed (replacer_ s) f) /\
    flush_rel s s' /\ clean s' f /\ tracked s' f.
Proof.
  intros Hw Hf. pose proof Hf as Hl. rewrite (pool_wf_Find n) in Hl by done.
  injection Hl as Hl. pose proof (pw_values _ _ Hw _ _ Hl) as Hv.
  destruct (valid_vec_at n s f Hw Hv) as [pg Hpg].
  destruct (RecordAccess_total (replacer_ s) f (valid_CheckFrameId n s f Hw Hv))
    as (r' & Hr & Hclock & Hentry & Htr).
  exists pg, r'. eexists. split; [done|]. split; [done|].
  split.
  { unfold BPM.FlushPgImp. rewrite Hf. simpl. rewrite Hpg. simpl.
    unfold upd_page. simpl. rewrite Hpg. simpl.
    unfold replacer_call. simpl. rewrite Hr. simpl. done. }
  split; [done|]. split; [done|]. split; [done|].
  split; [|split].
  - split; [done|]. simpl.
    split; [by eapply vec_set_fmap_same|]. split; [by eapply vec_set_fmap_same|].
    split; [|split; [done|by intros; right]].
    intros f' (pg' & Hpg' & Hd). unfold clean. simpl.
    destruct (decide (f = f')) as [->|Hne].
    + rewrite (vec_at_set_eq _ _ _ _ Hpg). eauto.
    + rewrite (vec_at_set_ne _ _ _ _ _ Hpg) by done. eauto.
  - unfold clean. simpl. rewrite (vec_at_set_eq _ _ _ _ Hpg). eauto.
  - unfold tracked. simpl. rewrite Hentry. eauto.
Qed.






(** C5.  In every state that a sequence of pool operations reaches from a
    fresh pool, a frame that the replacer reports evictable has pin count
    zero, and so has the frame that [Evict] returns there: no frame with
    [pin_count > 0] is evictable or evicted. *)
Theorem pin_safety pool_size replacer_k s :
  reachable pool_size replacer_k s ->
  (forall f pg, evictable (replacer_ s) f -> vec_at (pages_ s) f = Some pg ->
                pin_count_ pg = 0) /\
  (forall f r' pg, Evict BUSTUB_TIMESTAMP_MAX (replacer_ s) = Ok (Some f, r') ->
                   vec_at (pages_ s) f = Some pg -> pin_count_ pg = 0).
Proof.
  intros [Hnd Hs]%reachable_pin_safe.
  assert (forall f pg, evictable (replacer_ s) f -> vec_at (pages_ s) f = Some pg ->
                       pin_count_ pg = 0) as Hev.
  { intros f pg (fi & Hm & He) Hv. by eapply Hs. }
  split; [done|]. intros f r' pg He Hv.
  apply Evict_Some in He as (He & _); [|done]. by eapply Hev.
Qed.

(** [UnpinPgImp], when it unpins, stores [is_dirty] in the flag. *)
Lemma UnpinPgImp_assigns_dirty p d s s' f :
  EHT.Find hash p (page_table_ s) = Ok (Some f) ->
  UnpinPgImp p d s = Ok (true, s') ->
  exists pg', vec_at (pages_ s') f = Some pg' /\ is_dirty_ pg' = d.
Proof.
  unfold BPM.UnpinPgImp. intros -> Hu. simpl in Hu.
  apply bind_Ok in Hu as (pg & Hpg%of_option_Ok & Hu).
  destruct (GetPinCount pg =? 0); [done|].
  apply bind_Ok in Hu as (s1 & _ & Hu).
  apply bind_Ok in Hu as (pg1 & _ & Hu).
  apply bind_Ok in Hu as (s2 & _ & Hu).
  apply bind_Ok in Hu as (s3 & Hs3 & Hu). simplify_eq.
  unfold upd_page in Hs3. apply bind_Ok in Hs3 as (pg2 & Hpg2%of_option_Ok & Hs3).
  simplify_eq. simpl. eexists. split; [by eapply vec_at_set_eq|done].
Qed.

(** [FetchPgImp] on a hit only records the access. *)
Lemma FetchPgImp_hit fuel p s f :
  EHT.Find hash p (page_table_ s) = Ok (Some f) ->
  FetchPgImp fuel p s =
  do r <- lift_replacer s (RecordAccess f (replacer_ s)); Ok (Some f, set_replacer r s).
Proof.
  unfold BPM.FetchPgImp, replacer_call. intros ->. simpl.
  by destruct (RecordAccess f (replacer_ s)).
Qed.

End Pool.

(** C4.  In a pool of one frame, after [new_page] (page 0) and
    [unpin_page(0, true)] the frame is dirty and evictable.  The next
    [new_page] evicts it, writes page 0 to disk and returns the frame with
    zeroed bytes, page id 1 and pin count 1 — but with the dirty flag still
    set: [NewPgImp] never assigns [is_dirty_]. *)
Theorem NewPgImp_leaves_dirty_flag :
  exists s2 s3 pg,
    pool_runs [new_page; unpin_page 0 true] pool1 = Ok s2 /\
    free_list_ s2 = [] /\
    (IsDirty <$> vec_at (pages_ s2) 0) = Some true /\
    NewPgImp 4096 (2 ^ 64 - 1) page_hash 64 s2 = Ok (Some (1, 0), s3) /\
    disk_manager_ s3 = [(0, zeroed 4096)] /\
    vec_at (pages_ s3) 0 = Some pg /\
    data_ pg = zeroed 4096 /\ page_id_ pg = 1 /\ pin_count_ pg = 1 /\
    is_dirty_ pg = true.
Proof.
  do 3 eexists. split; [vm_compute; reflexivity|].
  split; [reflexivity|]. split; [reflexivity|].
  split; [vm_compute; reflexivity|]. split; [reflexivity|].
  split; [vm_compute; reflexivity|]. by vm_compute.
Qed.

(** C2.  In a pool of one frame, [new_page], [unpin_page(0, true)],
    [new_page] reach a state in which page 1 is resident in frame 0, pinned
    once, with the dirty flag set.  [unpin_page(1, false)] returns [true]
    and leaves the flag cleared: the flag is assigned, not or-ed. *)
Theorem UnpinPgImp_clears_dirty_flag :
  exists s3 s4,
    pool_runs [new_page; unpin_page 0 true; new_page] pool1 = Ok s3 /\
    EHT.Find page_hash 1 (page_table_ s3) = Ok (Some 0) /\
    (IsDirty <$> vec_at (pages_ s3) 0) = Some true /\
    (GetPinCount <$> vec_at (pages_ s3) 0) = Some 1 /\
    UnpinPgImp page_hash 1 false s3 = Ok (true, s4) /\
    (IsDirty <$> vec_at (pages_ s4) 0) = Some false.
Proof.
  do 2 eexists. split; [vm_compute; reflexivity|].
  split; [reflexivity|]. split; [reflexivity|]. split; [reflexivity|].
  split; [vm_compute; reflexivity|]. reflexivity.
Qed.

(** C3.  In a pool of one frame, after [new_page] (page 0) and
    [unpin_page(0, false)] page 0 is resident in frame 0 with pin count 0
    and the frame is evictable.  [fetch_page(0)] is a hit: it returns frame
    0 and records an access (the clock goes from 1 to 2), but the pin count
    is still 0 and the frame is still evictable. *)
Theorem FetchPgImp_hit_does_not_pin :
  exists s2 s3,
    pool_runs [new_page; unpin_page 0 false] pool1 = Ok s2 /\
    EHT.Find page_hash 0 (page_table_ s2) = Ok (Some 0) /\
    (GetPinCount <$> vec_at (pages_ s2) 0) = Some 0 /\
    current_timestamp_ (replacer_ s2) = 1 /\
    FetchPgImp 4096 (2 ^ 64 - 1) page_hash 64 0 s2 = Ok (Some 0, s3) /\
    current_timestamp_ (replacer_ s3) = 2 /\
    (GetPinCount <$> vec_at (pages_ s3) 0) = Some 0 /\
    (IsEvictable <$> map_at (map_ (replacer_ s3)) 0) = Some true.
Proof.
  do 2 eexists. split; [vm_compute; reflexivity|].
  split; [reflexivity|]. split; [reflexivity|]. split; [reflexivity|].
  split; [vm_compute; reflexivity|]. by vm_compute.
Qed.

(** A reachable state on which C5 is exercised: one frame, unpinned. *)
Lemma pin_safety_witness :
  exists s, pool_runs [new_page; unpin_page 0 false] pool1 = Ok s /\
    reachable (-1) 4096 4 (2 ^ 64 - 1) page_hash 1 2 s /\
    (forall f pg, evictable (replacer_ s) f -> vec_at (pages_ s) f = Some pg ->
                  pin_count_ pg = 0).
Proof.
  eexists. split; [vm_compute; reflexivity|].
  assert (forall s, reachable (-1) 4096 4 (2 ^ 64 - 1) page_hash 1 2 s ->
    forall f pg, evictable (replacer_ s) f -> vec_at (pages_ s) f = Some pg ->
                 pin_count_ pg = 0) as H
    by (intros s Hs; exact (proj1 (pin_safety (-1) 4096 4 (2 ^ 64 - 1) page_hash 1 2 s Hs))).
  assert (reachable (-1) 4096 4 (2 ^ 64 - 1) page_hash 1 2
            (BufferPoolManagerInstance_new (-1) 4096 4 1 [] 2)) as H0
    by constructor.
  eapply reachable_step in H0;
    [|eapply step_returns with (fuel := 64%nat) (o := new_page);
      vm_compute; reflexivity].
  eapply reachable_step in H0;
    [|eapply step_returns with (fuel := 64%nat) (o := unpin_page 0 false);
      vm_compute; reflexivity].
  split; [exact H0|]. exact (H _ H0).
Defined.


End BPM_Facts.

(** ** More on the LRU-K replacer *)

Module LRUK_More.

Import LRUK LRUK_Client Runs Outcome_Facts LRUK_Facts.

(** *** The order of [Evict] *)

Lemma keeps_target_spec cur tgt :
  keeps_target cur tgt = true <->
  k_distance_ cur < k_distance_ tgt \/
  (k_distance_ cur = k_distance_ tgt /\
   earliest_access_timestamp_ tgt <= earliest_access_timestamp_ cur).
Proof.
  unfold keeps_target. rewrite orb_true_iff, andb_true_iff.
  rewrite Z.ltb_lt, Z.eqb_eq, Z.leb_le. done.
Qed.

Lemma keeps_target_refl a : keeps_target a a = true.
Proof. apply keeps_target_spec. lia. Qed.

Lemma keeps_target_trans a b c :
  keeps_target a b = true -> keeps_target b c = true -> keeps_target a c = true.
Proof. rewrite !keeps_target_spec. lia. Qed.

Lemma keeps_target_total a b : keeps_target a b = false -> keeps_target b a = true.
Proof.
  intros Hab. apply keeps_target_spec.
  destruct (keeps_target a b) eqn:H; [done|].
  apply not_true_iff_false in H. rewrite keeps_target_spec in H. lia.
Qed.

Section Scan.

Variable tmax : Z.

(** The second loop of [Evict] ends with a target that the loop would keep
    against every evictable entry. *)
Lemma evict_scan_max m tgt tgt' :
  evict_scan tmax m tgt = Some tgt' ->
  keeps_target tgt.2 tgt'.2 = true /\
  (tgt' = tgt \/
   exists fi, (tgt'.1, fi) ∈ m /\ IsEvictable fi = true /\
              GetAccessInfo tmax fi = Some tgt'.2) /\
  forall g fig, (g, fig) ∈ m -> IsEvictable fig = true ->
    exists ig, GetAccessInfo tmax fig = Some ig /\ keeps_target ig tgt'.2 = true.
Proof.
  revert tgt. induction m as [|[f fi] m IH]; simpl; intros tgt Hs.
  - simplify_eq. split; [apply keeps_target_refl|]. split; [by left|].
    by intros g fig ?%elem_of_nil.
  - destruct (IsEvictable fi) eqn:He; simpl in Hs.
    + destruct (GetAccessInfo tmax fi) as [cur|] eqn:Hcur; simpl in Hs; [|done].
      destruct (keeps_target cur tgt.2) eqn:Hk.
      * destruct (IH _ Hs) as (Hle & Hin & Hall). split; [done|]. split.
        { destruct Hin as [->|(fi' & Hin & ?)]; [by left|].
          right. exists fi'. split; [by right|done]. }
        intros g fig [?|Hg]%elem_of_cons Heg; [|by eapply Hall].
        simplify_eq. exists cur. split; [done|]. by eapply keeps_target_trans.
      * destruct (IH _ Hs) as (Hle & Hin & Hall). simpl in Hle. split.
        { eapply keeps_target_trans; [|exact Hle]. by apply keeps_target_total. }
        split.
        { right. destruct Hin as [->|(fi' & Hin & ?)].
          - exists fi. split; [left|done].
          - exists fi'. split; [by right|done]. }
        intros g fig [?|Hg]%elem_of_cons Heg; [|by eapply Hall].
        simplify_eq. exists cur. done.
    + destruct (IH _ Hs) as (Hle & Hin & Hall). split; [done|]. split.
      { destruct Hin as [->|(fi' & Hin & ?)]; [by left|].
        right. exists fi'. split; [by right|done]. }
      intros g fig [?|Hg]%elem_of_cons Heg; [|by eapply Hall].
      simplify_eq. congruence.
Qed.

Lemma evict_scan_total m tgt :
  (forall g fig, (g, fig) ∈ m -> IsEvictable fig = true ->
     is_Some (GetAccessInfo tmax fig)) ->
  is_Some (evict_scan tmax m tgt).
Proof.
  revert tgt. induction m as [|[f fi] m IH]; simpl; intros tgt Hall; [done|].
  assert (forall tgt, is_Some (evict_scan tmax m tgt)) as IH'.
  { intros tgt0. apply IH. intros g fig Hg. apply (Hall g). by right. }
  destruct (IsEvictable fi) eqn:He; simpl; [|done].
  destruct (Hall f fi) as [cur ->]; [left|done|]. simpl.
  by destruct (keeps_target cur tgt.2).
Qed.

Lemma first_evictable_none m :
  (forall g fig, (g, fig) ∈ m -> IsEvictable fig = false) -> first_evictable m = -1.
Proof.
  induction m as [|[f fi] m IH]; simpl; intros Hall; [done|].
  rewrite (Hall f fi) by left. apply IH. intros g fig Hg. apply (Hall g). by right.
Qed.

Lemma first_evictable_some m g fig :
  (g, fig) ∈ m -> IsEvictable fig = true ->
  exists fi, (first_evictable m, fi) ∈ m /\ IsEvictable fi = true.
Proof.
  induction m as [|[f fi] m IH]; simpl; [by intros ?%elem_of_nil|].
  intros Hg Heg. destruct (IsEvictable fi) eqn:He.
  - exists fi. split; [left|done].
  - apply elem_of_cons in Hg as [?|Hg]; [simplify_eq; congruence|].
    destruct (IH Hg Heg) as (fi' & Hin & He'). exists fi'. split; [by right|done].
Qed.

End Scan.

(** *** Counting the evictable entries *)

Definition count_evictable (m : list (Z * FrameInfo)) : nat :=
  length (filter (fun e => IsEvictable e.2 = true) m).

Definition flag (fi : FrameInfo) : nat := if IsEvictable fi then 1%nat else 0%nat.

Lemma count_evictable_cons f fi m :
  count_evictable ((f, fi) :: m) = (flag fi + count_evictable m)%nat.
Proof.
  unfold count_evictable, flag. rewrite filter_cons. simpl.
  destruct (IsEvictable fi); by case_decide.
Qed.

Lemma count_evictable_le m : (count_evictable m <= length m)%nat.
Proof. apply length_filter. Qed.

Lemma count_evictable_zero m :
  count_evictable m = 0%nat <-> forall g fig, (g, fig) ∈ m -> IsEvictable fig = false.
Proof.
  induction m as [|[f fi] m IH].
  - split; [by intros _ g fig ?%elem_of_nil|done].
  - rewrite count_evictable_cons. unfold flag. split.
    + intros Hc g fig [[= -> ->]|Hg]%elem_of_cons.
      * destruct (IsEvictable fi); [lia|done].
      * apply IH in Hg; [done|]. destruct (IsEvictable fi); lia.
    + intros Hall. rewrite (Hall f fi) by left. simpl. apply IH.
      intros g fig Hg. apply (Hall g). by right.
Qed.

Lemma count_evictable_update m f g fi :
  map_at m f = Some fi ->
  (count_evictable (map_update m f g) + flag fi
   = count_evictable m + flag (g fi))%nat.
Proof.
  induction m as [|[f' fi'] m IH]; simpl; [done|].
  destruct (Z.eqb_spec f' f) as [->|]; intros Hm.
  - simplify_eq. rewrite !count_evictable_cons. lia.
  - rewrite !count_evictable_cons. specialize (IH Hm). lia.
Qed.

Lemma count_evictable_erase m f fi :
  map_at m f = Some fi ->
  (count_evictable (map_erase m f) + flag fi = count_evictable m)%nat.
Proof.
  induction m as [|[f' fi'] m IH]; simpl; [done|].
  destruct (Z.eqb_spec f' f) as [->|]; intros Hm.
  - simplify_eq. rewrite !count_evictable_cons. lia.
  - rewrite !count_evictable_cons. specialize (IH Hm). lia.
Qed.

Lemma map_update_elem m f g e :
  NoDup m.*1 -> e ∈ map_update m f g ->
  (e ∈ m /\ e.1 <> f) \/ exists fi, (f, fi) ∈ m /\ e = (f, g fi).
Proof.
  induction m as [|[f' fi'] m IH]; simpl; [by intros _ ?%elem_of_nil|].
  rewrite NoDup_cons. intros [Hnin Hnd].
  destruct (Z.eqb_spec f' f) as [->|].
  - intros [->|He]%elem_of_cons.
    + right. exists fi'. split; [left|done].
    + left. split; [by right|]. intros <-. apply Hnin.
      by apply (list_elem_of_fmap_2 fst) in He.
  - intros [->|He]%elem_of_cons; [left; split; [left|done]|].
    destruct (IH Hnd He) as [[Hin ?]|(fi & Hin & ->)]; [left; split; [by right|done]|].
    right. exists fi. split; [by right|done].
Qed.

Lemma map_erase_elem m f e : e ∈ map_erase m f -> e ∈ m.
Proof.
  induction m as [|[f' fi'] m IH]; simpl; [done|].
  destruct (Z.eqb_spec f' f) as [->|].
  - intros He. by right.
  - intros [->|He]%elem_of_cons; [left|right; auto].
Qed.

Lemma map_erase_length m f fi :
  map_at m f = Some fi -> S (length (map_erase m f)) = length m.
Proof.
  induction m as [|[f' fi'] m IH]; simpl; [done|].
  destruct (Z.eqb_spec f' f) as [->|]; intros Hm; [done|].
  simpl. by rewrite IH.
Qed.

(** A map with distinct keys between [0] and [n] has at most [n + 1]
    entries. *)
Lemma keys_in_range_length (m : list (Z * FrameInfo)) n :
  NoDup m.*1 -> (forall f fi, (f, fi) ∈ m -> 0 <= f <= n) ->
  Z.of_nat (length m) <= Z.max 0 (n + 1).
Proof.
  intros Hnd Hin.
  assert (m.*1 ⊆+ (Z.of_nat <$> seq 0 (Z.to_nat (n + 1)))) as Hsub.
  { apply NoDup_submseteq; [done|]. intros f ([f' fi] & -> & Hf)%list_elem_of_fmap.
    simpl. apply Hin in Hf. apply list_elem_of_fmap. exists (Z.to_nat f').
    split; [lia|]. apply elem_of_seq. lia. }
  apply submseteq_length in Hsub. rewrite !length_fmap, length_seq in Hsub. lia.
Qed.

(** *** The states of the replacer *)

(** What holds of a replacer for [n] frames and parameter [k]: the entries
    have distinct frame ids that pass [CheckFrameId]; an entry keeps at most
    [k] timestamps, and at least one when [k] is not zero; [curr_size_] is
    the number of entries whose flag is set. *)
Record replacer_wf (n k : Z) (r : LRUKReplacer) : Prop := {
  rw_size : replacer_size_ r = n;
  rw_k : k_ r = k;
  rw_nodup : NoDup (map_ r).*1;
  rw_ids : forall f fi, (f, fi) ∈ map_ r -> 0 <= f <= n;
  rw_hist : forall f fi, (f, fi) ∈ map_ r ->
    fi_k_ fi = k /\
    Z.of_nat (length (access_timestamps_ fi)) <= Z.max 0 k /\
    (0 < k -> access_timestamps_ fi <> []);
  rw_count : curr_size_ r = Z.of_nat (count_evictable (map_ r))
}.

Lemma replacer_wf_new n k : replacer_wf n k (LRUKReplacer_new n k).
Proof.
  split; simpl; try done; [constructor|by intros f fi ?%elem_of_nil..].
Qed.

Lemma FrameInfo_RecordAccess_hist k t fi :
  fi_k_ fi = k ->
  Z.of_nat (length (access_timestamps_ fi)) <= Z.max 0 k ->
  let fi' := FrameInfo_RecordAccess t fi in
  fi_k_ fi' = k /\
  Z.of_nat (length (access_timestamps_ fi')) <= Z.max 0 k /\
  (0 < k -> access_timestamps_ fi' <> []) /\
  IsEvictable fi' = IsEvictable fi.
Proof.
  intros Hk Hlen. simpl. split; [done|]. rewrite Hk.
  rewrite length_app. simpl.
  destruct (Z.ltb_spec k (Z.of_nat (length (access_timestamps_ fi) + 1))) as [Hlt|Hge].
  - split; [|split; [|done]].
    + destruct (access_timestamps_ fi); simpl in *; [lia|]. rewrite length_app. simpl. lia.
    + intros Hpos. destruct (access_timestamps_ fi) as [|t0 ts]; simpl in *; [lia|].
      by destruct ts.
  - split; [|split; [|done]].
    + rewrite length_app. simpl. lia.
    + intros _. by destruct (access_timestamps_ fi).
Qed.

Lemma size_t_wrap_small z : 0 <= z < 2 ^ 64 -> size_t_wrap z = z.
Proof. intros. unfold size_t_wrap. by apply Z.mod_small. Qed.

Lemma CheckFrameId_spec r f :
  CheckFrameId r f = true <-> 0 <= f <= replacer_size_ r.
Proof. unfold CheckFrameId. rewrite andb_true_iff, !Z.leb_le. done. Qed.

Lemma RecordAccess_wf n k f r r' :
  replacer_wf n k r -> RecordAccess f r = Ok r' -> replacer_wf n k r'.
Proof.
  intros Hw. unfold RecordAccess.
  destruct (CheckFrameId r f) eqn:Hc; [|done]. simpl.
  apply CheckFrameId_spec in Hc. rewrite (rw_size _ _ _ Hw) in Hc.
  intros ?; simplify_eq.
  set (m := match map_at (map_ r) f with
            | Some _ => map_ r
            | None => (f, FrameInfo_new (k_ r)) :: map_ r
            end).
  assert (NoDup m.*1) as Hnd.
  { unfold m. destruct (map_at (map_ r) f) eqn:Hat; [apply (rw_nodup _ _ _ Hw)|].
    csimpl. apply NoDup_cons. split; [by apply map_at_None|apply (rw_nodup _ _ _ Hw)]. }
  assert (forall g fig, (g, fig) ∈ m ->
            0 <= g <= n /\ fi_k_ fig = k /\
            Z.of_nat (length (access_timestamps_ fig)) <= Z.max 0 k /\
            ((g, fig) ∈ map_ r \/ (g = f /\ fig = FrameInfo_new (k_ r)))) as Hm.
  { unfold m. intros g fig Hg.
    assert ((g, fig) ∈ map_ r \/ (g = f /\ fig = FrameInfo_new (k_ r))) as [Hin|[-> ->]].
    { destruct (map_at (map_ r) f); [by left|].
      apply elem_of_cons in Hg as [?|?]; [right; by simplify_eq|by left]. }
    - split; [by eapply (rw_ids _ _ _ Hw)|].
      destruct (rw_hist _ _ _ Hw _ _ Hin) as (? & ? & _). auto.
    - split; [done|]. simpl. split; [apply (rw_k _ _ _ Hw)|]. split; [lia|by right]. }
  assert (exists fi0, map_at m f = Some fi0 /\ IsEvictable fi0 =
            match map_at (map_ r) f with Some fi => IsEvictable fi | None => false end)
    as (fi0 & Hat0 & Hev0).
  { unfold m. destruct (map_at (map_ r) f) as [fi|] eqn:Hat; [eauto|].
    simpl. rewrite Z.eqb_refl. eauto. }
  assert (count_evictable m = count_evictable (map_ r)) as Hcm.
  { unfold m. destruct (map_at (map_ r) f); [done|]. by rewrite count_evictable_cons. }
  split; simpl.
  - apply (rw_size _ _ _ Hw).
  - apply (rw_k _ _ _ Hw).
  - by rewrite map_update_keys.
  - intros g fig Hg.
    apply map_update_elem in Hg as [[Hg _]|(fi & Hg & ?)]; [| |done]; simplify_eq;
      by eapply Hm.
  - intros g fig Hg.
    apply map_update_elem in Hg as [[Hg Hne]|(fi & Hg & ?)]; [| |done].
    + destruct (Hm _ _ Hg) as (_ & Hk & Hlen & [Hin|[-> ->]]); [|done].
      by eapply (rw_hist _ _ _ Hw).
    + simplify_eq. destruct (Hm _ _ Hg) as (_ & Hk & Hlen & _).
      destruct (FrameInfo_RecordAccess_hist k (current_timestamp_ r) fi Hk Hlen)
        as (? & ? & ? & _). done.
  - rewrite (rw_count _ _ _ Hw), <- Hcm. f_equal.
    pose proof (count_evictable_update m f
      (FrameInfo_RecordAccess (current_timestamp_ r)) fi0 Hat0) as Hc'.
    unfold flag, IsEvictable in Hc'. simpl in Hc'.
    destruct (evictable_ fi0); lia.
Qed.

Lemma replacer_wf_count_pos n k r f fi :
  replacer_wf n k r -> map_at (map_ r) f = Some fi -> IsEvictable fi = true ->
  1 <= curr_size_ r.
Proof.
  intros Hw Hat He. rewrite (rw_count _ _ _ Hw).
  destruct (count_evictable (map_ r)) eqn:Hc; [|lia].
  rewrite count_evictable_zero in Hc. apply map_at_elem in Hat.
  rewrite (Hc _ _ Hat) in He. done.
Qed.

Lemma replacer_wf_count_le n k r :
  replacer_wf n k r -> 0 <= curr_size_ r <= Z.max 0 (n + 1).
Proof.
  intros Hw. rewrite (rw_count _ _ _ Hw).
  pose proof (count_evictable_le (map_ r)).
  pose proof (keys_in_range_length (map_ r) n (rw_nodup _ _ _ Hw) (rw_ids _ _ _ Hw)).
  lia.
Qed.

Lemma SetEvictable_wf n k f b r r' :
  n + 1 < 2 ^ 64 ->
  replacer_wf n k r -> SetEvictable f b r = Ok r' -> replacer_wf n k r'.
Proof.
  intros Hn Hw. unfold SetEvictable. destruct (negb _); [done|].
  destruct (map_at (map_ r) f) as [fi|] eqn:Hat; [|done].
  assert (forall b', replacer_wf n k
            (set_map (map_update (map_ r) f (FrameInfo_SetEvictable b'))
               (set_curr_size
                  (Z.of_nat (count_evictable
                     (map_update (map_ r) f (FrameInfo_SetEvictable b')))) r))) as Hupd.
  { intros b'. split; simpl; try apply Hw.
    - rewrite map_update_keys. apply Hw.
    - intros g fig Hg.
      apply map_update_elem in Hg as [[Hg _]|(fi' & Hg & ?)]; [| |apply Hw]; simplify_eq;
        by eapply (rw_ids _ _ _ Hw).
    - intros g fig Hg.
      apply map_update_elem in Hg as [[Hg _]|(fi' & Hg & ?)]; [| |apply Hw]; simplify_eq.
      + by eapply (rw_hist _ _ _ Hw).
      + simpl. by eapply (rw_hist _ _ _ Hw).
    - done. }
  pose proof (replacer_wf_count_le n k r Hw) as Hle.
  pose proof (count_evictable_le (map_ r)) as Hcl.
  pose proof (keys_in_range_length (map_ r) n (rw_nodup _ _ _ Hw) (rw_ids _ _ _ Hw)) as Hkl.
  destruct b, (IsEvictable fi) eqn:He; simpl; intros ?; simplify_eq; try done.
  - specialize (Hupd true).
    pose proof (count_evictable_update (map_ r) f (FrameInfo_SetEvictable true) fi Hat) as Hc.
    unfold flag in Hc. rewrite He in Hc. simpl in Hc.
    replace (size_t_wrap (curr_size_ r + 1)) with
      (Z.of_nat (count_evictable (map_update (map_ r) f (FrameInfo_SetEvictable true))));
      [done|].
    rewrite (rw_count _ _ _ Hw), size_t_wrap_small; [lia|].
    pose proof (count_evictable_le (map_update (map_ r) f (FrameInfo_SetEvictable true))) as Hcl'.
    assert (length (map_update (map_ r) f (FrameInfo_SetEvictable true)) = length (map_ r)) as Hlen.
    { rewrite <- (length_fmap fst), map_update_keys. by rewrite length_fmap. }
    lia.
  - specialize (Hupd false).
    pose proof (count_evictable_update (map_ r) f (FrameInfo_SetEvictable false) fi Hat) as Hc.
    unfold flag in Hc. rewrite He in Hc. simpl in Hc.
    replace (size_t_wrap (curr_size_ r - 1)) with
      (Z.of_nat (count_evictable (map_update (map_ r) f (FrameInfo_SetEvictable false))));
      [done|].
    rewrite (rw_count _ _ _ Hw), size_t_wrap_small; lia.
Qed.

(** Erasing an evictable entry and decrementing [curr_size_]. *)
Lemma erase_wf n k f fi r :
  n + 1 < 2 ^ 64 ->
  replacer_wf n k r -> map_at (map_ r) f = Some fi -> IsEvictable fi = true ->
  replacer_wf n k
    (set_curr_size (size_t_wrap (curr_size_ r - 1))
       (set_map (map_erase (map_ r) f) r)).
Proof.
  intros Hn Hw Hat He.
  pose proof (replacer_wf_count_le n k r Hw) as Hle.
  pose proof (replacer_wf_count_pos n k r f fi Hw Hat He) as Hpos.
  split; simpl; try apply Hw.
  - apply map_erase_NoDup, Hw.
  - intros g fig Hg%map_erase_elem. by eapply (rw_ids _ _ _ Hw).
  - intros g fig Hg%map_erase_elem. by eapply (rw_hist _ _ _ Hw).
  - pose proof (count_evictable_erase (map_ r) f fi Hat) as Hc.
    unfold flag in Hc. rewrite He in Hc.
    rewrite size_t_wrap_small by lia. rewrite (rw_count _ _ _ Hw). lia.
Qed.

Lemma Remove_wf n k f r r' :
  n + 1 < 2 ^ 64 ->
  replacer_wf n k r -> Remove f r = Ok r' -> replacer_wf n k r'.
Proof.
  intros Hn Hw. unfold Remove. destruct (negb _); [done|].
  destruct (map_at (map_ r) f) as [fi|] eqn:Hat; [|by intros; simplify_eq].
  destruct (IsEvictable fi) eqn:He; simpl; [|done].
  intros ?; simplify_eq. by eapply erase_wf.
Qed.

Lemma Evict_Ok_Some tmax r f r' :
  Evict tmax r = Ok (Some f, r') ->
  r' = set_curr_size (size_t_wrap (curr_size_ r - 1))
         (set_map (map_erase (map_ r) f) r).
Proof.
  unfold Evict. destruct (_ =? _); [done|].
  intros He. apply bind_Ok in He as (fi & _ & He).
  apply bind_Ok in He as (info & _ & He).
  apply bind_Ok in He as (tgt & _ & He). by simplify_eq.
Qed.

Lemma Evict_wf tmax n k r x :
  n + 1 < 2 ^ 64 ->
  replacer_wf n k r -> Evict tmax r = Ok x -> replacer_wf n k x.2.
Proof.
  intros Hn Hw He. destruct x as [[f|] r'].
  - pose proof (Evict_Ok_Some _ _ _ _ He) as ->.
    apply Evict_Some in He as ((fi & Hat & Hev) & _); [|apply Hw].
    by eapply erase_wf.
  - by apply Evict_None in He as ->.
Qed.

Lemma replacer_run_wf tmax n k o r r' :
  n + 1 < 2 ^ 64 ->
  replacer_wf n k r -> run tmax o r = Ok r' -> replacer_wf n k r'.
Proof.
  intros Hn Hw. destruct o as [f|f b|f|]; simpl.
  - by apply RecordAccess_wf.
  - by apply SetEvictable_wf.
  - by apply Remove_wf.
  - intros (x & He & ?)%bind_Ok. simplify_eq. by eapply Evict_wf.
Qed.

Lemma reachable_replacer_wf tmax n k r :
  n + 1 < 2 ^ 64 -> reachable tmax n k r -> replacer_wf n k r.
Proof.
  intros Hn. induction 1; [apply replacer_wf_new|by eapply replacer_run_wf].
Qed.

Lemma reachable_runs tmax n k ops r r' :
  reachable tmax n k r -> runs tmax ops r = Ok r' -> reachable tmax n k r'.
Proof.
  revert r. induction ops as [|o ops IH]; simpl; intros r Hr Hruns.
  - by simplify_eq.
  - apply bind_Ok in Hruns as (r1 & Hrun & Hruns).
    eapply IH; [|done]. by eapply reachable_step.
Qed.

Lemma lruk_state_reachable tmax : reachable tmax 3 2 (lruk_state lruk_entries).
Proof.
  apply (reachable_runs tmax 3 2
           [record_access 0; record_access 0; record_access 1; record_access 2;
            record_access 1; set_evictable 0 true; set_evictable 1 true]
           (LRUKReplacer_new 3 2)); [apply reachable_new|reflexivity].
Qed.

(** *** [Size] *)

(** X1.  In every replacer reached from a new one by [RecordAccess],
    [SetEvictable], [Remove] and [Evict], [Size] is the number of entries
    whose evictable flag is set.  The frame ids [0 .. num_frames] pass
    [CheckFrameId], so the replacer tracks at most [num_frames + 1] frames
    and [curr_size_] never wraps. *)
Theorem Size_counts_evictable tmax n k r :
  n + 1 < 2 ^ 64 -> reachable tmax n k r ->
  Size r = Z.of_nat (length (filter (fun e => IsEvictable e.2 = true) (map_ r))) /\
  Size r <= Z.of_nat (length (map_ r)) <= Z.max 0 (n + 1).
Proof.
  intros Hn Hw%reachable_replacer_wf; [|done]. unfold Size.
  split; [apply (rw_count _ _ _ Hw)|]. rewrite (rw_count _ _ _ Hw).
  pose proof (count_evictable_le (map_ r)).
  pose proof (keys_in_range_length (map_ r) n (rw_nodup _ _ _ Hw) (rw_ids _ _ _ Hw)).
  lia.
Qed.

Lemma Size_counts_evictable_witness :
  3 + 1 < 2 ^ 64 /\ reachable (2 ^ 64 - 1) 3 2 (lruk_state lruk_entries) /\
  Size (lruk_state lruk_entries) = 2 /\
  length (filter (fun e => IsEvictable e.2 = true) (map_ (lruk_state lruk_entries)))
    = 2%nat.
Proof.
  split; [lia|]. split; [apply lruk_state_reachable|].
  destruct (Size_counts_evictable (2 ^ 64 - 1) 3 2 (lruk_state lruk_entries))
    as [Hsize _]; [lia|apply lruk_state_reachable|].
  split; [reflexivity|]. apply Nat2Z.inj. rewrite <- Hsize. reflexivity.
Defined.

(** *** What [Evict] chooses *)

Lemma vec_at_is_Some {A} (v : list A) i :
  0 <= i < Z.of_nat (length v) -> is_Some (vec_at v i).
Proof.
  intros Hi. unfold vec_at.
  destruct (Z.leb_spec 0 i); [|lia]. destruct (Z.ltb_spec i (Z.of_nat (length v))); [|lia].
  simpl. apply lookup_lt_is_Some. lia.
Qed.

Lemma vec_at_None {A} (v : list A) i :
  Z.of_nat (length v) <= i -> vec_at v i = None.
Proof.
  intros Hi. unfold vec_at.
  destruct (Z.ltb_spec i (Z.of_nat (length v))); [lia|]. by rewrite andb_false_r.
Qed.

Lemma GetAccessInfo_total tmax k fi :
  1 <= k < 2 ^ 64 -> fi_k_ fi = k ->
  Z.of_nat (length (access_timestamps_ fi)) <= k -> access_timestamps_ fi <> [] ->
  is_Some (GetAccessInfo tmax fi).
Proof.
  intros Hk Hfk Hlen Hne. unfold GetAccessInfo.
  assert (0 < Z.of_nat (length (access_timestamps_ fi))) as Hpos.
  { destruct (access_timestamps_ fi); [done|]. simpl length. lia. }
  destruct (vec_at_is_Some (access_timestamps_ fi) 0) as [ts0 ->]; [lia|]. simpl.
  rewrite Hfk. destruct (Z.ltb_spec (Z.of_nat (length (access_timestamps_ fi))) k); [done|].
  rewrite size_t_wrap_small by lia.
  destruct (vec_at_is_Some (access_timestamps_ fi) (k - 1)) as [tsk ->]; [lia|]. done.
Qed.

Lemma Evict_choice tmax n k r :
  n + 1 < 2 ^ 64 -> 1 <= k < 2 ^ 64 -> replacer_wf n k r ->
  ((forall g fig, map_at (map_ r) g = Some fig -> IsEvictable fig = false) /\
   Evict tmax r = Ok (None, r)) \/
  exists f fi info,
    map_at (map_ r) f = Some fi /\ IsEvictable fi = true /\
    GetAccessInfo tmax fi = Some info /\
    Evict tmax r =
      Ok (Some f, set_curr_size (curr_size_ r - 1)
                    (set_map (map_erase (map_ r) f) r)) /\
    forall g fig, map_at (map_ r) g = Some fig -> IsEvictable fig = true ->
      exists ig, GetAccessInfo tmax fig = Some ig /\ keeps_target ig info = true.
Proof.
  intros Hn Hk Hw.
  assert (forall g fig, (g, fig) ∈ map_ r -> is_Some (GetAccessInfo tmax fig)) as Hinfo.
  { intros g fig Hg. destruct (rw_hist _ _ _ Hw _ _ Hg) as (Hfk & Hlen & Hne).
    eapply GetAccessInfo_total; [done|done|lia|apply Hne; lia]. }
  destruct (decide (count_evictable (map_ r) = 0%nat)) as [Hz|Hnz].
  - left. rewrite count_evictable_zero in Hz. split.
    + intros g fig Hg%map_at_elem. by eapply Hz.
    + unfold Evict. by rewrite (first_evictable_none _ Hz).
  - right.
    assert (exists g fig, (g, fig) ∈ map_ r /\ IsEvictable fig = true) as (g0 & fig0 & Hg0 & He0).
    { destruct (decide (Exists (fun e => IsEvictable e.2 = true) (map_ r))) as [Hex|Hnex].
      - apply Exists_exists in Hex as ([g fig] & ? & ?). eauto.
      - destruct Hnz. apply count_evictable_zero. intros g fig Hg.
        destruct (IsEvictable fig) eqn:He; [|done]. destruct Hnex.
        apply Exists_exists. by exists (g, fig). }
    destruct (first_evictable_some _ _ _ Hg0 He0) as (fi1 & Hin1 & He1).
    pose proof (rw_ids _ _ _ Hw _ _ Hin1) as Hid1.
    pose proof (elem_map_at _ _ _ (rw_nodup _ _ _ Hw) Hin1) as Hat1.
    destruct (Hinfo _ _ Hin1) as [info1 Hinfo1].
    destruct (evict_scan_total tmax (map_ r) (first_evictable (map_ r), info1))
      as [tgt Hscan]; [by intros; eapply Hinfo|].
    destruct (evict_scan_max _ _ _ _ Hscan) as (_ & Hwho & Hall).
    assert (exists fi, (tgt.1, fi) ∈ map_ r /\ IsEvictable fi = true /\
                       GetAccessInfo tmax fi = Some tgt.2) as (fi & Hin & He & Hi).
    { destruct Hwho as [->|?]; [|done]. simpl. eauto. }
    exists tgt.1, fi, tgt.2.
    split; [by apply elem_map_at; [apply Hw|]|]. split; [done|]. split; [done|].
    split.
    + unfold Evict. destruct (Z.eqb_spec (first_evictable (map_ r)) (-1)) as [Heq|_]; [lia|].
      rewrite Hat1. simpl. rewrite Hinfo1. simpl. rewrite Hscan. simpl.
      rewrite size_t_wrap_small; [done|].
      pose proof (replacer_wf_count_le n k r Hw).
      pose proof (replacer_wf_count_pos n k r _ _ Hw Hat1 He1). lia.
    + intros g fig Hg%map_at_elem Heg.
      destruct (Hall _ _ Hg Heg) as (ig & Hig & Hkeep).
      exists ig. split; [done|]. done.
Qed.


(** X2.  What [Evict] does in a reachable replacer with [1 <= k]: with no
    evictable entry it returns [false] and changes nothing; otherwise it
    returns an evictable frame whose access info, as [GetAccessInfo]
    computes it, is not beaten by that of any evictable frame (a larger
    [k_distance_], or the same [k_distance_] and an earlier first
    timestamp), erases this frame's entry and decrements [curr_size_]. *)
Theorem Evict_returns_largest_access_info tmax n k r :
  n + 1 < 2 ^ 64 -> 1 <= k < 2 ^ 64 -> reachable tmax n k r ->
  ((forall g fig, map_at (map_ r) g = Some fig -> IsEvictable fig = false) /\
   Evict tmax r = Ok (None, r)) \/
  exists f fi info,
    map_at (map_ r) f = Some fi /\ IsEvictable fi = true /\
    GetAccessInfo tmax fi = Some info /\
    Evict tmax r =
      Ok (Some f, set_curr_size (curr_size_ r - 1)
                    (set_map (map_erase (map_ r) f) r)) /\
    forall g fig, map_at (map_ r) g = Some fig -> IsEvictable fig = true ->
      exists ig, GetAccessInfo tmax fig = Some ig /\
        (k_distance_ ig < k_distance_ info \/
         (k_distance_ ig = k_distance_ info /\
          earliest_access_timestamp_ info <= earliest_access_timestamp_ ig)).
Proof.
  intros Hn Hk Hw%reachable_replacer_wf; [|done].
  destruct (Evict_choice tmax n k r Hn Hk Hw) as [?|(f & fi & info & ? & ? & ? & ? & Hall)];
    [by left|right].
  exists f, fi, info. do 4 (split; [done|]). intros g fig Hg Heg.
  destruct (Hall g fig Hg Heg) as (ig & ? & ?%keeps_target_spec). eauto.
Qed.

Lemma Evict_returns_largest_access_info_witness :
  3 + 1 < 2 ^ 64 /\ 1 <= 2 < 2 ^ 64 /\
  reachable (2 ^ 64 - 1) 3 2 (lruk_state lruk_entries) /\
  exists f fi info,
    map_at lruk_entries f = Some fi /\ IsEvictable fi = true /\
    GetAccessInfo (2 ^ 64 - 1) fi = Some info /\
    Evict (2 ^ 64 - 1) (lruk_state lruk_entries) =
      Ok (Some f, set_curr_size 1 (set_map (map_erase lruk_entries f)
                                     (lruk_state lruk_entries))) /\
    forall g fig, map_at lruk_entries g = Some fig -> IsEvictable fig = true ->
      exists ig, GetAccessInfo (2 ^ 64 - 1) fig = Some ig /\
        (k_distance_ ig < k_distance_ info \/
         (k_distance_ ig = k_distance_ info /\
          earliest_access_timestamp_ info <= earliest_access_timestamp_ ig)).
Proof.
  split; [lia|]. split; [lia|]. split; [apply lruk_state_reachable|].
  destruct (Evict_returns_largest_access_info (2 ^ 64 - 1) 3 2 (lruk_state lruk_entries))
    as [[Hnone _]|H]; [lia|lia|apply lruk_state_reachable| |exact H].
  specialize (Hnone 0 lruk_frame0 eq_refl). discriminate Hnone.
Defined.

(** X3.  With [k = 0] an entry never holds a timestamp, and [Evict] reads
    [access_timestamps_[0]] of an empty vector as soon as one frame is
    evictable. *)
Theorem Evict_undefined_for_k_zero tmax n r :
  n + 1 < 2 ^ 64 -> reachable tmax n 0 r ->
  (forall f fi, map_at (map_ r) f = Some fi -> access_timestamps_ fi = []) /\
  ((exists f fi, map_at (map_ r) f = Some fi /\ IsEvictable fi = true) ->
   Evict tmax r = Abort).
Proof.
  intros Hn Hw%reachable_replacer_wf; [|done].
  assert (forall f fi, (f, fi) ∈ map_ r -> access_timestamps_ fi = []) as Hts.
  { intros f fi Hin. destruct (rw_hist _ _ _ Hw _ _ Hin) as (_ & Hlen & _).
    destruct (access_timestamps_ fi); [done|]. simpl in Hlen. lia. }
  split; [intros f fi Hat%map_at_elem; by eapply Hts|].
  intros (f & fi & Hat%map_at_elem & He).
  destruct (first_evictable_some _ _ _ Hat He) as (fi1 & Hin1 & He1).
  pose proof (rw_ids _ _ _ Hw _ _ Hin1) as Hid1.
  pose proof (elem_map_at _ _ _ (rw_nodup _ _ _ Hw) Hin1) as Hat1.
  unfold Evict. destruct (Z.eqb_spec (first_evictable (map_ r)) (-1)) as [Heq|_]; [lia|].
  rewrite Hat1. simpl. unfold GetAccessInfo. by rewrite (Hts _ _ Hin1).
Qed.

Lemma Evict_undefined_for_k_zero_witness :
  exists r,
    runs (2 ^ 64 - 1) [record_access 0; set_evictable 0 true] (LRUKReplacer_new 3 0)
      = Ok r /\
    3 + 1 < 2 ^ 64 /\ reachable (2 ^ 64 - 1) 3 0 r /\
    (exists f fi, map_at (map_ r) f = Some fi /\ IsEvictable fi = true) /\
    Evict (2 ^ 64 - 1) r = Abort.
Proof.
  eexists. split; [reflexivity|]. split; [lia|].
  assert (reachable (2 ^ 64 - 1) 3 0
            {| current_timestamp_ := 1; curr_size_ := 1; replacer_size_ := 3; k_ := 0;
               map_ := [(0, {| fi_k_ := 0; evictable_ := true;
                               access_timestamps_ := [] |})] |}) as Hr.
  { apply (reachable_runs (2 ^ 64 - 1) 3 0 [record_access 0; set_evictable 0 true]
             (LRUKReplacer_new 3 0)); [apply reachable_new|reflexivity]. }
  split; [exact Hr|].
  assert (exists f fi,
            map_at [(0, {| fi_k_ := 0; evictable_ := true; access_timestamps_ := [] |})] f
              = Some fi /\ IsEvictable fi = true) as Hev.
  { exists 0. eexists. split; reflexivity. }
  split; [exact Hev|].
  exact (proj2 (Evict_undefined_for_k_zero (2 ^ 64 - 1) 3 _ ltac:(lia) Hr) Hev).
Defined.

(** *** The iteration order of [map_] *)

(** The timestamps of the entries are below the clock, and no two entries
    share a timestamp. *)
Record clock_wf (r : LRUKReplacer) : Prop := {
  cw_clock : 0 <= current_timestamp_ r;
  cw_below : forall f fi t, (f, fi) ∈ map_ r -> t ∈ access_timestamps_ fi ->
             0 <= t < current_timestamp_ r;
  cw_apart : forall f fi g fig t, (f, fi) ∈ map_ r -> (g, fig) ∈ map_ r ->
             t ∈ access_timestamps_ fi -> t ∈ access_timestamps_ fig -> f = g
}.

Lemma FrameInfo_RecordAccess_elem now fi t :
  t ∈ access_timestamps_ (FrameInfo_RecordAccess now fi) ->
  t ∈ access_timestamps_ fi \/ t = now.
Proof.
  simpl. intros Ht.
  assert (t ∈ access_timestamps_ fi ++ [now]) as Hin.
  { destruct (_ <? _); [|done].
    destruct (access_timestamps_ fi ++ [now]); [done|]. by right. }
  apply elem_of_app in Hin as [?|?%list_elem_of_singleton]; auto.
Qed.

Lemma RecordAccess_clock_wf n k f r r' :
  replacer_wf n k r -> clock_wf r -> current_timestamp_ r + 1 < 2 ^ 64 ->
  RecordAccess f r = Ok r' ->
  clock_wf r' /\ current_timestamp_ r' = current_timestamp_ r + 1.
Proof.
  intros Hw Hc Hb. unfold RecordAccess. destruct (negb _); [done|].
  intros ?; simplify_eq.
  set (m := match map_at (map_ r) f with
            | Some _ => map_ r
            | None => (f, FrameInfo_new (k_ r)) :: map_ r
            end).
  assert (NoDup m.*1) as Hnd.
  { unfold m. destruct (map_at (map_ r) f) eqn:Hat; [apply Hw|].
    csimpl. apply NoDup_cons. split; [by apply map_at_None|apply Hw]. }
  assert (forall g fig, (g, fig) ∈ m ->
            (g, fig) ∈ map_ r \/ (g = f /\ access_timestamps_ fig = [])) as Hm.
  { unfold m. intros g fig Hg. destruct (map_at (map_ r) f); [by left|].
    apply elem_of_cons in Hg as [?|?]; [right; by simplify_eq|by left]. }
  pose proof (cw_clock _ Hc) as Hc0.
  assert (forall g fig t, (g, fig) ∈ m -> t ∈ access_timestamps_ fig ->
            0 <= t < current_timestamp_ r /\ (g, fig) ∈ map_ r) as Hold.
  { intros g fig t Hg Ht. destruct (Hm _ _ Hg) as [Hin|[-> Hnil]].
    - split; [by eapply (cw_below _ Hc)|done].
    - rewrite Hnil in Ht. by apply elem_of_nil in Ht. }
  assert (forall g fig t,
            (g, fig) ∈ map_update m f (FrameInfo_RecordAccess (current_timestamp_ r)) ->
            t ∈ access_timestamps_ fig ->
            (t = current_timestamp_ r /\ g = f) \/
            (0 <= t < current_timestamp_ r /\
             exists fig0, (g, fig0) ∈ map_ r /\ t ∈ access_timestamps_ fig0)) as Hnew.
  { intros g fig t Hg Ht.
    apply map_update_elem in Hg as [[Hg Hne]|(fi & Hg & ?)]; [| |done].
    - right. destruct (Hold _ _ _ Hg Ht). eauto.
    - simplify_eq. apply FrameInfo_RecordAccess_elem in Ht as [Ht| ->]; [|by left].
      right. destruct (Hold _ _ _ Hg Ht). eauto. }
  rewrite size_t_wrap_small by lia.
  split; [|done]. split; simpl.
  - lia.
  - intros g fig t Hg Ht. destruct (Hnew _ _ _ Hg Ht) as [[-> _]|[? _]]; lia.
  - intros g1 fig1 g2 fig2 t Hg1 Hg2 Ht1 Ht2.
    destruct (Hnew _ _ _ Hg1 Ht1) as [[-> ->]|[Hlt1 (fig1' & Hin1 & Ht1')]];
      destruct (Hnew _ _ _ Hg2 Ht2) as [[? ?]|[Hlt2 (fig2' & Hin2 & Ht2')]];
      try done; try lia.
    by eapply (cw_apart _ Hc).
Qed.

Lemma sub_clock_wf r r' :
  clock_wf r -> current_timestamp_ r' = current_timestamp_ r ->
  (forall g fig, (g, fig) ∈ map_ r' ->
     exists fig0, (g, fig0) ∈ map_ r /\ access_timestamps_ fig = access_timestamps_ fig0) ->
  clock_wf r'.
Proof.
  intros Hc Hclk Hsub. split.
  - rewrite Hclk. apply Hc.
  - intros g fig t Hg Ht. destruct (Hsub _ _ Hg) as (fig0 & Hin & Heq).
    rewrite Hclk. rewrite Heq in Ht. by eapply (cw_below _ Hc).
  - intros g1 fig1 g2 fig2 t Hg1 Hg2 Ht1 Ht2.
    destruct (Hsub _ _ Hg1) as (fig1' & Hin1 & Heq1).
    destruct (Hsub _ _ Hg2) as (fig2' & Hin2 & Heq2).
    rewrite Heq1 in Ht1. rewrite Heq2 in Ht2. by eapply (cw_apart _ Hc).
Qed.

Lemma run_clock_wf tmax n k o r r' :
  replacer_wf n k r -> clock_wf r -> current_timestamp_ r + 1 < 2 ^ 64 ->
  run tmax o r = Ok r' ->
  clock_wf r' /\ current_timestamp_ r' <= current_timestamp_ r + 1.
Proof.
  intros Hw Hc Hb. destruct o as [f|f b|f|]; simpl.
  - intros Hr. destruct (RecordAccess_clock_wf n k f r r' Hw Hc Hb Hr). split; [done|lia].
  - unfold SetEvictable. destruct (negb _); [done|].
    destruct (map_at (map_ r) f) as [fi|] eqn:Hat; [|done].
    assert (forall b' g fig,
              (g, fig) ∈ map_update (map_ r) f (FrameInfo_SetEvictable b') ->
              exists fig0, (g, fig0) ∈ map_ r /\
                           access_timestamps_ fig = access_timestamps_ fig0) as Hsub.
    { intros b' g fig Hg.
      apply map_update_elem in Hg as [[Hg _]|(fi' & Hg & ?)]; [| |apply Hw]; simplify_eq;
        eauto. }
    destruct b, (IsEvictable fi); simpl; intros ?; simplify_eq;
      (split; [|simpl; lia]); try done;
      (apply (sub_clock_wf r); [done|done|apply Hsub]).
  - unfold Remove. destruct (negb _); [done|].
    destruct (map_at (map_ r) f) as [fi|] eqn:Hat; [|intros; simplify_eq; split; [done|lia]].
    destruct (negb (IsEvictable fi)); [done|]. intros ?; simplify_eq.
    split; [|simpl; lia]. apply (sub_clock_wf r); [done|done|]. simpl.
    intros g fig Hg%map_erase_elem. eauto.
  - intros ([[f|] r1] & He & ?)%bind_Ok; simplify_eq; simpl.
    + pose proof (Evict_Ok_Some _ _ _ _ He) as ->.
      split; [|simpl; lia]. apply (sub_clock_wf r); [done|done|]. simpl.
      intros g fig Hg%map_erase_elem. eauto.
    + apply Evict_None in He as ->. split; [done|lia].
Qed.

Lemma runs_clock_wf tmax n k ops : forall r r',
  n + 1 < 2 ^ 64 -> replacer_wf n k r -> clock_wf r ->
  current_timestamp_ r + Z.of_nat (length ops) < 2 ^ 64 ->
  runs tmax ops r = Ok r' -> replacer_wf n k r' /\ clock_wf r'.
Proof.
  induction ops as [|o ops IH]; simpl; intros r r' Hn Hw Hc Hb Hruns.
  - by simplify_eq.
  - apply bind_Ok in Hruns as (r1 & Hrun & Hruns).
    destruct (run_clock_wf tmax n k o r r1 Hw Hc) as [Hc1 Hclk1]; [lia|done|].
    eapply (IH r1); [done|by eapply replacer_run_wf|done|lia|done].
Qed.

Lemma clock_wf_new n k : clock_wf (LRUKReplacer_new n k).
Proof.
  split; simpl; [done|by intros f fi t ?%elem_of_nil|by intros f fi g fig t ?%elem_of_nil].
Qed.

Lemma map_at_Permutation m m' f :
  NoDup m.*1 -> m' ≡ₚ m -> map_at m' f = map_at m f.
Proof.
  intros Hnd Hp. assert (NoDup m'.*1) as Hnd' by by rewrite Hp.
  destruct (map_at m f) as [fi|] eqn:Hm.
  - apply elem_map_at; [done|]. rewrite Hp. by apply map_at_elem.
  - apply map_at_None. rewrite Hp. by apply map_at_None.
Qed.

Lemma map_erase_Permutation m f fi :
  map_at m f = Some fi -> m ≡ₚ (f, fi) :: map_erase m f.
Proof.
  induction m as [|[f' fi'] m IH]; simpl; [done|].
  destruct (Z.eqb_spec f' f) as [->|]; intros Hm; [by simplify_eq|].
  rewrite (IH Hm) at 1. apply perm_swap.
Qed.

Lemma replacer_wf_Permutation n k r m :
  replacer_wf n k r -> m ≡ₚ map_ r -> replacer_wf n k (set_map m r).
Proof.
  intros Hw Hp. split; simpl; try apply Hw.
  - rewrite Hp. apply Hw.
  - intros f fi. rewrite Hp. apply (rw_ids _ _ _ Hw).
  - intros f fi. rewrite Hp. apply (rw_hist _ _ _ Hw).
  - rewrite (rw_count _ _ _ Hw). unfold count_evictable. by rewrite Hp.
Qed.

Lemma GetAccessInfo_earliest tmax fi info :
  GetAccessInfo tmax fi = Some info ->
  earliest_access_timestamp_ info ∈ access_timestamps_ fi.
Proof.
  unfold GetAccessInfo, vec_at. simpl.
  destruct (access_timestamps_ fi) as [|t0 ts] eqn:Hts; [done|]. simpl.
  assert (t0 ∈ t0 :: ts) as Hin by left. revert Hin. generalize (t0 :: ts). intros l Hin.
  destruct (_ <? _); simpl; [by intros; simplify_eq|].
  destruct (_ && _); simpl; [|done].
  destruct (l !! _); simpl; [|done]. by intros; simplify_eq.
Qed.

(** X4.  The choice of [Evict] does not depend on the order in which the
    [unordered_map] is iterated, as long as the clock has not wrapped: in a
    replacer reached by fewer than [2^64] calls, [Evict] returns the same
    frame for every order of the entries, and leaves the same entries. *)
Theorem Evict_independent_of_iteration_order tmax n k ops r m :
  n + 1 < 2 ^ 64 -> 1 <= k < 2 ^ 64 -> Z.of_nat (length ops) < 2 ^ 64 ->
  runs tmax ops (LRUKReplacer_new n k) = Ok r -> m ≡ₚ map_ r ->
  exists o r1 r2,
    Evict tmax r = Ok (o, r1) /\ Evict tmax (set_map m r) = Ok (o, r2) /\
    map_ r2 ≡ₚ map_ r1 /\ curr_size_ r2 = curr_size_ r1.
Proof.
  intros Hn Hk Hlen Hruns Hp.
  destruct (runs_clock_wf tmax n k ops (LRUKReplacer_new n k) r Hn
              (replacer_wf_new n k) (clock_wf_new n k)) as [Hw Hc]; [simpl; lia|done|].
  pose proof (replacer_wf_Permutation n k r m Hw Hp) as Hw'.
  assert (forall f, map_at m f = map_at (map_ r) f) as Hat.
  { intros f. apply map_at_Permutation; [apply Hw|done]. }
  destruct (Evict_choice tmax n k r Hn Hk Hw)
    as [[Hnone He]|(f & fi & info & Hf & Hef & Hi & He & Hmax)];
    destruct (Evict_choice tmax n k _ Hn Hk Hw')
      as [[Hnone' He']|(f' & fi' & info' & Hf' & Hef' & Hi' & He' & Hmax')];
    simpl in *.
  - exists None, r, (set_map m r). by rewrite He, He'.
  - rewrite Hat in Hf'. rewrite (Hnone _ _ Hf') in Hef'. done.
  - rewrite <- Hat in Hf. rewrite (Hnone' _ _ Hf) in Hef. done.
  - assert (f' = f) as ->.
    { destruct (Hmax f' fi') as (i1 & Hi1 & Hk1); [by rewrite <- Hat|done|].
      destruct (Hmax' f fi) as (i2 & Hi2 & Hk2); [by rewrite Hat|done|].
      assert (i1 = info') as -> by congruence. assert (i2 = info) as -> by congruence.
      apply keeps_target_spec in Hk1, Hk2.
      assert (earliest_access_timestamp_ info' = earliest_access_timestamp_ info)
        as Heq by lia.
      apply GetAccessInfo_earliest in Hi, Hi'. rewrite Heq in Hi'.
      rewrite Hat in Hf'. apply map_at_elem in Hf, Hf'.
      by eapply (cw_apart _ Hc). }
    eexists (Some f), _, _. split; [exact He|]. split; [exact He'|]. simpl.
    split; [|done]. apply (Permutation_cons_inv (a := (f, fi))).
    rewrite Hat in Hf'. simplify_eq.
    rewrite <- (map_erase_Permutation (map_ r) f fi) by done.
    rewrite <- (map_erase_Permutation m f fi) by by rewrite Hat. done.
Qed.

Lemma Evict_independent_of_iteration_order_witness :
  3 + 1 < 2 ^ 64 /\ 1 <= 2 < 2 ^ 64 /\
  runs (2 ^ 64 - 1)
    [record_access 0; record_access 0; record_access 1; record_access 2;
     record_access 1; set_evictable 0 true; set_evictable 1 true]
    (LRUKReplacer_new 3 2) = Ok (lruk_state lruk_entries) /\
  rev lruk_entries ≡ₚ lruk_entries /\
  exists o r1 r2,
    Evict (2 ^ 64 - 1) (lruk_state lruk_entries) = Ok (o, r1) /\
    Evict (2 ^ 64 - 1) (lruk_state (rev lruk_entries)) = Ok (o, r2) /\
    map_ r2 ≡ₚ map_ r1 /\ curr_size_ r2 = curr_size_ r1.
Proof.
  split; [lia|]. split; [lia|]. split; [reflexivity|].
  split; [exact (Permutation_sym (Permutation_rev lruk_entries))|].
  apply (Evict_independent_of_iteration_order (2 ^ 64 - 1) 3 2
           [record_access 0; record_access 0; record_access 1; record_access 2;
            record_access 1; set_evictable 0 true; set_evictable 1 true]
           (lruk_state lruk_entries) (rev lruk_entries));
    [lia|lia|simpl; lia|reflexivity|].
  exact (Permutation_sym (Permutation_rev lruk_entries)).
Defined.

(** *** The access history *)

(** The times at which [frame_id] is accessed when the accesses [frames]
    are recorded from time [t] on. *)
Fixpoint access_times (frame_id : Z) (frames : list Z) (t : Z) : list Z :=
  match frames with
  | [] => []
  | f :: frames' =>
      (if f =? frame_id then [t] else []) ++ access_times frame_id frames' (t + 1)
  end.

(** The newest [k] of a list of timestamps, oldest first. *)
Definition newest (k : Z) (ts : list Z) : list Z :=
  drop (length ts - Z.to_nat k) ts.

Lemma newest_all k ts : Z.of_nat (length ts) <= k -> newest k ts = ts.
Proof.
  intros Hlen. unfold newest.
  replace (length ts - Z.to_nat k)%nat with 0%nat by lia. done.
Qed.

Lemma newest_length k ts : 0 <= k -> Z.of_nat (length (newest k ts)) <= k.
Proof. intros Hk. unfold newest. rewrite length_drop. lia. Qed.

Lemma newest_app k a b : newest k (newest k a ++ b) = newest k (a ++ b).
Proof.
  unfold newest. rewrite !length_app, length_drop.
  destruct (decide (length a <= Z.to_nat k)%nat) as [Hle|Hgt].
  - replace (length a - Z.to_nat k)%nat with 0%nat by lia. simpl.
    by rewrite Nat.sub_0_r.
  - replace (length a - (length a - Z.to_nat k) + length b - Z.to_nat k)%nat
      with (length b) by lia.
    replace (length a + length b - Z.to_nat k)%nat
      with ((length a - Z.to_nat k) + length b)%nat by lia.
    rewrite <- drop_drop. rewrite (drop_app_le a) by lia. done.
Qed.

Lemma FrameInfo_RecordAccess_newest k t fi :
  0 <= k -> fi_k_ fi = k -> Z.of_nat (length (access_timestamps_ fi)) <= k ->
  FrameInfo_RecordAccess t fi =
  {| fi_k_ := k; evictable_ := evictable_ fi;
     access_timestamps_ := newest k (access_timestamps_ fi ++ [t]) |}.
Proof.
  intros Hk Hfk Hlen. unfold FrameInfo_RecordAccess. rewrite Hfk. f_equal.
  unfold newest. rewrite length_app. simpl.
  destruct (Z.ltb_spec k (Z.of_nat (length (access_timestamps_ fi) + 1))).
  - replace (length (access_timestamps_ fi) + 1 - Z.to_nat k)%nat with 1%nat by lia.
    by destruct (access_timestamps_ fi ++ [t]).
  - replace (length (access_timestamps_ fi) + 1 - Z.to_nat k)%nat with 0%nat by lia.
    done.
Qed.

Lemma RecordAccess_map_at f r :
  CheckFrameId r f = true ->
  exists r', RecordAccess f r = Ok r' /\
    current_timestamp_ r' = size_t_wrap (current_timestamp_ r + 1) /\
    curr_size_ r' = curr_size_ r /\ replacer_size_ r' = replacer_size_ r /\
    k_ r' = k_ r /\
    forall f', map_at (map_ r') f' =
      if decide (f = f')
      then Some (FrameInfo_RecordAccess (current_timestamp_ r)
                   (default (FrameInfo_new (k_ r)) (map_at (map_ r) f)))
      else map_at (map_ r) f'.
Proof.
  intros Hc. unfold RecordAccess. rewrite Hc. simpl. eexists. split; [done|].
  simpl. do 4 (split; [done|]). intros f'. rewrite map_at_update.
  case_decide as Hf.
  - subst f'. destruct (map_at (map_ r) f) as [fi|] eqn:Hm; simpl; [by rewrite Hm|].
    by rewrite Z.eqb_refl.
  - destruct (map_at (map_ r) f); [done|]. simpl.
    destruct (Z.eqb_spec f f'); [done|done].
Qed.

Lemma record_accesses_spec n k frames : forall r,
  0 <= k -> replacer_size_ r = n -> k_ r = k ->
  (forall f fi, map_at (map_ r) f = Some fi ->
     fi_k_ fi = k /\ Z.of_nat (length (access_timestamps_ fi)) <= k) ->
  (forall f, f ∈ frames -> 0 <= f <= n) ->
  0 <= current_timestamp_ r ->
  current_timestamp_ r + Z.of_nat (length frames) < 2 ^ 64 ->
  exists r', record_accesses frames r = Ok r' /\
    current_timestamp_ r' = current_timestamp_ r + Z.of_nat (length frames) /\
    curr_size_ r' = curr_size_ r /\
    forall f, map_at (map_ r') f =
      match map_at (map_ r) f with
      | Some fi =>
          Some {| fi_k_ := k; evictable_ := evictable_ fi;
                  access_timestamps_ :=
                    newest k (access_timestamps_ fi
                              ++ access_times f frames (current_timestamp_ r)) |}
      | None =>
          if decide (f ∈ frames)
          then Some {| fi_k_ := k; evictable_ := false;
                       access_timestamps_ :=
                         newest k (access_times f frames (current_timestamp_ r)) |}
          else None
      end.
Proof.
  induction frames as [|f0 fs IH]; intros r Hk Hn Hkr Hhist Hids Ht0 Hbound.
  - exists r. simpl. split; [done|]. split; [lia|]. split; [done|].
    intros f. destruct (map_at (map_ r) f) as [fi|] eqn:Hm.
    + destruct (Hhist _ _ Hm) as [Hfk Hlen]. rewrite app_nil_r, newest_all by done.
      destruct fi. simpl in *. by subst.
    + first [done|rewrite decide_False; [done|apply not_elem_of_nil]].
  - simpl in Hbound.
    destruct (RecordAccess_map_at f0 r) as (r1 & Hr1 & Hclk1 & Hsz1 & Hrs1 & Hk1 & Hm1).
    { apply CheckFrameId_spec. rewrite Hn. apply Hids. left. }
    rewrite size_t_wrap_small in Hclk1 by lia. rewrite Hkr in Hm1.
    assert (forall f,
              fi_k_ (default (FrameInfo_new k) (map_at (map_ r) f)) = k /\
              Z.of_nat (length (access_timestamps_
                 (default (FrameInfo_new k) (map_at (map_ r) f)))) <= k) as Hdef.
    { intros f. destruct (map_at (map_ r) f) as [fi|] eqn:Hm; simpl; [by apply (Hhist f)|].
      split; [done|lia]. }
    assert (forall f fi, map_at (map_ r1) f = Some fi ->
              fi_k_ fi = k /\ Z.of_nat (length (access_timestamps_ fi)) <= k) as Hhist1.
    { intros f fi. rewrite Hm1. case_decide as Hf; [|apply Hhist].
      intros [= <-]. destruct (Hdef f0) as [H1 H2].
      rewrite (FrameInfo_RecordAccess_newest k) by done. simpl.
      split; [done|]. by apply newest_length. }
    destruct (IH r1 Hk) as (r' & Hr' & Hclk' & Hsz' & Hm');
      [congruence|congruence|done|intros f Hf; apply Hids; by right|lia|lia|].
    exists r'. split; [simpl; by rewrite Hr1|].
    split; [simpl length; lia|]. split; [congruence|].
    intros f. rewrite Hm', Hm1, Hclk1. simpl access_times.
    case_decide as Hf.
    + subst f0. rewrite Z.eqb_refl. destruct (Hdef f) as [H1 H2].
      rewrite (FrameInfo_RecordAccess_newest k) by done. simpl.
      rewrite newest_app, <- app_assoc.
      destruct (map_at (map_ r) f) as [fi|] eqn:Hm; simpl; [done|].
      rewrite decide_True by left. done.
    + destruct (Z.eqb_spec f0 f); [done|]. simpl.
      destruct (map_at (map_ r) f) as [fi|] eqn:Hm; [done|].
      destruct (decide (f ∈ fs)) as [Hin|Hnin].
      * rewrite decide_True by by right. done.
      * rewrite decide_False; [done|]. rewrite not_elem_of_cons. done.
Qed.

(** X5.  Recording the accesses [frames] in a new replacer gives each
    accessed frame a non-evictable entry whose history is the newest [k] of
    the times at which the frame was accessed, the time of an access being
    its position in [frames]; the clock ends at the number of accesses and
    [Size] stays [0]. *)
Theorem RecordAccess_keeps_newest_k n k frames :
  0 <= k -> (forall f, f ∈ frames -> 0 <= f <= n) ->
  Z.of_nat (length frames) < 2 ^ 64 ->
  exists r, record_accesses frames (LRUKReplacer_new n k) = Ok r /\
    current_timestamp_ r = Z.of_nat (length frames) /\ Size r = 0 /\
    forall f, map_at (map_ r) f =
      if decide (f ∈ frames)
      then Some {| fi_k_ := k; evictable_ := false;
                   access_timestamps_ := newest k (access_times f frames 0) |}
      else None.
Proof.
  intros Hk Hids Hlen.
  destruct (record_accesses_spec n k frames (LRUKReplacer_new n k) Hk eq_refl eq_refl)
    as (r & Hr & Hclk & Hsz & Hm); [by intros f fi|done|done|simpl; lia|].
  exists r. split; [done|]. split; [done|]. split; [done|]. done.
Qed.

Lemma RecordAccess_keeps_newest_k_witness :
  0 <= 2 /\ (forall f, f ∈ [0; 0; 1; 2; 1] -> 0 <= f <= 3) /\
  Z.of_nat (length [0; 0; 1; 2; 1]) < 2 ^ 64 /\
  exists r, record_accesses [0; 0; 1; 2; 1] (LRUKReplacer_new 3 2) = Ok r /\
    map_at (map_ r) 1 =
      Some {| fi_k_ := 2; evictable_ := false; access_timestamps_ := [2; 4] |}.
Proof.
  assert (forall f, f ∈ [0; 0; 1; 2; 1] -> 0 <= f <= 3) as Hids.
  { intros f Hf. rewrite !elem_of_cons, elem_of_nil in Hf. lia. }
  split; [lia|]. split; [exact Hids|]. split; [simpl; lia|].
  destruct (RecordAccess_keeps_newest_k 3 2 [0; 0; 1; 2; 1])
    as (r & Hr & _ & _ & Hm); [lia|exact Hids|simpl; lia|].
  exists r. split; [exact Hr|]. rewrite (Hm 1). reflexivity.
Defined.

(** X23.  [Evict] forgets the frame it returns: in a reachable replacer
    with [1 <= k], an [Evict] that returns frame [f] leaves the replacer
    that [Remove] of [f] leaves, with no entry for [f] and [Size] one less;
    a following [RecordAccess] of [f] returns and gives [f] a non-evictable
    entry whose history is this one access, and leaves [Size] as it is. *)
Theorem Evict_forgets_the_frame tmax n k r f r1 :
  n + 1 < 2 ^ 64 -> 1 <= k ->
  reachable tmax n k r -> Evict tmax r = Ok (Some f, r1) ->
  Remove f r = Ok r1 /\
  map_at (map_ r1) f = None /\ Size r1 = Size r - 1 /\
  exists r2, RecordAccess f r1 = Ok r2 /\
    map_at (map_ r2) f =
      Some {| fi_k_ := k; evictable_ := false;
              access_timestamps_ := [current_timestamp_ r] |} /\
    Size r2 = Size r1.
Proof.
  intros Hn Hk Hreach He.
  pose proof (reachable_replacer_wf _ _ _ _ Hn Hreach) as Hw.
  pose proof (Evict_Ok_Some _ _ _ _ He) as Hr1.
  apply Evict_Some in He as ((fi & Hat & Hev) & _ & Hnone & _ & _);
    [|apply (rw_nodup _ _ _ Hw)].
  pose proof (rw_ids _ _ _ Hw _ _ (map_at_elem _ _ _ Hat)) as Hid.
  assert (CheckFrameId r f = true) as Hc
    by (apply CheckFrameId_spec; by rewrite (rw_size _ _ _ Hw)).
  pose proof (replacer_wf_count_pos _ _ _ _ _ Hw Hat Hev) as Hpos.
  pose proof (replacer_wf_count_le _ _ _ Hw) as Hle.
  split; [unfold Remove; rewrite Hc, Hat, Hev, Hr1; reflexivity|].
  split; [exact Hnone|].
  split; [rewrite Hr1; unfold Size; simpl; apply size_t_wrap_small; lia|].
  assert (CheckFrameId r1 f = true) as Hc1 by (by rewrite Hr1).
  destruct (RecordAccess_map_at f r1 Hc1) as (r2 & H2 & _ & Hs & _ & _ & Hm).
  exists r2. split; [done|]. split; [|done].
  rewrite Hm, decide_True, Hnone by done. simpl.
  assert (k_ r1 = k) as -> by (rewrite Hr1; apply (rw_k _ _ _ Hw)).
  assert (current_timestamp_ r1 = current_timestamp_ r) as -> by (by rewrite Hr1).
  unfold FrameInfo_RecordAccess. simpl.
  destruct (Z.ltb_spec k (Z.of_nat 1)); [lia|done].
Qed.

Lemma Evict_forgets_the_frame_witness :
  3 + 1 < 2 ^ 64 /\ 1 <= 2 /\ reachable (2 ^ 64 - 1) 3 2 (lruk_state lruk_entries) /\
  exists r1,
    Evict (2 ^ 64 - 1) (lruk_state lruk_entries) = Ok (Some 1, r1) /\
    Remove 1 (lruk_state lruk_entries) = Ok r1 /\
    Size r1 = 1 /\
    exists r2, RecordAccess 1 r1 = Ok r2 /\
      map_at (map_ r2) 1 =
        Some {| fi_k_ := 2; evictable_ := false; access_timestamps_ := [5] |}.
Proof.
  split; [lia|]. split; [lia|]. split; [apply lruk_state_reachable|].
  eexists. split; [reflexivity|].
  destruct (Evict_forgets_the_frame (2 ^ 64 - 1) 3 2 (lruk_state lruk_entries) 1 _
              ltac:(lia) ltac:(lia) (lruk_state_reachable _) eq_refl)
    as (Hrem & _ & Hsize & r2 & Hrec & Hm & _).
  split; [exact Hrem|]. split; [exact Hsize|]. exists r2. split; [exact Hrec|exact Hm].
Defined.

End LRUK_More.

(** ** More on the extendible hash table *)

Module EHT_More.

Import EHT Runs Runs_More Outcome_Facts EHT_Facts.

Local Open Scope nat_scope.

Section More.

Context {K V : Type} `{EqDecision K} `{EqDecision V}.
Variable hash : K -> N.

Abbreviation Bucket := (EHT.Bucket K V).
Abbreviation Table := (EHT.Table K V).
Abbreviation IndexOf := (EHT.IndexOf hash).
Abbreviation InsertInternal := (EHT.InsertInternal hash).
Abbreviation Insert := (EHT.Insert hash).
Abbreviation Find := (EHT.Find hash).
Abbreviation Remove := (EHT.Remove hash).
Abbreviation wf := (EHT_Facts.wf hash).
Abbreviation lookup := (EHT_Facts.lookup hash).
Abbreviation reachable := (EHT.reachable hash).

Lemma reachable_bucket_size bucket_size (t : Table) :
  reachable bucket_size t -> bucket_size_ t = bucket_size.
Proof.
  induction 1 as [|t t' fuel o Hreach IH Hrun]; [done|].
  pose proof (reachable_wf hash _ _ Hreach) as Hwf.
  destruct o as [k v|k|k]; simpl in Hrun.
  - apply InsertInternal_post in Hrun as (_ & _ & _ & _ & Hbs & _); [|done]. congruence.
  - destruct (Remove_spec hash t k Hwf) as (t0 & Heq & _ & _ & _ & _ & Hbs & _).
    rewrite Heq in Hrun. simpl in Hrun. simplify_eq. congruence.
  - rewrite Find_lookup in Hrun by done. simpl in Hrun. by simplify_eq.
Qed.

(** *** The table only grows *)

(** Every slot of [t] is a slot of [t'], with a bucket at least as deep. *)
Definition slots_deepen (t t' : Table) : Prop :=
  forall i b, bucket_at t i = Some b ->
    exists b', bucket_at t' i = Some b' /\ depth_ b <= depth_ b'.

Lemma slots_deepen_refl t : slots_deepen t t.
Proof. intros i b Hb. eauto. Qed.

Lemma slots_deepen_trans t1 t2 t3 :
  slots_deepen t1 t2 -> slots_deepen t2 t3 -> slots_deepen t1 t3.
Proof.
  intros H12 H23 i b Hb. destruct (H12 _ _ Hb) as (b2 & Hb2 & Hle2).
  destruct (H23 _ _ Hb2) as (b3 & Hb3 & Hle3). exists b3. split; [done|lia].
Qed.

Lemma bucket_at_Some (t : Table) i b :
  bucket_at t i = Some b <-> exists r, dir_ t !! i = Some r /\ heap_ t !! r = Some b.
Proof.
  unfold bucket_at. destruct (dir_ t !! i) as [r|]; simpl; [|naive_solver].
  split; [eauto|]. by intros (r' & [= <-] & ?).
Qed.

(** Replacing a bucket by one of the same depth. *)
Lemma bucket_at_update (t : Table) r b b' i :
  heap_ t !! r = Some b ->
  bucket_at (set_heap (<[r := b']> (heap_ t)) t) i =
  if decide (dir_ t !! i = Some r) then Some b' else bucket_at t i.
Proof.
  intros Hb. unfold bucket_at. simpl. case_decide as Hc.
  - rewrite Hc. simpl. apply list_lookup_insert_eq. by eapply lookup_lt_Some.
  - destruct (dir_ t !! i) as [r0|]; simpl; [|done].
    apply list_lookup_insert_ne. congruence.
Qed.

Lemma update_deepen (t : Table) r b b' :
  heap_ t !! r = Some b -> depth_ b' = depth_ b ->
  slots_deepen t (set_heap (<[r := b']> (heap_ t)) t).
Proof.
  intros Hb Hd i b0 Hb0. rewrite (bucket_at_update t r b b') by done.
  case_decide as Hc; [|eauto]. exists b'. split; [done|].
  apply bucket_at_Some in Hb0 as (r0 & Hr0 & Hb0). simplify_eq. lia.
Qed.

Lemma split_deepen (t : Table) idx r b :
  wf t -> dir_ t !! idx = Some r -> heap_ t !! r = Some b ->
  slots_deepen t (split_dir t idx (depth_ b)).
Proof.
  intros Hwf Hidx Hb i b0 (r0 & Hr0 & Hb0)%bucket_at_Some.
  pose proof (lookup_lt_Some _ _ _ Hr0) as Hi. rewrite (wf_length _ _ Hwf) in Hi.
  pose proof (split_depth_le hash t idx r b Hwf Hidx Hb) as Hg.
  pose proof (split_slot hash t idx r b Hwf Hidx Hb i) as Hslot.
  rewrite Nat.mod_small in Hslot by done.
  assert (i < 2 ^ global_depth_ (split_dir t idx (depth_ b))) as Hi1.
  { eapply Nat.lt_le_trans; [done|]. by apply Nat.pow_le_mono_r. }
  specialize (Hslot Hi1). rewrite Hr0 in Hslot.
  pose proof (split_heap t idx b) as Hheap.
  pose proof (lookup_lt_Some _ _ _ Hb0) as Hr0lt.
  case_decide as Hc.
  - simplify_eq. eexists. split.
    + apply bucket_at_Some. eexists. split; [exact Hslot|]. rewrite Hheap.
      destruct (Nat.testbit i (depth_ b)).
      * rewrite lookup_app_r by lia.
        replace (S (length (heap_ t)) - length (heap_ t)) with 1 by lia. done.
      * rewrite lookup_app_r by lia. rewrite Nat.sub_diag. done.
    + simpl. lia.
  - exists b0. split; [|done]. apply bucket_at_Some. exists r0. split; [done|].
    rewrite Hheap. by apply lookup_app_l_Some.
Qed.

Lemma redistribute_deepen (ins : K -> V -> Table -> res Empty_set Table) :
  (forall k v t t', wf t -> ins k v t = Ok t' -> wf t' /\ slots_deepen t t') ->
  forall items t t', wf t -> redistribute ins items t = Ok t' -> slots_deepen t t'.
Proof.
  intros Hins items. induction items as [|[k v] items IH]; intros t t' Hwf Hred.
  - simpl in Hred. simplify_eq. apply slots_deepen_refl.
  - simpl in Hred. apply bind_Ok in Hred as (t0 & Hi & Hred).
    destruct (Hins _ _ _ _ Hwf Hi) as [Hwf0 Hd0].
    eapply slots_deepen_trans; [done|]. by eapply IH.
Qed.

Lemma InsertInternal_deepen fuel key value (t t' : Table) :
  wf t -> InsertInternal fuel key value t = Ok t' -> slots_deepen t t'.
Proof.
  revert key value t t'. induction fuel as [|fuel IH]; intros key value t t' Hwf Hi; [done|].
  destruct (wf_index hash t key Hwf) as (r & b & Hr & Hb & Hok).
  simpl in Hi. rewrite Hr in Hi. simpl in Hi. rewrite Hb in Hi. simpl in Hi.
  destruct (Bucket_Insert key value b) as [b'|] eqn:Hins.
  - simplify_eq. destruct Hok as (_ & _ & Hlen & Hnd & _).
    apply (Bucket_Insert_Some hash) in Hins as (Hd' & _); [|done..].
    by eapply update_deepen.
  - apply bind_Ok in Hi as (t2 & Hred & Hi).
    assert (forall k v t t', wf t -> InsertInternal fuel k v t = Ok t' ->
              wf t' /\ slots_deepen t t') as Hstep.
    { intros k v t0 t0' Hwf0 Hi0. split; [|by eapply IH].
      by apply InsertInternal_post in Hi0 as (? & _). }
    pose proof (split_wf hash t _ r b Hwf Hr Hb) as Hwf1.
    pose proof (redistribute_deepen _ Hstep _ _ _ Hwf1 Hred) as Hd2.
    destruct Hok as (_ & _ & _ & Hnd & _).
    apply (redistribute_post hash _ (fun k v t t' Hw Hi => InsertInternal_post hash fuel k v t t' Hw Hi))
      in Hred as (Hwf2 & _); [|done..].
    eapply slots_deepen_trans; [by eapply split_deepen|].
    eapply slots_deepen_trans; [exact Hd2|]. by eapply IH.
Qed.

Lemma Remove_buckets (t : Table) key t' removed :
  wf t -> Remove key t = Ok (removed, t') ->
  dir_ t' = dir_ t /\ global_depth_ t' = global_depth_ t /\
  forall i, GetLocalDepth t' i = GetLocalDepth t i.
Proof.
  intros Hwf. destruct (wf_index hash t key Hwf) as (r & b & Hr & Hb & Hok).
  unfold EHT.Remove. rewrite Hr. simpl. rewrite Hb. simpl.
  destruct Hok as (_ & _ & _ & Hnd & _).
  pose proof (Bucket_Remove_spec hash key b Hnd) as Hrem.
  destruct (Bucket_Remove key b) as [removed' b'].
  destruct Hrem as (_ & Hd' & _). intros ?; simplify_eq.
  split; [done|]. split; [done|]. intros i. unfold GetLocalDepth.
  rewrite (bucket_at_update t r b b') by done. case_decide as Hc; [|done].
  unfold bucket_at. rewrite Hc. simpl. rewrite Hb. simpl. unfold GetDepth. congruence.
Qed.

(** X6.  No operation shrinks the table: the global depth, the directory
    and the local depth of every slot never decrease; [Remove] and [Find]
    leave the directory and all depths as they are (an emptied bucket is
    kept, buckets are never merged). *)
Theorem table_never_shrinks bucket_size (t : Table) fuel o t' :
  reachable bucket_size t -> run hash fuel o t = Ok t' ->
  GetGlobalDepth t <= GetGlobalDepth t' /\
  length (dir_ t) <= length (dir_ t') /\
  (forall i d, GetLocalDepth t i = Some d ->
     exists d', GetLocalDepth t' i = Some d' /\ d <= d') /\
  (forall key, o = remove key \/ o = find key ->
     dir_ t' = dir_ t /\ GetGlobalDepth t' = GetGlobalDepth t /\
     forall i, GetLocalDepth t' i = GetLocalDepth t i).
Proof.
  intros Hwf%reachable_wf Hrun. pose proof (run_wf hash fuel o t t' Hwf Hrun) as Hwf'.
  unfold GetGlobalDepth.
  assert (global_depth_ t <= global_depth_ t' /\ slots_deepen t t' /\
          forall key, o = remove key \/ o = find key ->
            dir_ t' = dir_ t /\ global_depth_ t' = global_depth_ t /\
            forall i, GetLocalDepth t' i = GetLocalDepth t i) as (Hg & Hd & Hsame).
  { destruct o as [k v|k|k]; simpl in Hrun.
    - split; [|split; [by eapply InsertInternal_deepen|by intros key [?|?]]].
      by apply InsertInternal_post in Hrun as (_ & _ & _ & _ & _ & ? & _).
    - apply bind_Ok in Hrun as ([removed t0] & Hrem & ?). simplify_eq. simpl.
      destruct (Remove_buckets t k t' removed Hwf Hrem) as (Hdir & Hgd & Hld).
      split; [lia|]. split; [|by intros].
      intros i b Hb. unfold GetLocalDepth in Hld. specialize (Hld i). rewrite Hb in Hld.
      destruct (bucket_at t' i) as [b'|]; [|done]. simpl in Hld. exists b'.
      split; [done|]. unfold GetDepth in Hld. injection Hld as Hld. lia.
    - rewrite Find_lookup in Hrun by done. simpl in Hrun. simplify_eq.
      split; [done|]. split; [apply slots_deepen_refl|by intros]. }
  split; [done|]. split.
  { rewrite (wf_length _ _ Hwf), (wf_length _ _ Hwf'). by apply Nat.pow_le_mono_r. }
  split; [|done]. intros i d. unfold GetLocalDepth.
  destruct (bucket_at t i) as [b|] eqn:Hb; [|done]. simpl. intros [= <-].
  destruct (Hd _ _ Hb) as (b' & -> & Hle). simpl. eauto.
Qed.

(** *** What the buckets hold *)

(** X7.  In a reachable table a bucket that a slot references has the
    table's capacity, holds no more items than that, and holds no key
    twice; every item of it is stored under the slot that its key indexes,
    so [Find] returns it. *)
Theorem buckets_hold_their_keys bucket_size (t : Table) i b :
  reachable bucket_size t -> bucket_at t i = Some b ->
  size_ b = bucket_size /\ length (list_ b) <= bucket_size /\
  NoDup (list_ b).*1 /\
  forall k v, (k, v) ∈ list_ b ->
    bucket_at t (IndexOf t k) = Some b /\ Find k t = Ok (Some v).
Proof.
  intros Hreach (r & Hr & Hb)%bucket_at_Some.
  pose proof (reachable_wf hash _ _ Hreach) as Hwf.
  pose proof (reachable_bucket_size _ _ Hreach) as Hbs.
  destruct (wf_slot _ _ Hwf _ _ Hr) as (b0 & Hb0 & Hok). simplify_eq.
  destruct Hok as (_ & Hs & Hlen & Hnd & _).
  split; [congruence|]. split; [lia|]. split; [done|].
  intros k v Hin.
  assert (dir_ t !! IndexOf t k = Some r) as Hrk.
  { eapply wf_routed; [done..|]. by apply (list_elem_of_fmap_2 fst) in Hin. }
  split; [apply bucket_at_Some; eauto|].
  rewrite Find_lookup by done. rewrite (lookup_bucket hash t k r b) by done.
  f_equal. by apply elem_items_find.
Qed.

(** *** A table of buckets without room *)

(** X8.  A table made with [bucket_size = 0] has no bucket with room, and
    a split makes two more such buckets: no [Insert] ever returns. *)
Theorem Insert_never_returns_for_bucket_size_zero (t : Table) fuel key value :
  reachable 0 t -> Insert fuel key value t = NoFuel.
Proof.
  intros Hreach.
  pose proof (reachable_wf hash _ _ Hreach) as Hwf.
  pose proof (reachable_bucket_size _ _ Hreach) as Hbs.
  destruct (wf_index hash t key Hwf) as (r & b & Hr & Hb & Hok).
  destruct Hok as (_ & Hs & Hlen & _).
  assert (list_ b = []) as Hnil.
  { destruct (list_ b); [done|]. simpl in Hlen. lia. }
  eapply InsertInternal_diverges; [done|done|done|..]; rewrite Hnil; simpl.
  - apply not_elem_of_nil.
  - lia.
  - by intros k ?%elem_of_nil.
Qed.

(** *** Operations that change nothing *)

Lemma items_overwrite_same key value (l : list (K * V)) :
  items_find key l = Some value -> items_overwrite key value l = Some l.
Proof.
  induction l as [|[k v] l IH]; simpl; [done|].
  case_decide; intros Hf; [by simplify_eq|]. by rewrite IH.
Qed.

Lemma set_list_same (b : Bucket) : set_list (list_ b) b = b.
Proof. by destruct b. Qed.

Lemma set_heap_same (t : Table) r b :
  heap_ t !! r = Some b -> set_heap (<[r := b]> (heap_ t)) t = t.
Proof. intros Hb. rewrite list_insert_id by done. by destruct t. Qed.

(** X9.  In a reachable table, inserting a binding that the table already
    holds and removing a key that it does not hold leave the table exactly
    as it is. *)
Theorem Insert_present_and_Remove_absent_change_nothing bucket_size (t : Table) k :
  reachable bucket_size t ->
  (forall v fuel, Find k t = Ok (Some v) -> Insert (S fuel) k v t = Ok t) /\
  (Find k t = Ok None -> Remove k t = Ok (false, t)).
Proof.
  intros Hwf%reachable_wf.
  destruct (wf_index hash t k Hwf) as (r & b & Hr & Hb & Hok).
  rewrite Find_lookup by done. rewrite (lookup_bucket hash t k r b) by done.
  split.
  - intros v fuel [= Hf]. unfold EHT.Insert. simpl.
    rewrite Hr. simpl. rewrite Hb. simpl.
    unfold Bucket_Insert. rewrite (items_overwrite_same _ _ _ Hf).
    by rewrite set_list_same, set_heap_same.
  - intros [= Hf]. unfold EHT.Remove. rewrite Hr. simpl. rewrite Hb. simpl.
    unfold Bucket_Remove. rewrite items_first_find, Hf. simpl.
    by rewrite set_heap_same.
Qed.

(** *** How inserts and removes compose *)

(** X10.  Inserts of two different keys commute as far as [Find] can tell,
    whatever splits they cause; and removing a key after inserting it
    leaves what removing it at once leaves. *)
Theorem inserts_commute bucket_size (t : Table) k1 v1 k2 v2 :
  reachable bucket_size t ->
  (forall f1 f2 f3 f4 t1 t12 t2 t21,
     k1 <> k2 ->
     Insert f1 k1 v1 t = Ok t1 -> Insert f2 k2 v2 t1 = Ok t12 ->
     Insert f3 k2 v2 t = Ok t2 -> Insert f4 k1 v1 t2 = Ok t21 ->
     forall k, Find k t12 = Find k t21) /\
  (forall f1 t1 x x',
     Insert f1 k1 v1 t = Ok t1 -> Remove k1 t1 = Ok x -> Remove k1 t = Ok x' ->
     x.1 = true /\ forall k, Find k x.2 = Find k x'.2).
Proof.
  intros Hwf%reachable_wf. split.
  - intros f1 f2 f3 f4 t1 t12 t2 t21 Hne H1 H12 H2 H21 k.
    apply InsertInternal_post in H1 as (Hwf1 & Hk1 & Ho1 & _); [|done].
    apply InsertInternal_post in H12 as (Hwf12 & Hk12 & Ho12 & _); [|done].
    apply InsertInternal_post in H2 as (Hwf2 & Hk2 & Ho2 & _); [|done].
    apply InsertInternal_post in H21 as (Hwf21 & Hk21 & Ho21 & _); [|done].
    rewrite !Find_lookup by done. f_equal.
    destruct (decide (k = k1)) as [->|Hn1]; [by rewrite Ho12, Hk1, Hk21|].
    destruct (decide (k = k2)) as [->|Hn2]; [by rewrite Hk12, Ho21, Hk2|].
    by rewrite Ho12, Ho1, Ho21, Ho2.
  - intros f1 t1 x x' H1 Hr1 Hr0.
    apply InsertInternal_post in H1 as (Hwf1 & Hk1 & Ho1 & _); [|done].
    destruct (Remove_spec hash t1 k1 Hwf1) as (t1' & Heq1 & Hwf1' & _ & _ & _ & _ & Hl1).
    destruct (Remove_spec hash t k1 Hwf) as (t0' & Heq0 & Hwf0' & _ & _ & _ & _ & Hl0).
    rewrite Heq1 in Hr1. rewrite Heq0 in Hr0. simplify_eq. simpl.
    split; [rewrite Hk1; by apply bool_decide_eq_true|].
    intros k. rewrite !Find_lookup by done. f_equal. rewrite Hl1, Hl0.
    case_decide; [done|]. by apply Ho1.
Qed.

(** *** When [Insert] splits *)

(** X11.  In a reachable table, an [Insert] of a key that is not present
    appends the pair to the bucket of the key's slot when that bucket has
    room, and returns without a recursive call, leaving every other bucket
    and the directory as they are.  When the bucket is full the call
    recurses, and if it returns, the local depth of that slot has grown. *)
Theorem Insert_splits_only_a_full_bucket bucket_size (t : Table) key value b :
  reachable bucket_size t ->
  bucket_at t (IndexOf t key) = Some b -> Find key t = Ok None ->
  (length (list_ b) < bucket_size ->
   exists r, dir_ t !! IndexOf t key = Some r /\
     Insert 1 key value t =
       Ok (set_heap (<[r := set_list (list_ b ++ [(key, value)]) b]> (heap_ t)) t)) /\
  (length (list_ b) = bucket_size ->
   Insert 1 key value t = NoFuel /\
   forall fuel t', Insert fuel key value t = Ok t' ->
     exists d', GetLocalDepth t' (IndexOf t key) = Some d' /\ depth_ b < d').
Proof.
  intros Hreach (r & Hr & Hb)%bucket_at_Some.
  pose proof (reachable_wf hash _ _ Hreach) as Hwf.
  pose proof (reachable_bucket_size _ _ Hreach) as Hbs.
  rewrite Find_lookup by done. rewrite (lookup_bucket hash t key r b) by done.
  intros [= Hf]. apply (items_find_None hash) in Hf as Hnin.
  destruct (wf_slot _ _ Hwf _ _ Hr) as (b0 & Hb0 & Hok). simplify_eq.
  destruct Hok as (_ & Hs & Hlen & Hnd & _).
  split.
  - intros Hroom. exists r. split; [done|]. unfold EHT.Insert. simpl.
    rewrite Hr. simpl. rewrite Hb. simpl. unfold Bucket_Insert.
    rewrite (proj2 (items_overwrite_None hash key value (list_ b)) Hnin).
    unfold IsFull. destruct (Nat.leb_spec (size_ b) (length (list_ b))); [lia|done].
  - intros Hfull.
    assert (Bucket_Insert key value b = None) as Hins
      by (apply (Bucket_Insert_None hash); split; [done|lia]).
    split.
    + unfold EHT.Insert. simpl. rewrite Hr. simpl. rewrite Hb. simpl. rewrite Hins.
      unfold GetItems. by destruct (list_ b) as [|[k v] l].
    + intros [|fuel] t' Hi; [done|]. unfold EHT.Insert in Hi. simpl in Hi.
      rewrite Hr in Hi. simpl in Hi. rewrite Hb in Hi. simpl in Hi. rewrite Hins in Hi.
      apply bind_Ok in Hi as (t2 & Hred & Hi).
      pose proof (split_wf hash t _ r b Hwf Hr Hb) as Hwf1.
      assert (slots_deepen (split_dir t (IndexOf t key) (depth_ b)) t') as Hd.
      { eapply slots_deepen_trans.
        - eapply (redistribute_deepen (InsertInternal fuel)); [|done|done].
          intros k v t0 t0' Hwf0 Hi0. split; [|by eapply InsertInternal_deepen].
          by apply InsertInternal_post in Hi0 as (? & _).
        - eapply InsertInternal_deepen; [|done].
          apply (redistribute_post hash (InsertInternal fuel)) in Hred as (? & _);
            [done|by intros; eapply InsertInternal_post|done|done]. }
      pose proof (split_slot hash t _ r b Hwf Hr Hb (IndexOf t key)) as Hslot.
      pose proof (IndexOf_lt hash t key) as Hlt.
      pose proof (split_depth_le hash t _ r b Hwf Hr Hb) as Hg.
      rewrite Nat.mod_small, decide_True in Hslot by done.
      destruct (Hd (IndexOf t key) (Bucket_new (bucket_size_ t) (depth_ b + 1)))
        as (b' & Hb' & Hle).
      { apply bucket_at_Some. eexists. split.
        - apply Hslot. eapply Nat.lt_le_trans; [done|]. by apply Nat.pow_le_mono_r.
        - rewrite (split_heap t _ b). destruct (Nat.testbit _ _).
          + rewrite lookup_app_r by lia.
            replace (S (length (heap_ t)) - length (heap_ t)) with 1 by lia. done.
          + rewrite lookup_app_r by lia. rewrite Nat.sub_diag. done. }
      exists (depth_ b'). unfold GetLocalDepth. rewrite Hb'. simpl.
      split; [done|]. simpl in Hle. lia.
Qed.

End More.

Lemma table_never_shrinks_witness :
  exists t',
    run page_hash 64 (insert 2%Z 12%Z) table2 = Ok t' /\
    reachable page_hash 2 table2 /\
    GetGlobalDepth table2 = 0 /\ GetGlobalDepth t' = 1 /\
    GetGlobalDepth table2 <= GetGlobalDepth t' /\
    length (dir_ table2) <= length (dir_ t').
Proof.
  eexists. split; [vm_compute; reflexivity|].
  split; [exact table2_reachable|]. split; [reflexivity|]. split; [reflexivity|].
  edestruct (table_never_shrinks page_hash 2 table2 64 (insert 2%Z 12%Z))
    as (H1 & H2 & _); [exact table2_reachable|vm_compute; reflexivity|].
  split; [exact H1|exact H2].
Defined.

Lemma buckets_hold_their_keys_witness :
  reachable page_hash 2 table2 /\ bucket_at table2 0 = Some bucket2 /\
  length (list_ bucket2) <= 2 /\
  Find page_hash 1%Z table2 = Ok (Some 11%Z).
Proof.
  split; [exact table2_reachable|]. split; [reflexivity|].
  destruct (buckets_hold_their_keys page_hash 2 table2 0 bucket2 table2_reachable eq_refl)
    as (_ & Hlen & _ & Hfind).
  split; [exact Hlen|]. apply (Hfind 1%Z 11%Z). right. left.
Defined.

Lemma Insert_never_returns_for_bucket_size_zero_witness :
  reachable page_hash 0 (Table_new (K:=Z) (V:=Z) 0) /\
  Insert page_hash 5 1%Z 10%Z (Table_new 0) = NoFuel.
Proof.
  split; [apply reachable_new|].
  apply Insert_never_returns_for_bucket_size_zero. apply reachable_new.
Defined.

Lemma Insert_present_and_Remove_absent_change_nothing_witness :
  reachable page_hash 2 table2 /\
  Find page_hash 1%Z table2 = Ok (Some 11%Z) /\
  Insert page_hash 1 1%Z 11%Z table2 = Ok table2 /\
  Find page_hash 5%Z table2 = Ok None /\
  Remove page_hash 5%Z table2 = Ok (false, table2).
Proof.
  split; [exact table2_reachable|].
  assert (Find page_hash 1%Z table2 = Ok (Some 11%Z)) as H1 by (vm_compute; reflexivity).
  assert (Find page_hash 5%Z table2 = Ok None) as H5 by (vm_compute; reflexivity).
  split; [exact H1|]. split.
  - exact (proj1 (Insert_present_and_Remove_absent_change_nothing page_hash 2 table2 1%Z
                    table2_reachable) 11%Z 0 H1).
  - split; [exact H5|].
    exact (proj2 (Insert_present_and_Remove_absent_change_nothing page_hash 2 table2 5%Z
                    table2_reachable) H5).
Defined.

Lemma inserts_commute_witness :
  reachable page_hash 2 table2 /\ 2%Z <> 3%Z /\
  exists t1 t12 t2 t21,
    Insert page_hash 64 2%Z 12%Z table2 = Ok t1 /\
    Insert page_hash 64 3%Z 13%Z t1 = Ok t12 /\
    Insert page_hash 64 3%Z 13%Z table2 = Ok t2 /\
    Insert page_hash 64 2%Z 12%Z t2 = Ok t21 /\
    forall k, Find page_hash k t12 = Find page_hash k t21.
Proof.
  split; [exact table2_reachable|]. split; [lia|].
  do 4 eexists.
  split; [vm_compute; reflexivity|]. split; [vm_compute; reflexivity|].
  split; [vm_compute; reflexivity|]. split; [vm_compute; reflexivity|].
  eapply (proj1 (inserts_commute page_hash 2 table2 2%Z 12%Z 3%Z 13%Z table2_reachable)
            64 64 64 64);
    [lia|vm_compute; reflexivity..].
Defined.

Lemma Insert_splits_only_a_full_bucket_witness :
  reachable page_hash 2 table2 /\
  bucket_at table2 (EHT.IndexOf page_hash table2 2%Z) = Some bucket2 /\
  Find page_hash 2%Z table2 = Ok None /\ length (list_ bucket2) = 2 /\
  Insert page_hash 1 2%Z 12%Z table2 = NoFuel /\
  reachable page_hash 2 table_empty /\
  exists r, dir_ table_empty !! EHT.IndexOf page_hash table_empty 2%Z = Some r /\
    Insert page_hash 1 2%Z 12%Z table_empty =
      Ok (set_heap (<[r := set_list ([] ++ [(2%Z, 12%Z)]) (Bucket_new 2 0)]>
                      (heap_ table_empty)) table_empty).
Proof.
  split; [exact table2_reachable|]. split; [reflexivity|].
  assert (Find page_hash 2%Z table2 = Ok None) as Hf by (vm_compute; reflexivity).
  split; [exact Hf|]. split; [reflexivity|]. split.
  - exact (proj1 (proj2 (Insert_splits_only_a_full_bucket page_hash 2 table2 2%Z 12%Z
                           bucket2 table2_reachable eq_refl Hf) eq_refl)).
  - split; [apply reachable_new|].
    assert (Find page_hash 2%Z table_empty = Ok None) as Hf0
      by (vm_compute; reflexivity).
    apply (proj1 (Insert_splits_only_a_full_bucket page_hash 2 table_empty 2%Z 12%Z
                    (Bucket_new 2 0) (reachable_new _ 2) eq_refl Hf0)).
    simpl. lia.
Defined.

End EHT_More.


(** ** More on the buffer pool manager *)

Module BPM_More.

Import LRUK BPM Runs Runs_More Outcome_Facts LRUK_Facts EHT_Facts BPM_Facts LRUK_More.

Lemma vec_set_set {A} (v : list A) i x y :
  vec_set (vec_set v i x) i y = vec_set v i y.
Proof. apply list_insert_insert_eq. Qed.

Lemma RecordAccess_Ok_check f r r' :
  RecordAccess f r = Ok r' -> CheckFrameId r f = true.
Proof. unfold RecordAccess. by destruct (CheckFrameId r f). Qed.

Lemma SetEvictable_map_at f b r r' :
  SetEvictable f b r = Ok r' ->
  exists fi, map_at (map_ r) f = Some fi /\
    forall f', map_at (map_ r') f' =
      if decide (f = f') then Some (FrameInfo_SetEvictable b fi)
      else map_at (map_ r) f'.
Proof.
  unfold SetEvictable. destruct (negb _); [done|].
  destruct (map_at (map_ r) f) as [fi|] eqn:Hat; [|done].
  intros Hr. exists fi. split; [done|]. intros f'.
  assert (IsEvictable fi = b -> r' = r ->
          map_at (map_ r') f' =
          if decide (f = f') then Some (FrameInfo_SetEvictable b fi)
          else map_at (map_ r) f') as Hsame.
  { intros He ->. case_decide; [|done]. subst f'. rewrite Hat. f_equal.
    destruct fi. simpl in *. by subst. }
  destruct b, (IsEvictable fi) eqn:He; simpl in Hr; simplify_eq;
    try (by apply Hsame); simpl; rewrite map_at_update; case_decide; subst;
    by rewrite ?Hat.
Qed.

(** Recording an access to a frame and clearing its flag. *)
Lemma pinned_map_at t r1 r2 r3 :
  RecordAccess t r1 = Ok r2 -> SetEvictable t false r2 = Ok r3 ->
  (exists fi, map_at (map_ r3) t = Some fi /\ IsEvictable fi = false) /\
  (forall f, f <> t -> map_at (map_ r3) f = map_at (map_ r1) f).
Proof.
  intros H2 H3. pose proof (RecordAccess_Ok_check _ _ _ H2) as Hc.
  destruct (RecordAccess_map_at t r1 Hc) as (r2' & H2' & _ & _ & _ & _ & Hm2).
  rewrite H2 in H2'. injection H2' as <-.
  destruct (SetEvictable_map_at _ _ _ _ H3) as (fi & Hfi & Hm3).
  split.
  - exists (FrameInfo_SetEvictable false fi). by rewrite Hm3, decide_True.
  - intros f Hne. rewrite Hm3, decide_False by done. by rewrite Hm2, decide_False.
Qed.

Lemma SetEvictable_total f b r :
  CheckFrameId r f = true -> is_Some (map_at (map_ r) f) ->
  exists r', SetEvictable f b r = Ok r'.
Proof.
  intros Hc [fi Hfi]. unfold SetEvictable. rewrite Hc, Hfi. simpl.
  destruct b, (IsEvictable fi); simpl; eauto.
Qed.

Lemma Remove_total f r fi :
  CheckFrameId r f = true -> map_at (map_ r) f = Some fi -> IsEvictable fi = true ->
  Remove f r = Ok (set_curr_size (size_t_wrap (curr_size_ r - 1))
                     (set_map (map_erase (map_ r) f) r)).
Proof. intros Hc Hfi He. unfold Remove. by rewrite Hc, Hfi, He. Qed.

Section Pool.

Variable INVALID_PAGE_ID : Z.
Variable BUSTUB_PAGE_SIZE : nat.
Variable bucket_size_ : nat.
Variable BUSTUB_TIMESTAMP_MAX : Z.
Variable hash : Z -> N.

Abbreviation State := BufferPoolManagerInstance.
Abbreviation NewPgImp := (BPM.NewPgImp BUSTUB_PAGE_SIZE BUSTUB_TIMESTAMP_MAX hash).
Abbreviation FetchPgImp := (BPM.FetchPgImp BUSTUB_PAGE_SIZE BUSTUB_TIMESTAMP_MAX hash).
Abbreviation UnpinPgImp := (BPM.UnpinPgImp hash).
Abbreviation FlushPgImp := (BPM.FlushPgImp hash).
Abbreviation FlushAllPgsImp := (BPM.FlushAllPgsImp hash).
Abbreviation DeletePgImp := (BPM.DeletePgImp INVALID_PAGE_ID BUSTUB_PAGE_SIZE hash).
Abbreviation take_frame := (BPM.take_frame BUSTUB_TIMESTAMP_MAX).
Abbreviation run := (BPM.run INVALID_PAGE_ID BUSTUB_PAGE_SIZE BUSTUB_TIMESTAMP_MAX hash).
Abbreviation reachable :=
  (BPM.reachable INVALID_PAGE_ID BUSTUB_PAGE_SIZE bucket_size_ BUSTUB_TIMESTAMP_MAX hash).
Abbreviation pool_wf := (BPM_Facts.pool_wf hash).
Abbreviation lookup := (EHT_Facts.lookup hash).
Abbreviation Page_new := (BPM.Page_new INVALID_PAGE_ID BUSTUB_PAGE_SIZE).
Abbreviation zeroed := (BPM.zeroed BUSTUB_PAGE_SIZE).
Abbreviation ReadPage := (BPM.ReadPage BUSTUB_PAGE_SIZE).
Abbreviation Evict := (LRUK.Evict BUSTUB_TIMESTAMP_MAX).

(** No exception leaves the call. *)
Definition no_throw : State -> Prop := fun _ => False.

(** *** Taking a frame *)

(** [take_frame] took the front of the free list, or asked the replacer. *)
Definition took (s : State) (o : option Z) (s1 : State) : Prop :=
  match free_list_ s with
  | t :: rest => o = Some t /\ s1 = set_free_list rest s
  | [] => exists r, Evict (replacer_ s) = Ok (o, r) /\ s1 = set_replacer r s
  end.

Lemma wp_took s Q :
  (forall o s1, took s o s1 -> Q (o, s1)) -> wp (take_frame s) Q no_throw.
Proof.
  intros HQ. unfold BPM.take_frame, took in *.
  destruct (free_list_ s) as [|t rest].
  - apply wp_bind, wp_lift_replacer.
    + intros [o r] He. simpl. apply HQ. eauto.
    + intros e He. by apply Evict_no_Throw in He.
  - simpl. by apply HQ.
Qed.

(** *** Giving a frame to a page *)

(** Frame [t] of [s1] was given to page [p], with bytes [d]: the old page of
    the frame was written to disk if it was dirty and left the page table;
    the frame holds [p] with pin count 1, and keeps its dirty flag; the
    page table maps [p] to [t]; the replacer recorded an access to [t] and
    cleared its flag. *)
Record assigned (s1 : State) (t p : Z) (d : list byte) (s' : State) : Prop := {
  as_size : pool_size_ s' = pool_size_ s1;
  as_free : free_list_ s' = free_list_ s1;
  as_table : wf hash (page_table_ s');
  as_replacer : exists r2, RecordAccess t (replacer_ s1) = Ok r2 /\
                           SetEvictable t false r2 = Ok (replacer_ s');
  as_frame : exists pg,
    vec_at (pages_ s1) t = Some pg /\
    pages_ s' = vec_set (pages_ s1) t
                  {| data_ := d; page_id_ := p; pin_count_ := 1;
                     is_dirty_ := is_dirty_ pg |} /\
    disk_manager_ s' =
      (if is_dirty_ pg
       then WritePage (page_id_ pg) (data_ pg) (disk_manager_ s1)
       else disk_manager_ s1) /\
    forall q, lookup (page_table_ s') q =
      if decide (q = p) then Some t
      else if decide (q = page_id_ pg) then None
      else lookup (page_table_ s1) q
}.

Lemma write_back_spec t s Q :
  (forall pg, vec_at (pages_ s) t = Some pg ->
     Q (if is_dirty_ pg
        then set_disk (WritePage (page_id_ pg) (data_ pg) (disk_manager_ s)) s
        else s)) ->
  wp (write_back t s) Q no_throw.
Proof.
  intros HQ. unfold write_back. apply wp_bind, wp_of_option. intros pg Hpg. simpl.
  by apply HQ.
Qed.

Lemma table_remove_spec p s Q :
  wf hash (page_table_ s) ->
  (forall pt, wf hash pt ->
     (forall q, lookup pt q = if decide (q = p) then None
                              else lookup (page_table_ s) q) ->
     Q (set_page_table pt s)) ->
  wp (table_remove hash p s) Q no_throw.
Proof.
  intros Hwf HQ. unfold table_remove. apply wp_bind, wp_lift_table. intros [b pt] Hr.
  simpl.
  destruct (Remove_spec hash (page_table_ s) p Hwf) as (t' & Heq & Hwf' & _ & _ & _ & _ & Hl).
  rewrite Heq in Hr. simplify_eq. by apply HQ.
Qed.

Lemma table_insert_spec fuel p f s Q :
  wf hash (page_table_ s) ->
  (forall pt, wf hash pt ->
     (forall q, lookup pt q = if decide (q = p) then Some f
                              else lookup (page_table_ s) q) ->
     Q (set_page_table pt s)) ->
  wp (table_insert hash fuel p f s) Q no_throw.
Proof.
  intros Hwf HQ. unfold table_insert. apply wp_bind, wp_lift_table. intros pt Hi.
  simpl. apply InsertInternal_post in Hi as (Hwf' & Hk & Hoth & _); [|done].
  apply HQ; [done|]. intros q. case_decide; [by subst|by apply Hoth].
Qed.

(** Recording an access to [t] and clearing its flag never throws. *)
Lemma pin_spec {A} t s (k : State -> M A) Q :
  (forall r2 r3, RecordAccess t (replacer_ s) = Ok r2 ->
     SetEvictable t false r2 = Ok r3 -> wp (k (set_replacer r3 s)) Q no_throw) ->
  wp (do s <- replacer_call (RecordAccess t) s;
      do s <- replacer_call (SetEvictable t false) s; k s) Q no_throw.
Proof.
  intros HQ. apply wp_bind, wp_replacer_call.
  - intros r2 H2. apply wp_bind, wp_replacer_call; simpl.
    + intros r3 H3. replace (set_replacer r3 (set_replacer r2 s)) with (set_replacer r3 s)
        by by destruct s. by eapply HQ.
    + intros e He. apply SetEvictable_Throw in He.
      pose proof (RecordAccess_Ok_check _ _ _ H2) as Hc.
      destruct (RecordAccess_map_at t (replacer_ s) Hc) as (r2' & H2' & _ & _ & _ & _ & Hm2).
      rewrite H2 in H2'. injection H2' as <-. rewrite Hm2, decide_True in He by done. done.
  - intros e He. by apply RecordAccess_no_Throw in He.
Qed.

Lemma NewPgImp_tail fuel t s1 Q :
  wf hash (page_table_ s1) ->
  (forall s', assigned s1 t (next_page_id_ s1) zeroed s' ->
     next_page_id_ s' = (next_page_id_ s1 + 1 + 2 ^ 31) mod 2 ^ 32 - 2 ^ 31 ->
     Q (Some (next_page_id_ s1, t), s')) ->
  wp (do s <- write_back t s1;
      do pg <- of_option (vec_at (pages_ s) t);
      do s <- table_remove hash (GetPageId pg) s;
      do s <- upd_page t (ResetMemory BUSTUB_PAGE_SIZE) s;
      let '(new_id, s) := AllocatePage s in
      do s <- upd_page t (set_page_id new_id) s;
      do s <- upd_page t (set_pin_count 1) s;
      do s <- replacer_call (RecordAccess t) s;
      do s <- replacer_call (SetEvictable t false) s;
      do pg <- of_option (vec_at (pages_ s) t);
      do s <- table_insert hash fuel (page_id_ pg) t s;
      do pg <- of_option (vec_at (pages_ s) t);
      Ok (Some (GetPageId pg, t), s)) Q no_throw.
Proof.
  intros Hwf HQ.
  apply wp_bind, write_back_spec. intros pg0 Hpg0.
  set (s2 := if is_dirty_ pg0 then _ else s1).
  assert (pages_ s2 = pages_ s1 /\ page_table_ s2 = page_table_ s1 /\
          replacer_ s2 = replacer_ s1 /\ free_list_ s2 = free_list_ s1 /\
          pool_size_ s2 = pool_size_ s1 /\ next_page_id_ s2 = next_page_id_ s1 /\
          disk_manager_ s2 = (if is_dirty_ pg0
            then WritePage (page_id_ pg0) (data_ pg0) (disk_manager_ s1)
            else disk_manager_ s1)) as (Hp2 & Ht2 & Hr2 & Hf2 & Hs2 & Hn2 & Hd2).
  { unfold s2. by destruct (is_dirty_ pg0). }
  clearbody s2.
  apply wp_bind, wp_of_option. intros pg Hpg. rewrite Hp2, Hpg0 in Hpg. injection Hpg as <-.
  apply wp_bind, table_remove_spec; [by rewrite Ht2|]. intros pt Hwfpt Hpt.
  apply wp_bind, wp_upd_page. simpl. rewrite Hp2. intros pg Hpg.
  rewrite Hpg0 in Hpg. injection Hpg as <-.
  apply wp_bind, wp_upd_page. simpl. intros pg Hpg.
  rewrite (vec_at_set_eq _ _ _ _ Hpg0) in Hpg. injection Hpg as <-. rewrite vec_set_set.
  apply wp_bind, wp_upd_page. simpl. intros pg Hpg.
  rewrite (vec_at_set_eq _ _ _ _ Hpg0) in Hpg. injection Hpg as <-. rewrite vec_set_set.
  apply pin_spec. simpl. intros r2 r3 H2 H3.
  apply wp_bind, wp_of_option. simpl. intros pg Hpg.
  rewrite (vec_at_set_eq _ _ _ _ Hpg0) in Hpg. injection Hpg as <-. simpl.
  apply wp_bind, table_insert_spec; [exact Hwfpt|]. simpl. intros pt' Hwfpt' Hpt'.
  apply wp_bind, wp_of_option. simpl. intros pg Hpg.
  rewrite (vec_at_set_eq _ _ _ _ Hpg0) in Hpg. injection Hpg as <-. simpl.
  rewrite Hn2. apply HQ; [|done].
  split; simpl; [done|done|done| |].
  - exists r2. by rewrite <- Hr2.
  - exists pg0. split; [done|]. split; [done|]. split; [done|].
    intros q. rewrite Hpt', Hpt, Ht2. unfold GetPageId. by rewrite ?Hn2.
Qed.

Lemma FetchPgImp_tail fuel p t s1 Q :
  wf hash (page_table_ s1) ->
  (forall s', assigned s1 t p (ReadPage p (disk_manager_ s')) s' ->
     next_page_id_ s' = next_page_id_ s1 -> Q (Some t, s')) ->
  wp (do s <- write_back t s1;
      do pg <- of_option (vec_at (pages_ s) t);
      do s <- table_remove hash (GetPageId pg) s;
      do s <- upd_page t (ResetMemory BUSTUB_PAGE_SIZE) s;
      do s <- upd_page t (set_page_id p) s;
      do s <- upd_page t (set_pin_count 1) s;
      do pg <- of_option (vec_at (pages_ s) t);
      do s <- table_insert hash fuel (page_id_ pg) t s;
      do s <- upd_page t (set_data (ReadPage (page_id_ pg) (disk_manager_ s))) s;
      do s <- replacer_call (RecordAccess t) s;
      do s <- replacer_call (SetEvictable t false) s;
      Ok (Some t, s)) Q no_throw.
Proof.
  intros Hwf HQ.
  apply wp_bind, write_back_spec. intros pg0 Hpg0.
  set (s2 := if is_dirty_ pg0 then _ else s1).
  assert (pages_ s2 = pages_ s1 /\ page_table_ s2 = page_table_ s1 /\
          replacer_ s2 = replacer_ s1 /\ free_list_ s2 = free_list_ s1 /\
          pool_size_ s2 = pool_size_ s1 /\ next_page_id_ s2 = next_page_id_ s1 /\
          disk_manager_ s2 = (if is_dirty_ pg0
            then WritePage (page_id_ pg0) (data_ pg0) (disk_manager_ s1)
            else disk_manager_ s1)) as (Hp2 & Ht2 & Hr2 & Hf2 & Hs2 & Hn2 & Hd2).
  { unfold s2. by destruct (is_dirty_ pg0). }
  clearbody s2.
  apply wp_bind, wp_of_option. intros pg Hpg. rewrite Hp2, Hpg0 in Hpg. injection Hpg as <-.
  apply wp_bind, table_remove_spec; [by rewrite Ht2|]. intros pt Hwfpt Hpt.
  apply wp_bind, wp_upd_page. simpl. rewrite Hp2. intros pg Hpg.
  rewrite Hpg0 in Hpg. injection Hpg as <-.
  apply wp_bind, wp_upd_page. simpl. intros pg Hpg.
  rewrite (vec_at_set_eq _ _ _ _ Hpg0) in Hpg. injection Hpg as <-. rewrite vec_set_set.
  apply wp_bind, wp_upd_page. simpl. intros pg Hpg.
  rewrite (vec_at_set_eq _ _ _ _ Hpg0) in Hpg. injection Hpg as <-. rewrite vec_set_set.
  apply wp_bind, wp_of_option. simpl. intros pg Hpg.
  rewrite (vec_at_set_eq _ _ _ _ Hpg0) in Hpg. injection Hpg as <-. simpl.
  apply wp_bind, table_insert_spec; [exact Hwfpt|]. simpl. intros pt' Hwfpt' Hpt'.
  apply wp_bind, wp_upd_page. simpl. intros pg Hpg.
  rewrite (vec_at_set_eq _ _ _ _ Hpg0) in Hpg. injection Hpg as <-. rewrite vec_set_set.
  apply pin_spec. simpl. intros r2 r3 H2 H3.
  apply HQ; [|done].
  split; simpl; [done|done|done| |].
  - exists r2. by rewrite <- Hr2.
  - exists pg0. split; [done|]. split; [done|]. split; [done|].
    intros q. rewrite Hpt', Hpt, Ht2. done.
Qed.

(** *** [NewPgImp] and [FetchPgImp] *)

Definition NewPgImp_post (s : State) (x : option (Z * Z) * State) : Prop :=
  exists o s1, took s o s1 /\
    match o with
    | None => x = (None, s1)
    | Some t =>
        exists s', x = (Some (next_page_id_ s, t), s') /\
          assigned s1 t (next_page_id_ s) zeroed s' /\
          next_page_id_ s' = (next_page_id_ s + 1 + 2 ^ 31) mod 2 ^ 32 - 2 ^ 31
    end.

Lemma took_fields s o s1 :
  took s o s1 ->
  pages_ s1 = pages_ s /\ page_table_ s1 = page_table_ s /\
  next_page_id_ s1 = next_page_id_ s /\ disk_manager_ s1 = disk_manager_ s /\
  pool_size_ s1 = pool_size_ s.
Proof.
  unfold took. destruct (free_list_ s); [intros (r & _ & ->)|intros [_ ->]]; done.
Qed.

Lemma NewPgImp_spec fuel s :
  wf hash (page_table_ s) -> wp (NewPgImp fuel s) (NewPgImp_post s) no_throw.
Proof.
  intros Hwf. unfold BPM.NewPgImp. apply wp_bind, wp_took. intros o s1 Htook.
  destruct (took_fields _ _ _ Htook) as (_ & Ht1 & Hn1 & _).
  destruct o as [t|]; simpl.
  - apply NewPgImp_tail; [by rewrite Ht1|]. intros s' Has Hn.
    exists (Some t), s1. split; [done|]. exists s'. by rewrite <- Hn1.
  - exists None, s1. done.
Qed.

Definition FetchPgImp_post (p : Z) (s : State) (x : option Z * State) : Prop :=
  match lookup (page_table_ s) p with
  | Some f =>
      exists r, RecordAccess f (replacer_ s) = Ok r /\ x = (Some f, set_replacer r s)
  | None =>
      exists o s1, took s o s1 /\
        match o with
        | None => x = (None, s1)
        | Some t =>
            exists s', x = (Some t, s') /\
              assigned s1 t p (ReadPage p (disk_manager_ s')) s' /\
              next_page_id_ s' = next_page_id_ s
        end
  end.

Lemma FetchPgImp_spec fuel p s :
  wf hash (page_table_ s) -> wp (FetchPgImp fuel p s) (FetchPgImp_post p s) no_throw.
Proof.
  intros Hwf. unfold BPM.FetchPgImp, FetchPgImp_post. rewrite Find_lookup by done. simpl.
  destruct (lookup (page_table_ s) p) as [f|].
  - apply wp_bind, wp_replacer_call.
    + intros r Hr. simpl. eauto.
    + intros e He. by apply RecordAccess_no_Throw in He.
  - apply wp_bind, wp_took. intros o s1 Htook.
    destruct (took_fields _ _ _ Htook) as (_ & Ht1 & Hn1 & _).
    destruct o as [t|]; simpl.
    + apply FetchPgImp_tail; [by rewrite Ht1|]. intros s' Has Hn.
      exists (Some t), s1. split; [done|]. exists s'. by rewrite <- Hn1.
    + exists None, s1. done.
Qed.

(** *** The frames, the free list and the replacer *)

(** Pin counts are not negative; a frame that the page table maps a page
    to is tracked by the replacer, and evictable once its pin count is
    zero; the free list holds no frame twice, and a free frame is as the
    constructor made it, is not tracked by the replacer and is not in the
    page table. *)
Record pool_inv (s : State) : Prop := {
  pi_pins : forall f pg, vec_at (pages_ s) f = Some pg -> 0 <= pin_count_ pg;
  pi_resident : forall p f pg,
    lookup (page_table_ s) p = Some f -> vec_at (pages_ s) f = Some pg ->
    exists fi, map_at (map_ (replacer_ s)) f = Some fi /\
               (pin_count_ pg = 0 -> IsEvictable fi = true);
  pi_free_nodup : NoDup (free_list_ s);
  pi_free : forall f, f ∈ free_list_ s ->
    vec_at (pages_ s) f = Some Page_new /\
    map_at (map_ (replacer_ s)) f = None /\
    unmapped hash f s
}.

Lemma vec_at_replicate {A} (x : A) n f :
  0 <= f < Z.of_nat n -> vec_at (replicate n x) f = Some x.
Proof.
  intros Hf. unfold vec_at. rewrite length_replicate.
  destruct (Z.leb_spec 0 f); [|lia]. destruct (Z.ltb_spec f (Z.of_nat n)); [|lia].
  simpl. apply lookup_replicate. split; [done|lia].
Qed.

Lemma pool_inv_new pool_size disk replacer_k :
  pool_inv (BufferPoolManagerInstance_new INVALID_PAGE_ID BUSTUB_PAGE_SIZE bucket_size_
              pool_size disk replacer_k).
Proof.
  split; simpl.
  - intros f pg Hpg. unfold vec_at in Hpg. destruct (_ && _); [|done].
    apply lookup_replicate in Hpg as [-> _]. done.
  - intros p f pg. by rewrite lookup_new.
  - apply (NoDup_fmap_2 _). apply NoDup_seq.
  - intros f (i & -> & Hi%elem_of_seq)%list_elem_of_fmap.
    split; [apply vec_at_replicate; lia|]. split; [done|].
    intros p f'. simpl. by rewrite lookup_new.
Qed.

(** What the replacer holds after [take_frame]. *)
Lemma took_replacer n s t s1 :
  pool_wf n s -> took s (Some t) s1 ->
  (forall f, f <> t -> map_at (map_ (replacer_ s1)) f = map_at (map_ (replacer_ s)) f) /\
  ((exists rest, free_list_ s = t :: rest /\ free_list_ s1 = rest /\
                 replacer_ s1 = replacer_ s) \/
   (free_list_ s = [] /\ free_list_ s1 = [] /\
    LRUK.evictable (replacer_ s) t)).
Proof.
  intros Hw. unfold took. destruct (free_list_ s) as [|t0 rest] eqn:Hfl.
  - intros (r & He & ->). simpl.
    apply Evict_Some in He as (Hev & _ & _ & Hoth & _); [|apply (pw_nodup _ _ _ Hw)].
    split; [done|]. right. by rewrite Hfl.
  - intros [[= ->] ->]. simpl. split; [done|]. left. eauto.
Qed.

Lemma assigned_inv n s t s1 p d s' :
  pool_wf n s -> pool_inv s -> took s (Some t) s1 -> assigned s1 t p d s' ->
  pool_inv s'.
Proof.
  intros Hw Hi Htook Has.
  destruct (took_fields _ _ _ Htook) as (Hp1 & Ht1 & _).
  destruct (took_replacer n _ _ _ Hw Htook) as [Hr1 Hfree].
  destruct (as_replacer _ _ _ _ _ Has) as (r2 & H2 & H3).
  destruct (pinned_map_at _ _ _ _ H2 H3) as [(fit & Hfit & Hevt) Hoth].
  destruct (as_frame _ _ _ _ _ Has) as (pg0 & Hpg0 & Hpages & _ & Hl).
  rewrite Hp1 in Hpg0, Hpages. rewrite Ht1 in Hl.
  assert (forall f, f <> t -> vec_at (pages_ s') f = vec_at (pages_ s) f) as Hpo.
  { intros f Hne. rewrite Hpages. by eapply vec_at_set_ne. }
  assert (forall f, f <> t -> map_at (map_ (replacer_ s')) f
                               = map_at (map_ (replacer_ s)) f) as Hro.
  { intros f Hne. by rewrite Hoth, Hr1. }
  assert (forall q f, f <> t -> lookup (page_table_ s') q = Some f ->
                      lookup (page_table_ s) q = Some f) as Hlo.
  { intros q f Hne. rewrite Hl. case_decide; [congruence|]. by case_decide. }
  split.
  - intros f pg. destruct (decide (f = t)) as [->|Hne].
    + rewrite Hpages, (vec_at_set_eq _ _ _ _ Hpg0). intros [= <-]. simpl. lia.
    + rewrite Hpo by done. apply (pi_pins _ Hi).
  - intros q f pg Hq Hpg. destruct (decide (f = t)) as [->|Hne].
    + rewrite Hpages, (vec_at_set_eq _ _ _ _ Hpg0) in Hpg. injection Hpg as <-.
      exists fit. split; [done|]. simpl. lia.
    + rewrite Hro by done. rewrite Hpo in Hpg by done.
      eapply (pi_resident _ Hi); [|done]. by eapply Hlo.
  - rewrite (as_free _ _ _ _ _ Has).
    destruct Hfree as [(rest & Hfl & -> & _)|(_ & -> & _)]; [|constructor].
    pose proof (pi_free_nodup _ Hi) as Hnd. rewrite Hfl in Hnd.
    by apply NoDup_cons in Hnd as [_ ?].
  - intros f. rewrite (as_free _ _ _ _ _ Has).
    destruct Hfree as [(rest & Hfl & -> & _)|(_ & -> & _)]; [|by intros ?%elem_of_nil].
    intros Hf. pose proof (pi_free_nodup _ Hi) as Hnd. rewrite Hfl in Hnd.
    apply NoDup_cons in Hnd as [Hnin _].
    assert (f <> t) as Hne by (intros ->; done).
    destruct (pi_free _ Hi f) as (Hpg & Hm & Hun); [rewrite Hfl; by right|].
    rewrite Hpo, Hro by done. split; [done|]. split; [done|].
    intros q f' Hq ->. apply Hlo in Hq; [|done]. by eapply Hun.
Qed.

(** *** [UnpinPgImp] *)

Definition UnpinPgImp_post (p : Z) (d : bool) (s : State) (x : bool * State) : Prop :=
  match lookup (page_table_ s) p with
  | None => x = (false, s)
  | Some f =>
      exists pg, vec_at (pages_ s) f = Some pg /\
        if pin_count_ pg =? 0 then x = (false, s)
        else
          exists r',
            (if pin_count_ pg - 1 =? 0
             then SetEvictable f true (replacer_ s) = Ok r'
             else r' = replacer_ s) /\
            x = (true,
                 set_pages
                   (vec_set (pages_ s) f
                      {| data_ := data_ pg; page_id_ := page_id_ pg;
                         pin_count_ := pin_count_ pg - 1; is_dirty_ := d |})
                   (set_replacer r' s))
  end.

Lemma UnpinPgImp_spec n p d s :
  pool_wf n s -> pool_inv s ->
  exists x, UnpinPgImp p d s = Ok x /\ UnpinPgImp_post p d s x.
Proof.
  intros Hw Hi. unfold BPM.UnpinPgImp, UnpinPgImp_post.
  rewrite (pool_wf_Find hash n) by done. simpl.
  destruct (lookup (page_table_ s) p) as [f|] eqn:Hl; [|eauto].
  pose proof (pw_values _ _ _ Hw _ _ Hl) as Hv.
  destruct (valid_vec_at hash n s f Hw Hv) as [pg Hpg]. rewrite Hpg. simpl.
  unfold GetPinCount. destruct (pin_count_ pg =? 0) eqn:Hpin.
  { eexists. split; [reflexivity|]. exists pg. split; [done|]. by rewrite Hpin. }
  unfold upd_page at 1. rewrite Hpg. simpl.
  rewrite (vec_at_set_eq _ _ _ _ Hpg). simpl.
  destruct (pi_resident _ Hi _ _ _ Hl Hpg) as (fi & Hfi & _).
  destruct (pin_count_ pg - 1 =? 0) eqn:Hpin1.
  - destruct (SetEvictable_total f true (replacer_ s)) as [r' Hr'];
      [by eapply valid_CheckFrameId|by rewrite Hfi|].
    unfold replacer_call. simpl. rewrite Hr'. simpl.
    unfold upd_page. simpl. rewrite (vec_at_set_eq _ _ _ _ Hpg). simpl.
    rewrite vec_set_set. eexists. split; [reflexivity|].
    exists pg. split; [done|]. rewrite Hpin. exists r'. rewrite Hpin1.
    split; [done|]. by destruct s.
  - simpl. unfold upd_page. simpl. rewrite (vec_at_set_eq _ _ _ _ Hpg). simpl.
    rewrite vec_set_set. eexists. split; [reflexivity|].
    exists pg. split; [done|]. rewrite Hpin. exists (replacer_ s). rewrite Hpin1.
    split; [done|]. by destruct s.
Qed.

Lemma UnpinPgImp_inv n p d s x :
  pool_wf n s -> pool_inv s -> UnpinPgImp_post p d s x -> pool_inv x.2.
Proof.
  intros Hw Hi. unfold UnpinPgImp_post.
  destruct (lookup (page_table_ s) p) as [f|] eqn:Hl; [|by intros ->].
  intros (pg & Hpg & Hx).
  destruct (Z.eqb_spec (pin_count_ pg) 0) as [|Hpin]; [by subst x|].
  destruct Hx as (r' & Hr' & ->). simpl.
  pose proof (pi_pins _ Hi _ _ Hpg) as Hpos.
  assert (forall g, g <> f ->
            map_at (map_ r') g = map_at (map_ (replacer_ s)) g) as Hro.
  { intros g Hne. destruct (_ =? _); [|by subst].
    destruct (SetEvictable_map_at _ _ _ _ Hr') as (fi & _ & Hm).
    by rewrite Hm, decide_False. }
  assert (f ∉ free_list_ s) as Hnf.
  { intros Hf. destruct (pi_free _ Hi f Hf) as (_ & _ & Hun). by eapply Hun. }
  split; simpl.
  - intros g pg'. destruct (decide (f = g)) as [<-|Hne].
    + rewrite (vec_at_set_eq _ _ _ _ Hpg). intros [= <-]. simpl. lia.
    + rewrite (vec_at_set_ne _ _ _ _ _ Hpg) by done. apply (pi_pins _ Hi).
  - intros q g pg' Hq. destruct (decide (f = g)) as [<-|Hne].
    + rewrite (vec_at_set_eq _ _ _ _ Hpg). intros [= <-]. simpl.
      destruct (pi_resident _ Hi _ _ _ Hl Hpg) as (fi & Hfi & _).
      destruct (Z.eqb_spec (pin_count_ pg - 1) 0) as [Hz|Hnz].
      * destruct (SetEvictable_map_at _ _ _ _ Hr') as (fi' & _ & Hm).
        rewrite Hm, decide_True by done. eauto.
      * subst r'. exists fi. split; [done|lia].
    + rewrite (vec_at_set_ne _ _ _ _ _ Hpg) by done. rewrite Hro by done.
      intros Hpg'. by eapply (pi_resident _ Hi).
  - apply (pi_free_nodup _ Hi).
  - intros g Hg. assert (g <> f) as Hne by (intros ->; done).
    destruct (pi_free _ Hi g Hg) as (Hpg' & Hm & Hun).
    rewrite (vec_at_set_ne _ _ _ _ _ Hpg) by done. rewrite Hro by done. done.
Qed.

(** *** [DeletePgImp] *)

Definition DeletePgImp_post (p : Z) (s : State) (x : bool * State) : Prop :=
  match lookup (page_table_ s) p with
  | None => x = (true, s)
  | Some f =>
      exists pg, vec_at (pages_ s) f = Some pg /\
        if 0 <? pin_count_ pg then x = (false, s)
        else
          exists pt r',
            wf hash pt /\
            (forall q, lookup pt q = if decide (q = p) then None
                                     else lookup (page_table_ s) q) /\
            LRUK.Remove f (replacer_ s) = Ok r' /\
            x = (true,
                 set_free_list (free_list_ s ++ [f])
                   (set_pages (vec_set (pages_ s) f Page_new)
                      (set_replacer r' (set_page_table pt s))))
  end.

Lemma DeletePgImp_spec n p s :
  pool_wf n s -> pool_inv s ->
  exists x, DeletePgImp p s = Ok x /\ DeletePgImp_post p s x.
Proof.
  intros Hw Hi. unfold BPM.DeletePgImp, DeletePgImp_post.
  rewrite (pool_wf_Find hash n) by done. simpl.
  destruct (lookup (page_table_ s) p) as [f|] eqn:Hl; [|eauto].
  pose proof (pw_values _ _ _ Hw _ _ Hl) as Hv.
  destruct (valid_vec_at hash n s f Hw Hv) as [pg Hpg]. rewrite Hpg. simpl.
  unfold GetPinCount. destruct (0 <? pin_count_ pg) eqn:Hpin.
  { eexists. split; [reflexivity|]. exists pg. split; [done|]. by rewrite Hpin. }
  apply Z.ltb_ge in Hpin as Hpin'.
  pose proof (pi_pins _ Hi _ _ Hpg) as Hpos.
  destruct (pi_resident _ Hi _ _ _ Hl Hpg) as (fi & Hfi & Hev).
  destruct (Remove_spec hash (page_table_ s) p (pw_table _ _ _ Hw))
    as (pt & Heq & Hwf' & _ & _ & _ & _ & Hlpt).
  unfold table_remove. rewrite Heq. simpl.
  unfold replacer_call. simpl.
  rewrite (Remove_total f (replacer_ s) fi);
    [|by eapply valid_CheckFrameId|done|apply Hev; lia]. simpl.
  unfold upd_page. simpl. rewrite Hpg. simpl.
  repeat (first [rewrite vec_set_set|rewrite (vec_at_set_eq _ _ _ _ Hpg)]; simpl).
  eexists. split; [reflexivity|].
  exists pg. split; [done|]. rewrite Hpin. exists pt. eexists. split; [done|].
  split; [done|]. split; [reflexivity|]. done.
Qed.

Lemma DeletePgImp_inv n p s x :
  pool_wf n s -> pool_inv s -> DeletePgImp_post p s x -> pool_inv x.2.
Proof.
  intros Hw Hi. unfold DeletePgImp_post.
  destruct (lookup (page_table_ s) p) as [f|] eqn:Hl; [|by intros ->].
  intros (pg & Hpg & Hx).
  destruct (0 <? pin_count_ pg); [by subst x|].
  destruct Hx as (pt & r' & Hwfpt & Hpt & Hr' & ->). simpl.
  apply Remove_Ok in Hr' as (_ & Hro & Hrf); [|apply (pw_nodup _ _ _ Hw)].
  assert (forall q g, lookup pt q = Some g -> lookup (page_table_ s) q = Some g /\ g <> f)
    as Hlo.
  { intros q g. rewrite Hpt. case_decide as Hq; [done|]. intros Hg. split; [done|].
    intros ->. apply (pw_frames _ _ _ Hw) in Hg, Hl. rewrite Hpg in Hg, Hl.
    simpl in *. congruence. }
  assert (f ∉ free_list_ s) as Hnf.
  { intros Hf. destruct (pi_free _ Hi f Hf) as (_ & _ & Hun). by eapply Hun. }
  split; simpl.
  - intros g pg'. destruct (decide (f = g)) as [<-|Hne].
    + rewrite (vec_at_set_eq _ _ _ _ Hpg). by intros [= <-].
    + rewrite (vec_at_set_ne _ _ _ _ _ Hpg) by done. apply (pi_pins _ Hi).
  - intros q g pg' [Hq Hne]%Hlo.
    rewrite (vec_at_set_ne _ _ _ _ _ Hpg) by done. rewrite Hro by done.
    intros Hpg'. by eapply (pi_resident _ Hi).
  - apply NoDup_app. split; [apply (pi_free_nodup _ Hi)|]. split; [|apply NoDup_singleton].
    intros g Hg ->%list_elem_of_singleton. done.
  - intros g [Hg| ->%list_elem_of_singleton]%elem_of_app.
    + assert (g <> f) as Hne by (intros ->; done).
      destruct (pi_free _ Hi g Hg) as (Hpg' & Hm & Hun).
      rewrite (vec_at_set_ne _ _ _ _ _ Hpg) by done. rewrite Hro by done.
      split; [done|]. split; [done|]. intros q g' [Hq _]%Hlo ->. by eapply Hun.
    + rewrite (vec_at_set_eq _ _ _ _ Hpg). split; [done|]. split; [done|].
      intros q g' [_ Hne]%Hlo. done.
Qed.

(** *** Accesses to a resident frame *)

Lemma vec_set_same {A} (v : list A) i x : vec_at v i = Some x -> vec_set v i x = v.
Proof. intros Hx%vec_at_lookup. by apply list_insert_id. Qed.

(** [RecordAccess] on a frame that holds a page, with an update of the
    frame that keeps its pin count. *)
Lemma access_inv s p f pg pg' r' s' :
  pool_inv s -> lookup (page_table_ s) p = Some f ->
  vec_at (pages_ s) f = Some pg -> pin_count_ pg' = pin_count_ pg ->
  RecordAccess f (replacer_ s) = Ok r' ->
  page_table_ s' = page_table_ s -> free_list_ s' = free_list_ s ->
  replacer_ s' = r' -> pages_ s' = vec_set (pages_ s) f pg' ->
  pool_inv s'.
Proof.
  intros Hi Hl Hpg Hpin Hr' Ht Hf Hr Hp.
  pose proof (RecordAccess_Ok_check _ _ _ Hr') as Hc.
  destruct (RecordAccess_map_at f (replacer_ s) Hc) as (r2 & H2 & _ & _ & _ & _ & Hm).
  rewrite Hr' in H2. injection H2 as <-.
  destruct (pi_resident _ Hi _ _ _ Hl Hpg) as (fi & Hfi & Hev).
  assert (f ∉ free_list_ s) as Hnf.
  { intros Hin. destruct (pi_free _ Hi f Hin) as (_ & _ & Hun). by eapply Hun. }
  split; rewrite ?Ht, ?Hf, ?Hr, ?Hp.
  - intros g pg0. destruct (decide (f = g)) as [<-|Hne].
    + rewrite (vec_at_set_eq _ _ _ _ Hpg). intros [= <-]. rewrite Hpin.
      by apply (pi_pins _ Hi f).
    + rewrite (vec_at_set_ne _ _ _ _ _ Hpg) by done. apply (pi_pins _ Hi).
  - intros q g pg0 Hq. rewrite Hm. destruct (decide (f = g)) as [<-|Hne].
    + rewrite (vec_at_set_eq _ _ _ _ Hpg). intros [= <-]. rewrite Hfi. simpl.
      eexists. split; [done|]. simpl. rewrite Hpin. apply Hev.
    + rewrite (vec_at_set_ne _ _ _ _ _ Hpg) by done. intros Hpg0.
      by eapply (pi_resident _ Hi).
  - apply (pi_free_nodup _ Hi).
  - intros g Hg. assert (f <> g) as Hne by (intros ->; done).
    destruct (pi_free _ Hi g Hg) as (Hpg0 & Hm0 & Hun).
    rewrite (vec_at_set_ne _ _ _ _ _ Hpg) by done. rewrite Hm, decide_False by done.
    split; [done|]. split; [done|]. intros q g' Hq. eapply Hun. by rewrite <- Ht.
Qed.

Lemma wp_and {A} (c : M A) Q1 Q2 QE1 QE2 :
  wp c Q1 QE1 -> wp c Q2 QE2 ->
  wp c (fun a => Q1 a /\ Q2 a) (fun s => QE1 s /\ QE2 s).
Proof. by destruct c. Qed.

Lemma FlushPgImp_inv n p s :
  pool_wf n s -> pool_inv s -> wp (FlushPgImp p s) (fun x => pool_inv x.2) no_throw.
Proof.
  intros Hw Hi. destruct (lookup (page_table_ s) p) as [f|] eqn:Hl.
  - destruct (FlushPgImp_resident hash n s p f Hw)
      as (pg & r' & s' & Hpg & Hr' & -> & -> & _);
      [by rewrite (pool_wf_Find hash n), Hl|].
    simpl. by eapply (access_inv s p f pg (set_is_dirty false pg) r').
  - unfold BPM.FlushPgImp. rewrite (pool_wf_Find hash n), Hl by done. done.
Qed.

Lemma flush_from_inv n m i s :
  pool_wf n s -> pool_inv s -> wp (flush_from hash m i s) pool_inv no_throw.
Proof.
  revert i s. induction m as [|m IH]; intros i s Hw Hi; simpl; [done|].
  apply wp_bind, wp_of_option. intros pg _.
  apply wp_bind.
  eapply wp_wand;
    [exact (wp_and _ _ _ _ _ (FlushPgImp_pool_wf hash n (GetPageId pg) s Hw)
                             (FlushPgImp_inv n (GetPageId pg) s Hw Hi))| |by intros ? [_ ?]].
  intros [b s'] [Hw' Hi']. by apply IH.
Qed.

Lemma took_None s s1 :
  took s None s1 ->
  s1 = s /\ free_list_ s = [] /\ Evict (replacer_ s) = Ok (None, replacer_ s).
Proof.
  unfold took. destruct (free_list_ s); [|by intros [? _]].
  intros (r & He & ->). pose proof (Evict_None _ _ _ He) as ->.
  split; [by destruct s|done].
Qed.

Lemma run_inv n fuel o s :
  pool_wf n s -> pool_inv s -> wp (run fuel o s) pool_inv no_throw.
Proof.
  intros Hw Hi. pose proof (pw_table _ _ _ Hw) as Hwf. destruct o; simpl.
  - apply wp_bind. eapply wp_wand; [by apply NewPgImp_spec| |done].
    intros [o s'] (o' & s1 & Htook & Hpost). simpl. destruct o' as [t|].
    + destruct Hpost as (s2 & [= -> ->] & Has & _). by eapply assigned_inv.
    + injection Hpost as -> ->. by apply took_None in Htook as [-> _].
  - apply wp_bind. eapply wp_wand; [by apply FetchPgImp_spec| |done].
    intros [o s']. unfold FetchPgImp_post. simpl.
    destruct (lookup (page_table_ s) page_id) as [f|] eqn:Hl.
    + intros (r & Hr & [= -> ->]).
      destruct (valid_vec_at hash n s f Hw (pw_values _ _ _ Hw _ _ Hl)) as [pg Hpg].
      eapply (access_inv s page_id f pg pg r); try done. simpl.
      symmetry. by apply vec_set_same.
    + intros (o' & s1 & Htook & Hpost). destruct o' as [t|].
      * destruct Hpost as (s2 & [= -> ->] & Has & _). by eapply assigned_inv.
      * injection Hpost as -> ->. by apply took_None in Htook as [-> _].
  - destruct (UnpinPgImp_spec n page_id is_dirty s Hw Hi) as ([b s'] & -> & Hpost).
    simpl. by apply (UnpinPgImp_inv n page_id is_dirty s (b, s')).
  - apply wp_bind. eapply wp_wand; [by eapply FlushPgImp_inv|by intros []|done].
  - by eapply flush_from_inv.
  - destruct (DeletePgImp_spec n page_id s Hw Hi) as ([b s'] & -> & Hpost).
    simpl. by apply (DeletePgImp_inv n page_id s (b, s')).
Qed.

Lemma reachable_inv pool_size replacer_k s :
  reachable pool_size replacer_k s -> pool_inv s.
Proof.
  induction 1 as [disk|s s' Hreach IH Hstep]; [apply pool_inv_new|].
  pose proof (reachable_pool_wf _ _ _ _ _ _ _ _ Hreach) as Hw.
  destruct Hstep as [fuel o Hrun|fuel o Hrun];
    pose proof (run_inv pool_size fuel o s Hw IH) as Hwp; by rewrite Hrun in Hwp.
Qed.

(** *** The properties *)

(** X12.  No exception leaves a pool operation: in a reachable pool the
    replacer is only asked to change the flag of a frame it tracks, and to
    remove a frame that it does not track or that is evictable. *)
Theorem pool_operations_never_throw pool_size replacer_k s fuel o s' :
  reachable pool_size replacer_k s -> run fuel o s <> Throw s'.
Proof.
  intros Hreach Hrun.
  pose proof (reachable_pool_wf _ _ _ _ _ _ _ _ Hreach) as Hw.
  pose proof (run_inv pool_size fuel o s Hw (reachable_inv _ _ _ Hreach)) as Hwp.
  by rewrite Hrun in Hwp.
Qed.

Lemma Find_Some n s p f :
  pool_wf n s ->
  EHT.Find hash p (page_table_ s) = Ok (Some f) <-> lookup (page_table_ s) p = Some f.
Proof.
  intros Hw. rewrite (pool_wf_Find hash n) by done.
  split; [by intros [= ->]|by intros ->].
Qed.

(** X13.  In a reachable pool, the frame that the page table gives for a
    page is tracked by the replacer, its pin count is not negative, and the
    replacer reports it evictable exactly when its pin count is zero. *)
Theorem resident_frame_evictable_iff_unpinned pool_size replacer_k s p f :
  reachable pool_size replacer_k s ->
  EHT.Find hash p (page_table_ s) = Ok (Some f) ->
  exists pg fi,
    vec_at (pages_ s) f = Some pg /\ map_at (map_ (replacer_ s)) f = Some fi /\
    0 <= pin_count_ pg /\ (IsEvictable fi = true <-> pin_count_ pg = 0).
Proof.
  intros Hreach Hf.
  pose proof (reachable_pool_wf _ _ _ _ _ _ _ _ Hreach) as Hw.
  pose proof (reachable_inv _ _ _ Hreach) as Hi.
  pose proof (reachable_pin_safe _ _ _ _ _ _ _ _ Hreach) as [_ Hsafe].
  apply (Find_Some pool_size) in Hf; [|done].
  destruct (valid_vec_at hash _ s f Hw (pw_values _ _ _ Hw _ _ Hf)) as [pg Hpg].
  destruct (pi_resident _ Hi _ _ _ Hf Hpg) as (fi & Hfi & Hev).
  exists pg, fi. split; [done|]. split; [done|]. split; [by eapply (pi_pins _ Hi)|].
  split; [|done]. intros He. by eapply Hsafe.
Qed.

(** X14.  In a reachable pool the free list holds no frame twice, and a
    free frame is a frame of the pool that is as the constructor made it
    (zeroed, no page, not pinned, clean), that the replacer does not track
    and that the page table gives for no page. *)
Theorem free_frames_are_unused pool_size replacer_k s :
  reachable pool_size replacer_k s ->
  NoDup (free_list_ s) /\
  forall f, f ∈ free_list_ s ->
    0 <= f < Z.of_nat pool_size /\
    vec_at (pages_ s) f = Some Page_new /\
    map_at (map_ (replacer_ s)) f = None /\
    forall p, EHT.Find hash p (page_table_ s) <> Ok (Some f).
Proof.
  intros Hreach.
  pose proof (reachable_pool_wf _ _ _ _ _ _ _ _ Hreach) as Hw.
  pose proof (reachable_inv _ _ _ Hreach) as Hi.
  split; [apply (pi_free_nodup _ Hi)|]. intros f Hf.
  destruct (pi_free _ Hi f Hf) as (Hpg & Hm & Hun).
  split; [by apply (pw_free _ _ _ Hw)|]. split; [done|]. split; [done|].
  intros p Hp%(Find_Some pool_size); [|done]. by eapply Hun.
Qed.

(** X15.  In a reachable pool of [pool_size] frames, the page table gives
    for a page a frame of the pool that holds this page, and no frame for
    two pages. *)
Theorem page_table_gives_the_frame_of_the_page pool_size replacer_k s p f :
  reachable pool_size replacer_k s ->
  EHT.Find hash p (page_table_ s) = Ok (Some f) ->
  length (pages_ s) = pool_size /\ 0 <= f < Z.of_nat pool_size /\
  (exists pg, vec_at (pages_ s) f = Some pg /\ page_id_ pg = p) /\
  forall q, EHT.Find hash q (page_table_ s) = Ok (Some f) -> q = p.
Proof.
  intros Hreach Hf.
  pose proof (reachable_pool_wf _ _ _ _ _ _ _ _ Hreach) as Hw.
  apply (Find_Some pool_size) in Hf; [|done].
  pose proof (pw_frames _ _ _ Hw _ _ Hf) as Hid.
  destruct (vec_at (pages_ s) f) as [pg|] eqn:Hpg; [|done].
  simpl in Hid. injection Hid as Hid.
  split; [apply (pw_pages _ _ _ Hw)|]. split; [by apply (pw_values _ _ _ Hw _ _ Hf)|].
  split; [eauto|]. intros q Hq%(Find_Some pool_size); [|done].
  apply (pw_frames _ _ _ Hw) in Hq. rewrite Hpg in Hq. simpl in Hq. congruence.
Qed.

(** *** When no frame can be taken *)

Lemma first_evictable_minus1 m :
  first_evictable m = -1 -> (forall f fi, (f, fi) ∈ m -> 0 <= f) ->
  forall f fi, (f, fi) ∈ m -> IsEvictable fi = false.
Proof.
  induction m as [|[f0 fi0] m IH]; simpl; [by intros _ _ f fi ?%elem_of_nil|].
  intros Hfirst Hpos f fi Hin.
  destruct (IsEvictable fi0) eqn:He0.
  - specialize (Hpos f0 fi0 ltac:(left)). lia.
  - apply elem_of_cons in Hin as [[= -> ->]|Hin]; [done|].
    eapply IH; [done| |done]. intros g fig Hg. apply (Hpos g fig). by right.
Qed.

Lemma Evict_None_iff n s :
  pool_wf n s ->
  Evict (replacer_ s) = Ok (None, replacer_ s) <->
  forall f, ~ LRUK.evictable (replacer_ s) f.
Proof.
  intros Hw. split.
  - intros He f (fi & Hfi & Hev). unfold LRUK.Evict in He.
    destruct (Z.eqb_spec (first_evictable (map_ (replacer_ s))) (-1)) as [Hfirst|_].
    + apply map_at_elem in Hfi.
      rewrite (first_evictable_minus1 _ Hfirst) with (f := f) in Hev; [done| |done].
      intros g fig Hg%elem_map_at; [|apply (pw_nodup _ _ _ Hw)].
      apply (pw_tracked _ _ _ Hw) in Hg. unfold valid in Hg. lia.
    + apply bind_Ok in He as (? & _ & He). apply bind_Ok in He as (? & _ & He).
      apply bind_Ok in He as (? & _ & He). done.
  - intros Hnone. unfold LRUK.Evict. rewrite first_evictable_none; [done|].
    intros g fig Hg. destruct (IsEvictable fig) eqn:He; [|done].
    destruct (Hnone g). exists fig. split; [|done].
    apply elem_map_at; [apply (pw_nodup _ _ _ Hw)|done].
Qed.

Lemma took_None_iff n s s1 :
  pool_wf n s ->
  took s None s1 <->
  s1 = s /\ free_list_ s = [] /\ forall f, ~ LRUK.evictable (replacer_ s) f.
Proof.
  intros Hw. split.
  - intros (-> & Hfl & He)%took_None. by rewrite <- (Evict_None_iff n).
  - intros (-> & Hfl & He). unfold took. rewrite Hfl. exists (replacer_ s).
    split; [by apply (Evict_None_iff n)|by destruct s].
Qed.

(** What [assigned] says in terms of the public interface. *)
Definition frame_given (s : State) (f p : Z) (d : list byte) (s' : State) : Prop :=
  match free_list_ s with
  | t :: rest => f = t /\ free_list_ s' = rest
  | [] => LRUK.evictable (replacer_ s) f /\ free_list_ s' = []
  end /\
  exists old,
    vec_at (pages_ s) f = Some old /\
    vec_at (pages_ s') f =
      Some {| data_ := d; page_id_ := p; pin_count_ := 1;
              is_dirty_ := is_dirty_ old |} /\
    disk_manager_ s' =
      (if is_dirty_ old
       then WritePage (page_id_ old) (data_ old) (disk_manager_ s)
       else disk_manager_ s) /\
    (forall q, EHT.Find hash q (page_table_ s') =
       if decide (q = p) then Ok (Some f)
       else if decide (q = page_id_ old) then Ok None
       else EHT.Find hash q (page_table_ s)) /\
    ~ LRUK.evictable (replacer_ s') f /\
    forall g, g <> f ->
      vec_at (pages_ s') g = vec_at (pages_ s) g /\
      map_at (map_ (replacer_ s')) g = map_at (map_ (replacer_ s)) g.

Lemma assigned_frame_given n s t s1 p d s' :
  pool_wf n s -> took s (Some t) s1 -> assigned s1 t p d s' ->
  frame_given s t p d s'.
Proof.
  intros Hw Htook Has.
  destruct (took_fields _ _ _ Htook) as (Hp1 & Ht1 & _ & Hd1 & _).
  destruct (took_replacer n _ _ _ Hw Htook) as [Hr1 Hfree].
  destruct (as_replacer _ _ _ _ _ Has) as (r2 & H2 & H3).
  destruct (pinned_map_at _ _ _ _ H2 H3) as [(fit & Hfit & Hevt) Hoth].
  destruct (as_frame _ _ _ _ _ Has) as (pg0 & Hpg0 & Hpages & Hdisk & Hl).
  rewrite Hp1 in Hpg0, Hpages. rewrite Ht1 in Hl. rewrite Hd1 in Hdisk.
  split.
  - rewrite (as_free _ _ _ _ _ Has).
    destruct Hfree as [(rest & -> & -> & _)|(-> & -> & ?)]; done.
  - exists pg0. split; [done|]. split; [rewrite Hpages; by eapply vec_at_set_eq|].
    split; [done|]. split; [|split].
    + intros q. rewrite Find_lookup by apply (as_table _ _ _ _ _ Has).
      rewrite Hl. case_decide; [done|]. case_decide; [done|].
      by rewrite (pool_wf_Find hash n).
    + intros (fi & Hfi & He). congruence.
    + intros g Hne. split; [rewrite Hpages; by eapply vec_at_set_ne|].
      by rewrite Hoth, Hr1.
Qed.

(** X16.  [NewPgImp] in a reachable pool.  It returns [nullptr], and changes
    nothing, exactly when the free list is empty and the replacer has no
    evictable frame.  Otherwise, if it returns, the page id is the value of
    [next_page_id_], which advances by one (and wraps at 32 bits); the
    frame is the front of the free list, or else an evictable frame; the
    old content of the frame was written to disk if it was dirty, and its
    page left the page table; the frame now holds the new page with zeroed
    bytes and pin count 1, keeps the dirty flag it had, and is not
    evictable; the page table gives the frame for the new page; no other
    frame has changed. *)
Theorem NewPgImp_returns pool_size replacer_k s fuel :
  reachable pool_size replacer_k s ->
  (forall s', NewPgImp fuel s = Ok (None, s') <->
     s' = s /\ free_list_ s = [] /\ forall f, ~ LRUK.evictable (replacer_ s) f) /\
  (forall p f s', NewPgImp fuel s = Ok (Some (p, f), s') ->
     p = next_page_id_ s /\
     next_page_id_ s' = (next_page_id_ s + 1 + 2 ^ 31) mod 2 ^ 32 - 2 ^ 31 /\
     frame_given s f p zeroed s').
Proof.
  intros Hreach.
  pose proof (reachable_pool_wf _ _ _ _ _ _ _ _ Hreach) as Hw.
  pose proof (NewPgImp_spec fuel s (pw_table _ _ _ Hw)) as Hwp.
  split.
  - intros s'. split.
    + intros Hn. rewrite Hn in Hwp. destruct Hwp as (o & s1 & Htook & Hpost).
      destruct o as [t|]; [by destruct Hpost as (? & ? & _)|].
      injection Hpost as ->. by apply (took_None_iff pool_size) in Htook.
    + intros (-> & Hfl & Hnone). unfold BPM.NewPgImp, BPM.take_frame. rewrite Hfl.
      rewrite (proj2 (Evict_None_iff pool_size s Hw) Hnone). simpl. by destruct s.
  - intros p f s' Hn. rewrite Hn in Hwp. destruct Hwp as (o & s1 & Htook & Hpost).
    destruct o as [t|]; [|done].
    destruct Hpost as (s2 & [= -> -> ->] & Has & Hnext).
    split; [done|]. split; [done|]. by eapply assigned_frame_given.
Qed.

(** X17.  [FetchPgImp] of a page that is not in the page table, in a
    reachable pool.  It returns [nullptr], and changes nothing, exactly
    when the free list is empty and the replacer has no evictable frame.
    Otherwise, if it returns, the frame is taken and cleared as by
    [NewPgImp], holds the page with the bytes that the disk has for it
    (after the old content was written back), with pin count 1 and the
    dirty flag of the old content; [next_page_id_] is unchanged. *)
Theorem FetchPgImp_miss_returns pool_size replacer_k s fuel p :
  reachable pool_size replacer_k s ->
  EHT.Find hash p (page_table_ s) = Ok None ->
  (forall s', FetchPgImp fuel p s = Ok (None, s') <->
     s' = s /\ free_list_ s = [] /\ forall f, ~ LRUK.evictable (replacer_ s) f) /\
  (forall f s', FetchPgImp fuel p s = Ok (Some f, s') ->
     next_page_id_ s' = next_page_id_ s /\
     frame_given s f p (ReadPage p (disk_manager_ s')) s').
Proof.
  intros Hreach Hf.
  pose proof (reachable_pool_wf _ _ _ _ _ _ _ _ Hreach) as Hw.
  pose proof (FetchPgImp_spec fuel p s (pw_table _ _ _ Hw)) as Hwp.
  unfold FetchPgImp_post in Hwp.
  rewrite (pool_wf_Find hash pool_size) in Hf by done. injection Hf as Hl.
  rewrite Hl in Hwp.
  split.
  - intros s'. split.
    + intros Hn. rewrite Hn in Hwp. destruct Hwp as (o & s1 & Htook & Hpost).
      destruct o as [t|]; [by destruct Hpost as (? & ? & _)|].
      injection Hpost as ->. by apply (took_None_iff pool_size) in Htook.
    + intros (-> & Hfl & Hnone). unfold BPM.FetchPgImp, BPM.take_frame.
      rewrite (pool_wf_Find hash pool_size), Hl by done. simpl. rewrite Hfl.
      rewrite (proj2 (Evict_None_iff pool_size s Hw) Hnone). simpl. by destruct s.
  - intros f s' Hn. rewrite Hn in Hwp. destruct Hwp as (o & s1 & Htook & Hpost).
    destruct o as [t|]; [|done].
    destruct Hpost as (s2 & [= -> ->] & Has & Hnext).
    split; [done|]. by eapply assigned_frame_given.
Qed.

(** X18.  [UnpinPgImp] in a reachable pool always returns.  It returns
    [false], and changes nothing, when the page is not in the page table or
    its frame has pin count zero.  Otherwise it returns [true]: the pin
    count of the frame goes down by one, the dirty flag becomes [is_dirty],
    and the frame is evictable afterwards exactly when the pin count has
    reached zero; nothing else changes. *)
Theorem UnpinPgImp_returns pool_size replacer_k s p d :
  reachable pool_size replacer_k s ->
  exists b s', UnpinPgImp p d s = Ok (b, s') /\
    match EHT.Find hash p (page_table_ s) with
    | Ok (Some f) =>
        exists pg, vec_at (pages_ s) f = Some pg /\
          if pin_count_ pg =? 0 then b = false /\ s' = s
          else
            b = true /\
            vec_at (pages_ s') f =
              Some {| data_ := data_ pg; page_id_ := page_id_ pg;
                      pin_count_ := pin_count_ pg - 1; is_dirty_ := d |} /\
            (LRUK.evictable (replacer_ s') f <-> pin_count_ pg = 1) /\
            (forall g, g <> f ->
               vec_at (pages_ s') g = vec_at (pages_ s) g /\
               map_at (map_ (replacer_ s')) g = map_at (map_ (replacer_ s)) g) /\
            page_table_ s' = page_table_ s /\ free_list_ s' = free_list_ s /\
            disk_manager_ s' = disk_manager_ s /\
            next_page_id_ s' = next_page_id_ s
    | _ => b = false /\ s' = s
    end.
Proof.
  intros Hreach.
  pose proof (reachable_pool_wf _ _ _ _ _ _ _ _ Hreach) as Hw.
  pose proof (reachable_inv _ _ _ Hreach) as Hi.
  pose proof (reachable_pin_safe _ _ _ _ _ _ _ _ Hreach) as [_ Hsafe].
  destruct (UnpinPgImp_spec pool_size p d s Hw Hi) as ([b s'] & Heq & Hpost).
  exists b, s'. split; [done|]. unfold UnpinPgImp_post in Hpost.
  rewrite (pool_wf_Find hash pool_size) by done.
  destruct (lookup (page_table_ s) p) as [f|] eqn:Hl; [|by injection Hpost as -> ->].
  destruct Hpost as (pg & Hpg & Hx). exists pg. split; [done|].
  destruct (Z.eqb_spec (pin_count_ pg) 0) as [Hz|Hnz]; [by injection Hx as -> ->|].
  destruct Hx as (r' & Hr' & [= -> ->]). simpl.
  split; [done|]. split; [by eapply vec_at_set_eq|].
  pose proof (pi_pins _ Hi _ _ Hpg) as Hpos.
  split; [|split; [|done]].
  - destruct (Z.eqb_spec (pin_count_ pg - 1) 0) as [Hz1|Hnz1].
    + destruct (SetEvictable_map_at _ _ _ _ Hr') as (fi & _ & Hm).
      split; [lia|]. intros _. eexists. by rewrite Hm, decide_True.
    + subst r'. split; [|lia]. intros (fi & Hfi & He).
      specialize (Hsafe f fi pg Hfi He Hpg). lia.
  - intros g Hne. split; [by eapply vec_at_set_ne|].
    destruct (_ =? _); [|by subst].
    destruct (SetEvictable_map_at _ _ _ _ Hr') as (fi & _ & Hm).
    by rewrite Hm, decide_False.
Qed.

(** X19.  [DeletePgImp] in a reachable pool always returns.  It returns
    [true] and changes nothing when the page is not in the page table, and
    [false] and changes nothing when the frame of the page is pinned.
    Otherwise it returns [true]: the page leaves the page table, the
    replacer forgets the frame, the frame is reset to an empty frame and
    appended to the free list.  Nothing is written to disk, whether or not
    the frame was dirty. *)
Theorem DeletePgImp_returns pool_size replacer_k s p :
  reachable pool_size replacer_k s ->
  exists b s', DeletePgImp p s = Ok (b, s') /\
    match EHT.Find hash p (page_table_ s) with
    | Ok (Some f) =>
        exists pg, vec_at (pages_ s) f = Some pg /\
          if 0 <? pin_count_ pg then b = false /\ s' = s
          else
            b = true /\
            (forall q, EHT.Find hash q (page_table_ s') =
               if decide (q = p) then Ok None else EHT.Find hash q (page_table_ s)) /\
            vec_at (pages_ s') f = Some Page_new /\
            free_list_ s' = free_list_ s ++ [f] /\
            map_at (map_ (replacer_ s')) f = None /\
            (forall g, g <> f ->
               vec_at (pages_ s') g = vec_at (pages_ s) g /\
               map_at (map_ (replacer_ s')) g = map_at (map_ (replacer_ s)) g) /\
            disk_manager_ s' = disk_manager_ s /\
            next_page_id_ s' = next_page_id_ s
    | _ => b = true /\ s' = s
    end.
Proof.
  intros Hreach.
  pose proof (reachable_pool_wf _ _ _ _ _ _ _ _ Hreach) as Hw.
  pose proof (reachable_inv _ _ _ Hreach) as Hi.
  destruct (DeletePgImp_spec pool_size p s Hw Hi) as ([b s'] & Heq & Hpost).
  exists b, s'. split; [done|]. unfold DeletePgImp_post in Hpost.
  rewrite (pool_wf_Find hash pool_size) by done.
  destruct (lookup (page_table_ s) p) as [f|] eqn:Hl; [|by injection Hpost as -> ->].
  destruct Hpost as (pg & Hpg & Hx). exists pg. split; [done|].
  destruct (0 <? pin_count_ pg); [by injection Hx as -> ->|].
  destruct Hx as (pt & r' & Hwfpt & Hpt & Hr' & [= -> ->]). simpl.
  apply Remove_Ok in Hr' as (_ & Hro & Hrf); [|apply (pw_nodup _ _ _ Hw)].
  split; [done|]. split.
  { intros q. rewrite Find_lookup by done. rewrite Hpt. case_decide; [done|].
    by rewrite (pool_wf_Find hash pool_size). }
  split; [by eapply vec_at_set_eq|]. split; [done|]. split; [done|].
  split; [|done]. intros g Hne. split; [by eapply vec_at_set_ne|by apply Hro].
Qed.

(** *** A pinned page stays where it is *)

(** The page table, and the bytes, page id and pin count of every frame. *)
Definition same_frames (s s' : State) : Prop :=
  page_table_ s' = page_table_ s /\
  forall g, (fun pg => (data_ pg, page_id_ pg, pin_count_ pg)) <$> vec_at (pages_ s') g
          = (fun pg => (data_ pg, page_id_ pg, pin_count_ pg)) <$> vec_at (pages_ s) g.

Lemma FlushPgImp_same_frames n p s :
  pool_wf n s -> wp (FlushPgImp p s) (fun x => same_frames s x.2) no_throw.
Proof.
  intros Hw. destruct (lookup (page_table_ s) p) as [f|] eqn:Hl.
  - destruct (FlushPgImp_resident hash n s p f Hw)
      as (pg & r' & s' & Hpg & Hr' & -> & -> & _);
      [by rewrite (pool_wf_Find hash n), Hl|].
    simpl. split; [done|]. simpl. intros g. destruct (decide (f = g)) as [<-|Hne].
    + by rewrite (vec_at_set_eq _ _ _ _ Hpg), Hpg.
    + by rewrite (vec_at_set_ne _ _ _ _ _ Hpg).
  - unfold BPM.FlushPgImp. rewrite (pool_wf_Find hash n), Hl by done. done.
Qed.

Lemma flush_from_same_frames n m i s :
  pool_wf n s -> wp (flush_from hash m i s) (same_frames s) no_throw.
Proof.
  revert i s. induction m as [|m IH]; intros i s Hw; simpl; [done|].
  apply wp_bind, wp_of_option. intros pg _.
  apply wp_bind.
  eapply wp_wand;
    [exact (wp_and _ _ _ _ _ (FlushPgImp_pool_wf hash n (GetPageId pg) s Hw)
                             (FlushPgImp_same_frames n (GetPageId pg) s Hw))|
     |by intros ? [_ ?]].
  intros [b s1] [Hw1 [Ht1 Hf1]]. simpl in *.
  eapply wp_wand; [by apply IH| |done].
  intros s2 [Ht2 Hf2]. split; [congruence|]. intros g. by rewrite Hf2, Hf1.
Qed.

Ltac stay :=
  first
    [ by (split; [eassumption|]; eexists; split; [eassumption|])
    | match goal with H : forall s2, page_table_ s2 = _ -> _ |- _ =>
        by (apply H; try done; try (by case_decide; congruence))
      end ].

(** X20.  A pinned page stays in its frame.  Let page [p] be in frame [f]
    of a reachable pool, with a pin count above zero, and let no other
    frame carry the page id [p].  Then after any operation that returns
    (other than a [NewPgImp] that allocates the id [p] itself) the page
    table still gives [f] for [p], and the frame holds the same bytes and
    the same page id; its pin count is the same too, unless the operation
    was [UnpinPgImp] of [p], which takes one off. *)
Theorem pinned_page_stays pool_size replacer_k s p f pg fuel o s' :
  reachable pool_size replacer_k s ->
  EHT.Find hash p (page_table_ s) = Ok (Some f) ->
  vec_at (pages_ s) f = Some pg -> 0 < pin_count_ pg ->
  (forall g pg', g <> f -> vec_at (pages_ s) g = Some pg' -> page_id_ pg' <> p) ->
  (o = new_page -> next_page_id_ s <> p) ->
  run fuel o s = Ok s' ->
  EHT.Find hash p (page_table_ s') = Ok (Some f) /\
  exists pg', vec_at (pages_ s') f = Some pg' /\
    data_ pg' = data_ pg /\ page_id_ pg' = page_id_ pg /\
    pin_count_ pg' =
      match o with
      | unpin_page q _ => if decide (q = p) then pin_count_ pg - 1 else pin_count_ pg
      | _ => pin_count_ pg
      end.
Proof.
  intros Hreach Hf Hpg Hpin Honly Hnew Hrun.
  pose proof (reachable_pool_wf _ _ _ _ _ _ _ _ Hreach) as Hw.
  pose proof (reachable_inv _ _ _ Hreach) as Hi.
  pose proof (reachable_pin_safe _ _ _ _ _ _ _ _ Hreach) as [_ Hsafe].
  apply (Find_Some pool_size) in Hf as Hl; [|done].
  assert (forall q g, lookup (page_table_ s) q = Some g -> q <> p -> g <> f) as Hinj.
  { intros q g Hq Hne ->. apply (pw_frames _ _ _ Hw) in Hq, Hl. rewrite Hpg in Hq, Hl.
    simpl in *. congruence. }
  (* a frame that is given away is not [f] *)
  assert (forall t s1 q d s2, took s (Some t) s1 -> assigned s1 t q d s2 -> q <> p ->
            EHT.Find hash p (page_table_ s2) = Ok (Some f) /\
            vec_at (pages_ s2) f = Some pg) as Hgive.
  { intros t s1 q d s2 Htook Has Hq.
    destruct (assigned_frame_given pool_size _ _ _ _ _ _ Hw Htook Has)
      as (Hfl & old & Hold & _ & _ & Hfind & _ & Hoth).
    assert (t <> f) as Hne.
    { intros ->. destruct (free_list_ s) as [|t0 rest] eqn:Hfree.
      - destruct Hfl as [(fi & Hfi & He) _]. specialize (Hsafe f fi pg Hfi He Hpg). lia.
      - destruct Hfl as [-> _]. destruct (pi_free _ Hi t0) as (_ & _ & Hun);
          [rewrite Hfree; left|]. by eapply Hun. }
    split.
    - rewrite Hfind. rewrite decide_False by done.
      rewrite decide_False; [done|]. intros ->. by eapply (Honly t old).
    - by rewrite (proj1 (Hoth f ltac:(done))). }
  assert (forall s2, page_table_ s2 = page_table_ s -> pages_ s2 = pages_ s ->
            forall n : Z, n = pin_count_ pg ->
            EHT.Find hash p (page_table_ s2) = Ok (Some f) /\
            exists pg', vec_at (pages_ s2) f = Some pg' /\
              data_ pg' = data_ pg /\ page_id_ pg' = page_id_ pg /\
              pin_count_ pg' = n) as Hsame.
  { intros s2 -> -> n ->. split; [done|]. by exists pg. }
  destruct o as [|q|q d|q| |q]; simpl in Hrun.
  - apply bind_Ok in Hrun as ([o s1] & Hn & [= ->]).
    pose proof (NewPgImp_spec fuel s (pw_table _ _ _ Hw)) as Hwp. rewrite Hn in Hwp.
    destruct Hwp as (o' & s1 & Htook & Hpost). destruct o' as [t|].
    + destruct Hpost as (s2 & [= -> ->] & Has & _).
      destruct (Hgive _ _ _ _ _ Htook Has) as [? ?]; [by apply Hnew|]. stay.
    + injection Hpost as -> ->. apply took_None in Htook as [-> _]. stay.
  - apply bind_Ok in Hrun as ([o s1] & Hn & [= ->]).
    pose proof (FetchPgImp_spec fuel q s (pw_table _ _ _ Hw)) as Hwp. rewrite Hn in Hwp.
    unfold FetchPgImp_post in Hwp.
    destruct (lookup (page_table_ s) q) as [g|] eqn:Hq.
    + destruct Hwp as (r & _ & [= -> ->]). simpl. stay.
    + destruct Hwp as (o' & s1 & Htook & Hpost). destruct o' as [t|].
      * destruct Hpost as (s2 & [= -> ->] & Has & _).
        destruct (Hgive _ _ _ _ _ Htook Has) as [? ?]; [congruence|]. stay.
      * injection Hpost as -> ->. apply took_None in Htook as [-> _]. stay.
  - destruct (UnpinPgImp_spec pool_size q d s Hw Hi) as ([b s1] & Heq & Hpost).
    rewrite Heq in Hrun. simpl in Hrun. injection Hrun as ->.
    unfold UnpinPgImp_post in Hpost.
    destruct (lookup (page_table_ s) q) as [g|] eqn:Hq.
    2:{ injection Hpost as -> ->. split; [done|]. exists pg.
        case_decide; [congruence|done]. }
    destruct Hpost as (pgg & Hpgg & Hx).
    destruct (decide (q = p)) as [->|Hne].
    + assert (g = f) as -> by congruence. assert (pgg = pg) as -> by congruence.
      destruct (Z.eqb_spec (pin_count_ pg) 0); [lia|].
      destruct Hx as (r' & _ & [= -> ->]). simpl. split; [done|].
      eexists. split; [by eapply vec_at_set_eq|]. done.
    + assert (g <> f) as Hgf by by eapply Hinj.
      destruct (pin_count_ pgg =? 0); [injection Hx as -> ->; stay|].
      destruct Hx as (r' & _ & [= -> ->]). simpl. split; [done|].
      exists pg. split; [|done]. by rewrite (vec_at_set_ne _ _ _ _ _ Hpgg).
  - apply bind_Ok in Hrun as ([b s1] & Hfl & [= ->]).
    pose proof (FlushPgImp_same_frames pool_size q s Hw) as Hwp. rewrite Hfl in Hwp.
    destruct Hwp as [Ht Hfr]. simpl in *. specialize (Hfr f). rewrite Hpg in Hfr.
    rewrite Ht. split; [done|]. destruct (vec_at (pages_ s') f) as [pg'|]; [|done].
    injection Hfr as ? ? ?. by exists pg'.
  - pose proof (flush_from_same_frames pool_size (Z.to_nat (pool_size_ s)) 0 s Hw) as Hwp.
    unfold BPM.FlushAllPgsImp in Hrun. rewrite Hrun in Hwp.
    destruct Hwp as [Ht Hfr]. simpl in *. specialize (Hfr f). rewrite Hpg in Hfr.
    rewrite Ht. split; [done|]. destruct (vec_at (pages_ s') f) as [pg'|]; [|done].
    injection Hfr as ? ? ?. by exists pg'.
  - destruct (DeletePgImp_spec pool_size q s Hw Hi) as ([b s1] & Heq & Hpost).
    rewrite Heq in Hrun. simpl in Hrun. injection Hrun as ->.
    unfold DeletePgImp_post in Hpost.
    destruct (lookup (page_table_ s) q) as [g|] eqn:Hq;
      [|injection Hpost as -> ->; eauto].
    destruct Hpost as (pgg & Hpgg & Hx).
    destruct (decide (q = p)) as [->|Hne].
    + assert (g = f) as -> by congruence. assert (pgg = pg) as -> by congruence.
      destruct (Z.ltb_spec 0 (pin_count_ pg)); [|lia]. injection Hx as -> ->. stay.
    + assert (g <> f) as Hgf by by eapply Hinj.
      destruct (0 <? pin_count_ pgg); [injection Hx as -> ->; stay|].
      destruct Hx as (pt & r' & Hwfpt & Hpt & _ & [= -> ->]). simpl. split.
      * rewrite Find_lookup by done. rewrite Hpt, decide_False by done. by rewrite Hl.
      * exists pg. split; [|done]. by rewrite (vec_at_set_ne _ _ _ _ _ Hpgg).
Qed.

(** *** Frames that nobody pins *)

Lemma vec_at_range {A} (v : list A) i x :
  vec_at v i = Some x -> 0 <= i < Z.of_nat (length v).
Proof.
  unfold vec_at. destruct (Z.leb_spec 0 i); [|done].
  destruct (Z.ltb_spec i (Z.of_nat (length v))); [|done]. lia.
Qed.

(** A frame with pin count zero that is not in the free list is reported
    evictable by the replacer. *)
Definition unpinned_evictable (s : State) : Prop :=
  forall f pg, vec_at (pages_ s) f = Some pg -> pin_count_ pg = 0 ->
    f ∉ free_list_ s -> LRUK.evictable (replacer_ s) f.

(** Every frame of the pool is pinned. *)
Definition all_pinned (s : State) : Prop :=
  forall f pg, vec_at (pages_ s) f = Some pg -> 0 < pin_count_ pg.

Lemma unpinned_evictable_new pool_size disk replacer_k :
  unpinned_evictable
    (BufferPoolManagerInstance_new INVALID_PAGE_ID BUSTUB_PAGE_SIZE bucket_size_
       pool_size disk replacer_k).
Proof.
  intros f pg Hpg _ Hnf. destruct Hnf. simpl in *.
  apply vec_at_range in Hpg. rewrite length_replicate in Hpg.
  apply list_elem_of_fmap. exists (Z.to_nat f). split; [lia|].
  apply elem_of_seq. lia.
Qed.

Lemma assigned_unpinned n s t s1 p d s' :
  pool_wf n s -> pool_inv s -> unpinned_evictable s ->
  took s (Some t) s1 -> assigned s1 t p d s' -> unpinned_evictable s'.
Proof.
  intros Hw Hi Hu Htook Has.
  destruct (took_fields _ _ _ Htook) as (Hp1 & Ht1 & _).
  destruct (took_replacer n _ _ _ Hw Htook) as [Hr1 Hfree].
  destruct (as_replacer _ _ _ _ _ Has) as (r2 & H2 & H3).
  destruct (pinned_map_at _ _ _ _ H2 H3) as [_ Hoth].
  destruct (as_frame _ _ _ _ _ Has) as (pg0 & Hpg0 & Hpages & _).
  rewrite Hp1 in Hpg0, Hpages.
  intros f pg Hpg Hpin Hnf. destruct (decide (f = t)) as [->|Hne].
  - rewrite Hpages, (vec_at_set_eq _ _ _ _ Hpg0) in Hpg. injection Hpg as <-.
    simpl in Hpin. lia.
  - rewrite Hpages, (vec_at_set_ne _ _ _ _ _ Hpg0) in Hpg by done.
    rewrite (as_free _ _ _ _ _ Has) in Hnf.
    assert (f ∉ free_list_ s) as Hnf0.
    { destruct Hfree as [(rest & Hfl & Hfl1 & _)|(Hfl & _ & _)]; rewrite Hfl.
      - rewrite Hfl1 in Hnf. by intros [->|?]%elem_of_cons.
      - apply not_elem_of_nil. }
    destruct (Hu f pg Hpg Hpin Hnf0) as (fi & Hfi & He).
    exists fi. by rewrite Hoth, Hr1.
Qed.

Lemma UnpinPgImp_unpinned p d s x :
  unpinned_evictable s -> UnpinPgImp_post p d s x -> unpinned_evictable x.2.
Proof.
  intros Hu. unfold UnpinPgImp_post.
  destruct (lookup (page_table_ s) p) as [f|] eqn:Hl; [|by intros ->].
  intros (pg & Hpg & Hx).
  destruct (Z.eqb_spec (pin_count_ pg) 0) as [|Hpin]; [by subst x|].
  destruct Hx as (r' & Hr' & ->). simpl.
  intros g pg' Hpg' Hpin' Hnf. simpl in *. destruct (decide (f = g)) as [<-|Hne].
  - rewrite (vec_at_set_eq _ _ _ _ Hpg) in Hpg'. injection Hpg' as <-.
    simpl in Hpin'. rewrite (proj2 (Z.eqb_eq _ _) Hpin') in Hr'.
    destruct (SetEvictable_map_at _ _ _ _ Hr') as (fi & _ & Hm).
    exists (FrameInfo_SetEvictable true fi). by rewrite Hm, decide_True.
  - rewrite (vec_at_set_ne _ _ _ _ _ Hpg) in Hpg' by done.
    destruct (Hu g pg' Hpg' Hpin' Hnf) as (fi & Hfi & He). exists fi. split; [|done].
    destruct (_ =? _); [|by subst].
    destruct (SetEvictable_map_at _ _ _ _ Hr') as (fi' & _ & Hm).
    by rewrite Hm, decide_False.
Qed.

Lemma DeletePgImp_unpinned n p s x :
  pool_wf n s -> unpinned_evictable s -> DeletePgImp_post p s x ->
  unpinned_evictable x.2.
Proof.
  intros Hw Hu. unfold DeletePgImp_post.
  destruct (lookup (page_table_ s) p) as [f|] eqn:Hl; [|by intros ->].
  intros (pg & Hpg & Hx).
  destruct (0 <? pin_count_ pg); [by subst x|].
  destruct Hx as (pt & r' & _ & _ & Hr' & ->). simpl.
  apply Remove_Ok in Hr' as (_ & Hro & _); [|apply (pw_nodup _ _ _ Hw)].
  intros g pg' Hpg' Hpin' Hnf. simpl in *. destruct (decide (f = g)) as [<-|Hne].
  - destruct Hnf. apply elem_of_app. right. apply list_elem_of_singleton. done.
  - rewrite (vec_at_set_ne _ _ _ _ _ Hpg) in Hpg' by done.
    destruct (Hu g pg' Hpg' Hpin') as (fi & Hfi & He).
    { intros Hin. apply Hnf, elem_of_app. by left. }
    exists fi. by rewrite Hro.
Qed.

Lemma access_unpinned s p f pg pg' r' s' :
  pool_inv s -> unpinned_evictable s -> lookup (page_table_ s) p = Some f ->
  vec_at (pages_ s) f = Some pg -> pin_count_ pg' = pin_count_ pg ->
  RecordAccess f (replacer_ s) = Ok r' ->
  free_list_ s' = free_list_ s ->
  replacer_ s' = r' -> pages_ s' = vec_set (pages_ s) f pg' ->
  unpinned_evictable s'.
Proof.
  intros Hi Hu Hl Hpg Hpin Hr' Hf Hr Hp.
  pose proof (RecordAccess_Ok_check _ _ _ Hr') as Hc.
  destruct (RecordAccess_map_at f (replacer_ s) Hc) as (r2 & H2 & _ & _ & _ & _ & Hm).
  rewrite Hr' in H2. injection H2 as <-.
  destruct (pi_resident _ Hi _ _ _ Hl Hpg) as (fi & Hfi & Hev).
  intros g pg0. rewrite Hf, Hr, Hp. unfold LRUK.evictable. rewrite Hm.
  destruct (decide (f = g)) as [<-|Hne].
  - rewrite (vec_at_set_eq _ _ _ _ Hpg). intros [= <-] Hpin0 _.
    rewrite Hfi. simpl. eexists. split; [done|]. simpl. apply Hev. congruence.
  - rewrite (vec_at_set_ne _ _ _ _ _ Hpg) by done. apply Hu.
Qed.

Lemma FlushPgImp_unpinned n p s :
  pool_wf n s -> pool_inv s -> unpinned_evictable s ->
  wp (FlushPgImp p s) (fun x => unpinned_evictable x.2) no_throw.
Proof.
  intros Hw Hi Hu. destruct (lookup (page_table_ s) p) as [f|] eqn:Hl.
  - destruct (FlushPgImp_resident hash n s p f Hw)
      as (pg & r' & s' & Hpg & Hr' & -> & -> & _);
      [by rewrite (pool_wf_Find hash n), Hl|].
    simpl. by eapply (access_unpinned s p f pg (set_is_dirty false pg) r').
  - unfold BPM.FlushPgImp. rewrite (pool_wf_Find hash n), Hl by done. done.
Qed.

Lemma flush_from_unpinned n m i s :
  pool_wf n s -> pool_inv s -> unpinned_evictable s ->
  wp (flush_from hash m i s) unpinned_evictable no_throw.
Proof.
  revert i s. induction m as [|m IH]; intros i s Hw Hi Hu; simpl; [done|].
  apply wp_bind, wp_of_option. intros pg _.
  apply wp_bind.
  eapply wp_wand;
    [exact (wp_and _ _ _ _ _
              (wp_and _ _ _ _ _ (FlushPgImp_pool_wf hash n (GetPageId pg) s Hw)
                                (FlushPgImp_inv n (GetPageId pg) s Hw Hi))
              (FlushPgImp_unpinned n (GetPageId pg) s Hw Hi Hu))
    | |by intros ? [_ ?]].
  intros [b s'] [[Hw' Hi'] Hu']. by apply IH.
Qed.

Lemma run_unpinned n fuel o s :
  pool_wf n s -> pool_inv s -> unpinned_evictable s ->
  wp (run fuel o s) unpinned_evictable no_throw.
Proof.
  intros Hw Hi Hu. pose proof (pw_table _ _ _ Hw) as Hwf. destruct o; simpl.
  - apply wp_bind. eapply wp_wand; [by apply NewPgImp_spec| |done].
    intros [o s'] (o' & s1 & Htook & Hpost). simpl. destruct o' as [t|].
    + destruct Hpost as (s2 & [= -> ->] & Has & _). by eapply assigned_unpinned.
    + injection Hpost as -> ->. by apply took_None in Htook as [-> _].
  - apply wp_bind. eapply wp_wand; [by apply FetchPgImp_spec| |done].
    intros [o s']. unfold FetchPgImp_post. simpl.
    destruct (lookup (page_table_ s) page_id) as [f|] eqn:Hl.
    + intros (r & Hr & [= -> ->]).
      destruct (valid_vec_at hash n s f Hw (pw_values _ _ _ Hw _ _ Hl)) as [pg Hpg].
      eapply (access_unpinned s page_id f pg pg r); try done. simpl.
      symmetry. by apply vec_set_same.
    + intros (o' & s1 & Htook & Hpost). destruct o' as [t|].
      * destruct Hpost as (s2 & [= -> ->] & Has & _). by eapply assigned_unpinned.
      * injection Hpost as -> ->. by apply took_None in Htook as [-> _].
  - destruct (UnpinPgImp_spec n page_id is_dirty s Hw Hi) as ([b s'] & -> & Hpost).
    simpl. by apply (UnpinPgImp_unpinned page_id is_dirty s (b, s')).
  - apply wp_bind. eapply wp_wand; [by eapply FlushPgImp_unpinned|by intros []|done].
  - by eapply flush_from_unpinned.
  - destruct (DeletePgImp_spec n page_id s Hw Hi) as ([b s'] & -> & Hpost).
    simpl. by apply (DeletePgImp_unpinned n page_id s (b, s')).
Qed.

Lemma reachable_unpinned pool_size replacer_k s :
  reachable pool_size replacer_k s -> unpinned_evictable s.
Proof.
  induction 1 as [disk|s s' Hreach IH Hstep]; [apply unpinned_evictable_new|].
  pose proof (reachable_pool_wf _ _ _ _ _ _ _ _ Hreach) as Hw.
  pose proof (reachable_inv _ _ _ Hreach) as Hi.
  destruct Hstep as [fuel o Hrun|fuel o Hrun];
    pose proof (run_unpinned pool_size fuel o s Hw Hi IH) as Hwp;
    by rewrite Hrun in Hwp.
Qed.

(** No frame is free or evictable exactly when every frame is pinned. *)
Lemma no_frame_iff_all_pinned pool_size replacer_k s :
  reachable pool_size replacer_k s ->
  (free_list_ s = [] /\ forall f, ~ LRUK.evictable (replacer_ s) f) <-> all_pinned s.
Proof.
  intros Hreach.
  pose proof (reachable_pool_wf _ _ _ _ _ _ _ _ Hreach) as Hw.
  pose proof (reachable_inv _ _ _ Hreach) as Hi.
  pose proof (reachable_unpinned _ _ _ Hreach) as Hu.
  pose proof (reachable_pin_safe _ _ _ _ _ _ _ _ Hreach) as [_ Hsafe].
  split.
  - intros [Hfl Hnone] f pg Hpg.
    pose proof (pi_pins _ Hi _ _ Hpg) as Hpos.
    destruct (decide (pin_count_ pg = 0)) as [Hz|]; [|lia].
    destruct (Hnone f). apply (Hu f pg Hpg Hz). rewrite Hfl. apply not_elem_of_nil.
  - intros Hall. split.
    + destruct (free_list_ s) as [|f rest] eqn:Hfl; [done|].
      destruct (pi_free _ Hi f) as (Hpg & _); [rewrite Hfl; left|].
      apply Hall in Hpg. simpl in Hpg. lia.
    + intros f (fi & Hfi & He).
      destruct (valid_vec_at hash pool_size s f Hw (pw_tracked _ _ _ Hw _ _ Hfi))
        as [pg Hpg].
      pose proof (Hsafe f fi pg Hfi He Hpg). apply Hall in Hpg. lia.
Qed.

(** X21.  The pool refuses a frame only when every frame is pinned:
    in a reachable pool, [NewPgImp] returns [nullptr] exactly when every
    frame of the pool has a pin count above zero, and so does [FetchPgImp]
    of a page that is not in the page table.  Neither changes the pool
    then. *)
Theorem no_frame_only_when_all_frames_pinned pool_size replacer_k s fuel :
  reachable pool_size replacer_k s ->
  (all_pinned s -> NewPgImp fuel s = Ok (None, s)) /\
  (forall s', NewPgImp fuel s = Ok (None, s') -> all_pinned s /\ s' = s) /\
  forall p, EHT.Find hash p (page_table_ s) = Ok None ->
    (all_pinned s -> FetchPgImp fuel p s = Ok (None, s)) /\
    (forall s', FetchPgImp fuel p s = Ok (None, s') -> all_pinned s /\ s' = s).
Proof.
  intros Hreach.
  pose proof (reachable_pool_wf _ _ _ _ _ _ _ _ Hreach) as Hw.
  pose proof (no_frame_iff_all_pinned _ _ _ Hreach) as Hiff.
  split; [|split].
  - intros [Hfl Hnone]%Hiff. unfold BPM.NewPgImp, BPM.take_frame. rewrite Hfl.
    rewrite (proj2 (Evict_None_iff pool_size s Hw) Hnone). simpl. by destruct s.
  - intros s' Hn. pose proof (NewPgImp_spec fuel s (pw_table _ _ _ Hw)) as Hwp.
    rewrite Hn in Hwp. destruct Hwp as (o & s1 & Htook & Hpost).
    destruct o as [t|]; [by destruct Hpost as (? & ? & _)|].
    injection Hpost as ->. apply (took_None_iff pool_size) in Htook; [|done].
    destruct Htook as (-> & Hfl & Hnone). split; [|done]. by apply Hiff.
  - intros p Hf. rewrite (pool_wf_Find hash pool_size) in Hf by done.
    injection Hf as Hl. split.
    + intros [Hfl Hnone]%Hiff. unfold BPM.FetchPgImp, BPM.take_frame.
      rewrite (pool_wf_Find hash pool_size), Hl by done. simpl. rewrite Hfl.
      rewrite (proj2 (Evict_None_iff pool_size s Hw) Hnone). simpl. by destruct s.
    + intros s' Hn. pose proof (FetchPgImp_spec fuel p s (pw_table _ _ _ Hw)) as Hwp.
      unfold FetchPgImp_post in Hwp. rewrite Hl, Hn in Hwp.
      destruct Hwp as (o & s1 & Htook & Hpost).
      destruct o as [t|]; [by destruct Hpost as (? & ? & _)|].
      injection Hpost as ->. apply (took_None_iff pool_size) in Htook; [|done].
      destruct Htook as (-> & Hfl & Hnone). split; [|done]. by apply Hiff.
Qed.

(** *** A dirty page that loses its frame *)

Lemma NewPgImp_Some n fuel s p f s' :
  pool_wf n s -> NewPgImp fuel s = Ok (Some (p, f), s') ->
  p = next_page_id_ s /\ frame_given s f p zeroed s'.
Proof.
  intros Hw Hn. pose proof (NewPgImp_spec fuel s (pw_table _ _ _ Hw)) as Hwp.
  rewrite Hn in Hwp. destruct Hwp as (o & s1 & Htook & Hpost).
  destruct o as [t|]; [|done].
  destruct Hpost as (s2 & [= -> -> ->] & Has & _).
  split; [done|]. by eapply assigned_frame_given.
Qed.

Lemma FetchPgImp_miss_Some n fuel p s f s' :
  pool_wf n s -> lookup (page_table_ s) p = None ->
  FetchPgImp fuel p s = Ok (Some f, s') ->
  frame_given s f p (ReadPage p (disk_manager_ s')) s'.
Proof.
  intros Hw Hl Hn. pose proof (FetchPgImp_spec fuel p s (pw_table _ _ _ Hw)) as Hwp.
  unfold FetchPgImp_post in Hwp. rewrite Hl, Hn in Hwp.
  destruct Hwp as (o & s1 & Htook & Hpost).
  destruct o as [t|]; [|done].
  destruct Hpost as (s2 & [= -> ->] & Has & _). by eapply assigned_frame_given.
Qed.

Lemma ReadPage_WritePage p d disk : ReadPage p (WritePage p d disk) = d.
Proof. unfold WritePage. simpl. by rewrite Z.eqb_refl. Qed.

Lemma ReadPage_WritePage_ne p q d disk :
  q <> p -> ReadPage p (WritePage q d disk) = ReadPage p disk.
Proof. intros Hne. unfold WritePage. simpl. by destruct (Z.eqb_spec q p). Qed.

(** X22.  A dirty page that loses its frame is read back as it was.  Let
    page [p] be in frame [f] of a reachable pool, dirty, and let no other
    frame carry the page id [p].  When [NewPgImp] or a [FetchPgImp] of an
    absent page [q] takes frame [f] (for a page other than [p]), the page
    leaves the page table and the disk holds its bytes; the next
    [FetchPgImp] of [p] that returns a frame returns it with these bytes
    and pin count 1. *)
Theorem dirty_page_survives_eviction pool_size replacer_k s p f pg fuel q s1 :
  reachable pool_size replacer_k s ->
  EHT.Find hash p (page_table_ s) = Ok (Some f) ->
  vec_at (pages_ s) f = Some pg -> is_dirty_ pg = true ->
  (forall g pg', g <> f -> vec_at (pages_ s) g = Some pg' -> page_id_ pg' <> p) ->
  q <> p ->
  NewPgImp fuel s = Ok (Some (q, f), s1) \/
  (EHT.Find hash q (page_table_ s) = Ok None /\
   FetchPgImp fuel q s = Ok (Some f, s1)) ->
  EHT.Find hash p (page_table_ s1) = Ok None /\
  ReadPage p (disk_manager_ s1) = data_ pg /\
  forall fuel' t s2, FetchPgImp fuel' p s1 = Ok (Some t, s2) ->
    exists pg2, vec_at (pages_ s2) t = Some pg2 /\
      data_ pg2 = data_ pg /\ page_id_ pg2 = p /\ pin_count_ pg2 = 1.
Proof.
  intros Hreach Hf Hpg Hdirty Honly Hqp Hstep.
  pose proof (reachable_pool_wf _ _ _ _ _ _ _ _ Hreach) as Hw.
  apply (Find_Some pool_size) in Hf as Hl; [|done].
  pose proof (pw_frames _ _ _ Hw _ _ Hl) as Hid. rewrite Hpg in Hid.
  simpl in Hid. injection Hid as Hid.
  assert (exists d, frame_given s f q d s1 /\ reachable pool_size replacer_k s1)
    as (d & Hfg & Hreach1).
  { destruct Hstep as [Hn|[Hq Hn]].
    - exists zeroed. split; [by eapply (NewPgImp_Some pool_size)|].
      eapply reachable_step; [done|].
      apply step_returns with (fuel := fuel) (o := new_page). simpl. by rewrite Hn.
    - eexists. split.
      + eapply (FetchPgImp_miss_Some pool_size); [done| |done].
        rewrite (pool_wf_Find hash pool_size) in Hq by done. by injection Hq.
      + eapply reachable_step; [done|].
        apply step_returns with (fuel := fuel) (o := fetch_page q). simpl. by rewrite Hn. }
  pose proof (reachable_pool_wf _ _ _ _ _ _ _ _ Hreach1) as Hw1.
  destruct Hfg as (_ & old & Hold & Hf1 & Hdisk & Hfind & _ & Hoth).
  rewrite Hpg in Hold. injection Hold as <-.
  rewrite Hdirty, Hid in Hdisk.
  assert (EHT.Find hash p (page_table_ s1) = Ok None) as Hnone.
  { rewrite Hfind, decide_False by done. by rewrite Hid, decide_True. }
  assert (ReadPage p (disk_manager_ s1) = data_ pg) as Hread
    by (rewrite Hdisk; apply ReadPage_WritePage).
  split; [done|]. split; [done|].
  intros fuel' t s2 Hn.
  apply (FetchPgImp_miss_Some pool_size) in Hn; [|done|].
  2:{ rewrite (pool_wf_Find hash pool_size) in Hnone by done. by injection Hnone. }
  destruct Hn as (_ & old1 & Hold1 & Ht2 & Hdisk2 & _).
  eexists. split; [exact Ht2|]. simpl. split; [|done].
  rewrite Hdisk2. destruct (is_dirty_ old1); [|done].
  rewrite ReadPage_WritePage_ne; [done|].
  destruct (decide (t = f)) as [->|Hne].
  - rewrite Hf1 in Hold1. by injection Hold1 as <-.
  - rewrite (proj1 (Hoth t Hne)) in Hold1. by eapply Honly.
Qed.

End Pool.

(** *** The properties on a pool of one frame *)

Abbreviation reachable1 :=
  (BPM.reachable (-1) 4096 4 (2 ^ 64 - 1) page_hash 1 2).

Lemma pool_runs_reachable pool_size replacer_k ops s s' :
  BPM.reachable (-1) 4096 4 (2 ^ 64 - 1) page_hash pool_size replacer_k s ->
  pool_runs ops s = Ok s' ->
  BPM.reachable (-1) 4096 4 (2 ^ 64 - 1) page_hash pool_size replacer_k s'.
Proof.
  revert s. induction ops as [|o ops IH]; simpl; intros s Hs Hruns.
  - by simplify_eq.
  - apply bind_Ok in Hruns as (s1 & Hrun & Hruns). eapply IH; [|done].
    eapply reachable_step; [done|]. by eapply step_returns.
Qed.

Lemma pool1_reachable : reachable1 pool1.
Proof. constructor. Qed.

Lemma pool_after_reachable ops : reachable1 (pool_after ops).
Proof.
  unfold pool_after. destruct (pool_runs ops pool1) as [s| | |] eqn:Hruns;
    try apply pool1_reachable.
  by eapply pool_runs_reachable; [apply pool1_reachable|].
Qed.

Abbreviation reachable2 :=
  (BPM.reachable (-1) 4096 4 (2 ^ 64 - 1) page_hash 2 2).

Lemma pool2_reachable : reachable2 pool2.
Proof. constructor. Qed.

Lemma pool2_after_reachable ops : reachable2 (pool2_after ops).
Proof.
  unfold pool2_after. destruct (pool_runs ops pool2) as [s| | |] eqn:Hruns;
    try apply pool2_reachable.
  by eapply pool_runs_reachable; [apply pool2_reachable|].
Qed.

Lemma pool_operations_never_throw_witness :
  reachable1 (pool_after [new_page]) /\
  forall s', pool_run (delete_page 0) (pool_after [new_page]) <> Throw s'.
Proof.
  split; [apply pool_after_reachable|]. intros s'.
  exact (pool_operations_never_throw (-1) 4096 4 (2 ^ 64 - 1) page_hash 1 2 _ 64
           (delete_page 0) s' (pool_after_reachable [new_page])).
Defined.

Lemma resident_frame_evictable_iff_unpinned_witness :
  reachable1 (pool_after [new_page; unpin_page 0 true]) /\
  EHT.Find page_hash 0 (page_table_ (pool_after [new_page; unpin_page 0 true]))
    = Ok (Some 0) /\
  exists pg fi,
    vec_at (pages_ (pool_after [new_page; unpin_page 0 true])) 0 = Some pg /\
    map_at (map_ (replacer_ (pool_after [new_page; unpin_page 0 true]))) 0 = Some fi /\
    0 <= pin_count_ pg /\ (IsEvictable fi = true <-> pin_count_ pg = 0).
Proof.
  split; [apply pool_after_reachable|].
  assert (EHT.Find page_hash 0 (page_table_ (pool_after [new_page; unpin_page 0 true]))
          = Ok (Some 0)) as Hf by (vm_compute; reflexivity).
  split; [exact Hf|].
  exact (resident_frame_evictable_iff_unpinned (-1) 4096 4 (2 ^ 64 - 1) page_hash 1 2
           _ 0 0 (pool_after_reachable _) Hf).
Defined.

Lemma free_frames_are_unused_witness :
  reachable1 pool1 /\ free_list_ pool1 = [0] /\
  NoDup (free_list_ pool1) /\
  forall f, f ∈ free_list_ pool1 ->
    0 <= f < Z.of_nat 1 /\
    vec_at (pages_ pool1) f = Some (BPM.Page_new (-1) 4096) /\
    map_at (map_ (replacer_ pool1)) f = None /\
    forall p, EHT.Find page_hash p (page_table_ pool1) <> Ok (Some f).
Proof.
  split; [apply pool1_reachable|]. split; [reflexivity|].
  exact (free_frames_are_unused (-1) 4096 4 (2 ^ 64 - 1) page_hash 1 2 pool1
           pool1_reachable).
Defined.

Lemma page_table_gives_the_frame_of_the_page_witness :
  reachable1 (pool_after [new_page]) /\
  EHT.Find page_hash 0 (page_table_ (pool_after [new_page])) = Ok (Some 0) /\
  (exists pg, vec_at (pages_ (pool_after [new_page])) 0 = Some pg /\ page_id_ pg = 0) /\
  forall q, EHT.Find page_hash q (page_table_ (pool_after [new_page])) = Ok (Some 0) ->
            q = 0.
Proof.
  split; [apply pool_after_reachable|].
  assert (EHT.Find page_hash 0 (page_table_ (pool_after [new_page])) = Ok (Some 0))
    as Hf by (vm_compute; reflexivity).
  split; [exact Hf|].
  destruct (page_table_gives_the_frame_of_the_page (-1) 4096 4 (2 ^ 64 - 1) page_hash
              1 2 _ 0 0 (pool_after_reachable _) Hf) as (_ & _ & H1 & H2).
  split; [exact H1|exact H2].
Defined.

Lemma NewPgImp_returns_witness :
  reachable1 (pool_after [new_page; unpin_page 0 true]) /\
  BPM.NewPgImp 4096 (2 ^ 64 - 1) page_hash 64 (pool_after [new_page; unpin_page 0 true])
    = Ok (Some (1, 0), pool_after [new_page; unpin_page 0 true; new_page]) /\
  frame_given page_hash (pool_after [new_page; unpin_page 0 true]) 0 1
    (BPM.zeroed 4096) (pool_after [new_page; unpin_page 0 true; new_page]).
Proof.
  split; [apply pool_after_reachable|].
  assert (BPM.NewPgImp 4096 (2 ^ 64 - 1) page_hash 64
            (pool_after [new_page; unpin_page 0 true])
          = Ok (Some (1, 0), pool_after [new_page; unpin_page 0 true; new_page])) as Hn
    by (vm_compute; reflexivity).
  split; [exact Hn|].
  exact (proj2 (proj2 (proj2 (NewPgImp_returns (-1) 4096 4 (2 ^ 64 - 1) page_hash 1 2 _ 64
                                (pool_after_reachable [new_page; unpin_page 0 true]))
                         1 0 _ Hn))).
Defined.

Lemma FetchPgImp_miss_returns_witness :
  reachable1 (pool_after [new_page; unpin_page 0 true]) /\
  EHT.Find page_hash 7 (page_table_ (pool_after [new_page; unpin_page 0 true]))
    = Ok None /\
  BPM.FetchPgImp 4096 (2 ^ 64 - 1) page_hash 64 7
    (pool_after [new_page; unpin_page 0 true])
    = Ok (Some 0, pool_after [new_page; unpin_page 0 true; fetch_page 7]) /\
  next_page_id_ (pool_after [new_page; unpin_page 0 true; fetch_page 7])
    = next_page_id_ (pool_after [new_page; unpin_page 0 true]) /\
  frame_given page_hash (pool_after [new_page; unpin_page 0 true]) 0 7
    (BPM.ReadPage 4096 7
       (disk_manager_ (pool_after [new_page; unpin_page 0 true; fetch_page 7])))
    (pool_after [new_page; unpin_page 0 true; fetch_page 7]).
Proof.
  split; [apply pool_after_reachable|].
  assert (EHT.Find page_hash 7 (page_table_ (pool_after [new_page; unpin_page 0 true]))
          = Ok None) as Hf by (vm_compute; reflexivity).
  split; [exact Hf|].
  assert (BPM.FetchPgImp 4096 (2 ^ 64 - 1) page_hash 64 7
            (pool_after [new_page; unpin_page 0 true])
          = Ok (Some 0, pool_after [new_page; unpin_page 0 true; fetch_page 7])) as Hn
    by (vm_compute; reflexivity).
  split; [exact Hn|].
  exact (proj2 (FetchPgImp_miss_returns (-1) 4096 4 (2 ^ 64 - 1) page_hash 1 2 _ 64 7
                  (pool_after_reachable [new_page; unpin_page 0 true]) Hf) 0 _ Hn).
Defined.

Lemma UnpinPgImp_returns_witness :
  reachable1 (pool_after [new_page]) /\
  exists s', BPM.UnpinPgImp page_hash 0 true (pool_after [new_page]) = Ok (true, s') /\
    (LRUK.evictable (replacer_ s') 0 <-> 1 = 1) /\
    (is_dirty_ <$> vec_at (pages_ s') 0) = Some true /\
    (pin_count_ <$> vec_at (pages_ s') 0) = Some 0.
Proof.
  split; [apply pool_after_reachable|].
  destruct (UnpinPgImp_returns (-1) 4096 4 (2 ^ 64 - 1) page_hash 1 2 _ 0 true
              (pool_after_reachable [new_page])) as (b & s' & Hu & Hpost).
  assert (EHT.Find page_hash 0 (page_table_ (pool_after [new_page])) = Ok (Some 0))
    as Hf by (vm_compute; reflexivity).
  rewrite Hf in Hpost. destruct Hpost as (pg & Hpg & Hpost).
  assert (pin_count_ <$> vec_at (pages_ (pool_after [new_page])) 0 = Some 1) as H1
    by (vm_compute; reflexivity).
  rewrite Hpg in H1. injection H1 as Hpin.
  rewrite Hpin in Hpost. 
  change (1 =? 0) with false in Hpost. cbv iota in Hpost.
  destruct Hpost as (-> & Hpg' & Hev & _).
  exists s'. split; [exact Hu|]. split; [exact Hev|].
  rewrite Hpg'. split; reflexivity.
Defined.

Lemma DeletePgImp_returns_witness :
  reachable1 (pool_after [new_page; unpin_page 0 true]) /\
  exists s',
    BPM.DeletePgImp (-1) 4096 page_hash 0 (pool_after [new_page; unpin_page 0 true])
      = Ok (true, s') /\
    EHT.Find page_hash 0 (page_table_ s') = Ok None /\
    vec_at (pages_ s') 0 = Some (BPM.Page_new (-1) 4096) /\
    free_list_ s' = [0] /\
    disk_manager_ s' = disk_manager_ (pool_after [new_page; unpin_page 0 true]).
Proof.
  split; [apply pool_after_reachable|].
  destruct (DeletePgImp_returns (-1) 4096 4 (2 ^ 64 - 1) page_hash 1 2 _ 0
              (pool_after_reachable [new_page; unpin_page 0 true]))
    as (b & s' & Hd & Hpost).
  assert (EHT.Find page_hash 0 (page_table_ (pool_after [new_page; unpin_page 0 true]))
          = Ok (Some 0)) as Hf by (vm_compute; reflexivity).
  rewrite Hf in Hpost. destruct Hpost as (pg & Hpg & Hpost).
  assert (pin_count_ <$> vec_at (pages_ (pool_after [new_page; unpin_page 0 true])) 0
            = Some 0) as H1 by (vm_compute; reflexivity).
  rewrite Hpg in H1. injection H1 as Hpin.
  rewrite Hpin in Hpost.
  change (0 <? 0) with false in Hpost. cbv iota in Hpost.
  destruct Hpost as (-> & Hfind & Hpg' & Hfree & _ & _ & Hdisk & _).
  assert (free_list_ (pool_after [new_page; unpin_page 0 true]) = []) as Hfl
    by (vm_compute; reflexivity).
  exists s'. split; [exact Hd|]. split.
  { rewrite Hfind. apply decide_True. reflexivity. }
  split; [exact Hpg'|]. split; [|exact Hdisk].
  rewrite Hfree, Hfl. reflexivity.
Defined.

Lemma pinned_page_stays_witness :
  reachable1 (pool_after [new_page]) /\
  EHT.Find page_hash 0 (page_table_ (pool_after [new_page])) = Ok (Some 0) /\
  pool_run (delete_page 0) (pool_after [new_page])
    = Ok (pool_after [new_page; delete_page 0]) /\
  exists pg,
    vec_at (pages_ (pool_after [new_page])) 0 = Some pg /\ pin_count_ pg = 1 /\
    EHT.Find page_hash 0 (page_table_ (pool_after [new_page; delete_page 0]))
      = Ok (Some 0) /\
    exists pg', vec_at (pages_ (pool_after [new_page; delete_page 0])) 0 = Some pg' /\
      data_ pg' = data_ pg /\ page_id_ pg' = page_id_ pg /\
      pin_count_ pg' = pin_count_ pg.
Proof.
  split; [apply pool_after_reachable|].
  assert (EHT.Find page_hash 0 (page_table_ (pool_after [new_page])) = Ok (Some 0))
    as Hf by (vm_compute; reflexivity).
  split; [exact Hf|].
  assert (pool_run (delete_page 0) (pool_after [new_page])
          = Ok (pool_after [new_page; delete_page 0])) as Hrun
    by (vm_compute; reflexivity).
  split; [exact Hrun|].
  assert (length (pages_ (pool_after [new_page])) = 1%nat) as Hlen
    by (vm_compute; reflexivity).
  assert (is_Some (vec_at (pages_ (pool_after [new_page])) 0)) as [pg Hpg].
  { apply vec_at_is_Some. rewrite Hlen. split; reflexivity || discriminate. }
  assert (pin_count_ <$> vec_at (pages_ (pool_after [new_page])) 0 = Some 1) as H1
    by (vm_compute; reflexivity).
  rewrite Hpg in H1. injection H1 as Hpin.
  exists pg. split; [exact Hpg|]. split; [exact Hpin|].
  apply (pinned_page_stays (-1) 4096 4 (2 ^ 64 - 1) page_hash 1 2
           (pool_after [new_page]) 0 0 pg 64 (delete_page 0)
           (pool_after [new_page; delete_page 0])
           (pool_after_reachable _) Hf Hpg).
  - rewrite Hpin. reflexivity.
  - intros g pg' Hne Hg. apply vec_at_range in Hg. rewrite Hlen in Hg.
    clear - Hne Hg. lia.
  - intros Ho. discriminate Ho.
  - exact Hrun.
Defined.

Lemma no_frame_only_when_all_frames_pinned_witness :
  reachable1 (pool_after [new_page]) /\
  all_pinned (pool_after [new_page]) /\
  BPM.NewPgImp 4096 (2 ^ 64 - 1) page_hash 64 (pool_after [new_page])
    = Ok (None, pool_after [new_page]).
Proof.
  split; [apply pool_after_reachable|].
  assert (all_pinned (pool_after [new_page])) as Hall.
  { intros f pg Hpg.
    assert (length (pages_ (pool_after [new_page])) = 1%nat) as Hlen
      by (vm_compute; reflexivity).
    pose proof (vec_at_range _ _ _ Hpg) as Hr. rewrite Hlen in Hr.
    assert (f = 0) as -> by (clear - Hr; lia).
    assert (pin_count_ <$> vec_at (pages_ (pool_after [new_page])) 0 = Some 1) as H1
      by (vm_compute; reflexivity).
    rewrite Hpg in H1. injection H1 as ->. reflexivity. }
  split; [exact Hall|].
  exact (proj1 (no_frame_only_when_all_frames_pinned (-1) 4096 4 (2 ^ 64 - 1) page_hash
                  1 2 _ 64 (pool_after_reachable [new_page])) Hall).
Defined.

Lemma dirty_page_survives_eviction_witness :
  reachable2 (pool2_after [new_page; new_page; unpin_page 0 true; unpin_page 1 false]) /\
  EHT.Find page_hash 0
    (page_table_ (pool2_after [new_page; new_page; unpin_page 0 true;
                               unpin_page 1 false])) = Ok (Some 0) /\
  (is_dirty_ <$> vec_at (pages_ (pool2_after [new_page; new_page; unpin_page 0 true;
                                              unpin_page 1 false])) 0) = Some true /\
  BPM.NewPgImp 4096 (2 ^ 64 - 1) page_hash 64
    (pool2_after [new_page; new_page; unpin_page 0 true; unpin_page 1 false])
    = Ok (Some (2, 0),
          pool2_after [new_page; new_page; unpin_page 0 true; unpin_page 1 false;
                       new_page]) /\
  BPM.FetchPgImp 4096 (2 ^ 64 - 1) page_hash 64 0
    (pool2_after [new_page; new_page; unpin_page 0 true; unpin_page 1 false; new_page])
    = Ok (Some 1,
          pool2_after [new_page; new_page; unpin_page 0 true; unpin_page 1 false;
                       new_page; fetch_page 0]) /\
  exists pg pg2,
    vec_at (pages_ (pool2_after [new_page; new_page; unpin_page 0 true;
                                 unpin_page 1 false])) 0 = Some pg /\
    vec_at (pages_ (pool2_after [new_page; new_page; unpin_page 0 true;
                                 unpin_page 1 false; new_page; fetch_page 0])) 1
      = Some pg2 /\
    data_ pg2 = data_ pg /\ page_id_ pg2 = 0 /\ pin_count_ pg2 = 1.
Proof.
  set (S0 := pool2_after [new_page; new_page; unpin_page 0 true; unpin_page 1 false]).
  set (S1 := pool2_after [new_page; new_page; unpin_page 0 true; unpin_page 1 false;
                          new_page]).
  set (S2 := pool2_after [new_page; new_page; unpin_page 0 true; unpin_page 1 false;
                          new_page; fetch_page 0]).
  assert (reachable2 S0) as Hreach by apply pool2_after_reachable.
  assert (EHT.Find page_hash 0 (page_table_ S0) = Ok (Some 0)) as Hf
    by (vm_compute; reflexivity).
  assert ((is_dirty_ <$> vec_at (pages_ S0) 0) = Some true) as Hd
    by (vm_compute; reflexivity).
  assert (BPM.NewPgImp 4096 (2 ^ 64 - 1) page_hash 64 S0 = Ok (Some (2, 0), S1)) as Hn
    by (vm_compute; reflexivity).
  assert (BPM.FetchPgImp 4096 (2 ^ 64 - 1) page_hash 64 0 S1 = Ok (Some 1, S2)) as Hfe
    by (vm_compute; reflexivity).
  assert (length (pages_ S0) = 2%nat) as Hlen by (vm_compute; reflexivity).
  assert ((page_id_ <$> vec_at (pages_ S0) 1) = Some 1) as Hid1
    by (vm_compute; reflexivity).
  assert (is_Some (vec_at (pages_ S0) 0)) as [pg Hpg].
  { apply vec_at_is_Some. rewrite Hlen. split; reflexivity || discriminate. }
  do 5 (split; [assumption|]).
  assert (is_dirty_ pg = true) as Hdirty.
  { rewrite Hpg in Hd. injection Hd as Hd. exact Hd. }
  assert (forall g pg', g <> 0 -> vec_at (pages_ S0) g = Some pg' -> page_id_ pg' <> 0)
    as Honly.
  { intros g pg' Hne Hg. pose proof (vec_at_range _ _ _ Hg) as Hr. rewrite Hlen in Hr.
    assert (g = 1) as -> by (clear - Hne Hr; lia).
    rewrite Hg in Hid1. injection Hid1 as ->. discriminate. }
  destruct (dirty_page_survives_eviction (-1) 4096 4 (2 ^ 64 - 1) page_hash 2 2
              S0 0 0 pg 64 2 S1 Hreach Hf Hpg Hdirty Honly ltac:(discriminate)
              (or_introl Hn)) as (_ & _ & Hback).
  destruct (Hback 64%nat 1 S2 Hfe) as (pg2 & Hpg2 & Hdata).
  exists pg, pg2. split; [exact Hpg|]. split; [exact Hpg2|exact Hdata].
Defined.

End BPM_More.
